(** * Draft client: stream orchestrator and progress display

    A shallow embedding of two Go packages of the draft client:

    - package [rpc] (client implementation): [UpBuild], [UpStream] and
      their helpers [up_build], [up_stream], [connect];
    - package [cmdline]: the [cmdline] value with [Init], [Stop], and the
      [Display] / [progress] pair that renders one line per stage.

    Both packages are concurrent programs: goroutines that communicate
    over channels.  Each goroutine is modelled by a program counter, each
    channel by its buffer and its closed flag, and the whole program by a
    deterministic step function indexed by a label that names the goroutine
    that moves (and, at a [select] with several ready cases, the case that
    is taken).  A schedule is a list of labels; a statement about every
    execution quantifies over every schedule. *)

From stdpp Require Import base option list strings gmap.
From Stdlib Require Import ZArith Ascii.

(** ** Values shared by the two packages *)

(** Go [error] values are modelled by their message; [nil] is [None]. *)
Definition error : Type := string.

(** Modelled from the spec: the generated protobuf types of package [rpc]
    ([UpSummary], [UpMessage], the status enumeration) are not part of the
    sources at hand.  Section 6 of the specification gives [UpSummary] a
    stage descriptor and a status code with PENDING=0, SUCCESS=1, FAILURE=2,
    and makes [UpMessage] an envelope holding either a request or a
    summary.  The enumeration is a Go [int32]; it is kept as an integer so
    that the zero value read from a closed channel is PENDING. *)
Definition UpSummary_StatusCode : Type := Z.
Definition UpSummary_PENDING : UpSummary_StatusCode := 0%Z.
Definition UpSummary_SUCCESS : UpSummary_StatusCode := 1%Z.
Definition UpSummary_FAILURE : UpSummary_StatusCode := 2%Z.

Record UpSummary : Type := mkUpSummary {
  StageDesc : string;
  StatusCode : UpSummary_StatusCode
}.

(** The build request is an opaque payload for the client. *)
Record UpRequest : Type := mkUpRequest { AppName : string }.

Inductive UpMessage : Type :=
| UpMessage_UpRequest (r : UpRequest)
| UpMessage_UpSummary (s : UpSummary).

(** The generated getter: the summary, or a nil pointer for another
    variant. *)
Definition GetUpSummary (m : UpMessage) : option UpSummary :=
  match m with
  | UpMessage_UpSummary s => Some s
  | UpMessage_UpRequest _ => None
  end.

(** A [context.Context], reduced to whether it has been canceled. *)
Record Context : Type := mkContext { canceled : bool }.

(** [context.Background()] is never canceled. *)
Definition Background : Context := {| canceled := false |}.

Definition cancel (c : Context) : Context := {| canceled := true |}.

(** ** Package rpc *)

Module Rpc.

(** Modelled from the spec: the gRPC transport (the generated
    [DraftClient] and its stream objects) is an external collaborator.
    Section 9 asks of it only that "send(msg) fails with error" and
    "receive() yields msg or end-of-stream or error"; section 5 adds that a
    network receive blocks "until data, connection close, or cancellation".
    A stream is therefore the context it was opened with, the script of the
    results its successive [Recv] calls yield (an exhausted script is a
    server that stays silent: [Recv] blocks), and the script of the results
    of its successive [Send] calls (exhausted: the send succeeds). *)
Inductive recv_result : Type :=
| RecvMsg (m : UpMessage)
| RecvEOF
| RecvErr (e : error).

Record Stream : Type := mkStream {
  s_ctx : Context;
  s_recv : list recv_result;
  s_send : list (option error)
}.

Definition ctx_error : error := "context canceled".

(** [None]: the call blocks. *)
Definition Recv (st : Stream) : option (recv_result * Stream) :=
  if canceled (s_ctx st) then Some (RecvErr ctx_error, st)
  else match s_recv st with
       | [] => None
       | r :: rest =>
           Some (r, {| s_ctx := s_ctx st; s_recv := rest; s_send := s_send st |})
       end.

Definition Send (st : Stream) : option error * Stream :=
  if canceled (s_ctx st) then (Some ctx_error, st)
  else match s_send st with
       | [] => (None, st)
       | r :: rest =>
           (r, {| s_ctx := s_ctx st; s_recv := s_recv st; s_send := rest |})
       end.

(** [fmt.Errorf] with a [%v] verb appends the message of the cause. *)
Definition errorf (prefix : string) (e : error) : error := prefix +:+ e.

Definition dquote : string := String "034"%char EmptyString.

(** [connect]: the error of a failed dial is wrapped with the address
    ([%q] is rendered as the address between double quotes, which is what
    Go prints for an address without characters to escape). *)
Definition connect (addr : string) (dial : option error) : option error :=
  match dial with
  | Some e =>
      Some (errorf ("failed to dial " +:+ dquote +:+ addr +:+ dquote +:+ ": ") e)
  | None => None
  end.

(** The caller's end of the output channel [outc]: the number of sends on
    [outc] that can still complete, that is what the caller still receives
    (plus what the channel buffers); [None]: the caller never stops
    receiving.  A send completes by using up one; with none left it blocks
    for ever. *)
Definition caller_recv (c : option nat) : option (option nat) :=
  match c with
  | None => Some None
  | Some (S n) => Some (Some n)
  | Some 0 => None
  end.

(** *** UpBuild *)

(** The goroutine started by [UpBuild]; it runs [up_build] and then
    reports on [errc]. *)
Inductive go_pc : Type :=
| GoIdle                          (* not started *)
| GoOpen                          (* up_build: the call rpc.UpBuild *)
| GoRecv                          (* up_build: s.Recv() *)
| GoPut (m : UpMessage)           (* up_build: outc <- resp *)
| GoCloseMsgc (r : option error)  (* up_build returns r: deferred close(outc) *)
| GoAfter (r : option error)      (* if err := up_build(...); err != nil *)
| GoSendErr (e : error)           (* errc <- err *)
| GoCloseErrc                     (* close(errc) *)
| GoExit.

(** The body of [UpBuild] itself. *)
Inductive main_pc : Type :=
| MConnect                          (* connect(c) *)
| MSelect                           (* loop test, then the select *)
| MEmit (x : option UpSummary)      (* outc <- msg.GetUpSummary() *)
| MCloseOutc (r : option error)     (* returning r: deferred close(outc) *)
| MCloseConn (r : option error)     (* deferred conn.Close() *)
| MReturned (r : option error).

Record ub_state : Type := mkUb {
  ub_apictx : Context;         (* the ctx argument *)
  ub_addr : string;
  ub_dial : option error;      (* what grpc.Dial answers *)
  ub_open : option error;      (* what the call rpc.UpBuild answers *)
  ub_stream : Stream;
  ub_msgc : list UpMessage;    (* make(chan *UpMessage, 2): the buffer *)
  ub_msgc_closed : bool;
  ub_errc_closed : bool;       (* make(chan error): unbuffered *)
  ub_msgc_nil : bool;          (* the local msgc has been set to nil *)
  ub_errc_nil : bool;          (* the local errc has been set to nil *)
  ub_go : go_pc;
  ub_main : main_pc;
  ub_out : list (option UpSummary);  (* values sent on the caller's outc *)
  ub_outc_closes : nat;        (* executions of close(outc) *)
  ub_conn_closes : nat;        (* executions of conn.Close() *)
  ub_caller : option nat       (* sends on outc that can still complete *)
}.

Definition ub_set_apictx (c : Context) (s : ub_state) : ub_state :=
  mkUb c (ub_addr s) (ub_dial s) (ub_open s) (ub_stream s) (ub_msgc s)
    (ub_msgc_closed s) (ub_errc_closed s) (ub_msgc_nil s) (ub_errc_nil s)
    (ub_go s) (ub_main s) (ub_out s) (ub_outc_closes s) (ub_conn_closes s)
    (ub_caller s).
Definition ub_set_stream (st : Stream) (s : ub_state) : ub_state :=
  mkUb (ub_apictx s) (ub_addr s) (ub_dial s) (ub_open s) st (ub_msgc s)
    (ub_msgc_closed s) (ub_errc_closed s) (ub_msgc_nil s) (ub_errc_nil s)
    (ub_go s) (ub_main s) (ub_out s) (ub_outc_closes s) (ub_conn_closes s)
    (ub_caller s).
Definition ub_set_msgc (b : list UpMessage) (s : ub_state) : ub_state :=
  mkUb (ub_apictx s) (ub_addr s) (ub_dial s) (ub_open s) (ub_stream s) b
    (ub_msgc_closed s) (ub_errc_closed s) (ub_msgc_nil s) (ub_errc_nil s)
    (ub_go s) (ub_main s) (ub_out s) (ub_outc_closes s) (ub_conn_closes s)
    (ub_caller s).
Definition ub_close_msgc (s : ub_state) : ub_state :=
  mkUb (ub_apictx s) (ub_addr s) (ub_dial s) (ub_open s) (ub_stream s) (ub_msgc s)
    true (ub_errc_closed s) (ub_msgc_nil s) (ub_errc_nil s)
    (ub_go s) (ub_main s) (ub_out s) (ub_outc_closes s) (ub_conn_closes s)
    (ub_caller s).
Definition ub_close_errc (s : ub_state) : ub_state :=
  mkUb (ub_apictx s) (ub_addr s) (ub_dial s) (ub_open s) (ub_stream s) (ub_msgc s)
    (ub_msgc_closed s) true (ub_msgc_nil s) (ub_errc_nil s)
    (ub_go s) (ub_main s) (ub_out s) (ub_outc_closes s) (ub_conn_closes s)
    (ub_caller s).
Definition ub_nil_msgc (s : ub_state) : ub_state :=
  mkUb (ub_apictx s) (ub_addr s) (ub_dial s) (ub_open s) (ub_stream s) (ub_msgc s)
    (ub_msgc_closed s) (ub_errc_closed s) true (ub_errc_nil s)
    (ub_go s) (ub_main s) (ub_out s) (ub_outc_closes s) (ub_conn_closes s)
    (ub_caller s).
Definition ub_nil_errc (s : ub_state) : ub_state :=
  mkUb (ub_apictx s) (ub_addr s) (ub_dial s) (ub_open s) (ub_stream s) (ub_msgc s)
    (ub_msgc_closed s) (ub_errc_closed s) (ub_msgc_nil s) true
    (ub_go s) (ub_main s) (ub_out s) (ub_outc_closes s) (ub_conn_closes s)
    (ub_caller s).
Definition ub_set_go (pc : go_pc) (s : ub_state) : ub_state :=
  mkUb (ub_apictx s) (ub_addr s) (ub_dial s) (ub_open s) (ub_stream s) (ub_msgc s)
    (ub_msgc_closed s) (ub_errc_closed s) (ub_msgc_nil s) (ub_errc_nil s)
    pc (ub_main s) (ub_out s) (ub_outc_closes s) (ub_conn_closes s)
    (ub_caller s).
Definition ub_set_main (pc : main_pc) (s : ub_state) : ub_state :=
  mkUb (ub_apictx s) (ub_addr s) (ub_dial s) (ub_open s) (ub_stream s) (ub_msgc s)
    (ub_msgc_closed s) (ub_errc_closed s) (ub_msgc_nil s) (ub_errc_nil s)
    (ub_go s) pc (ub_out s) (ub_outc_closes s) (ub_conn_closes s)
    (ub_caller s).
Definition ub_emit (x : option UpSummary) (c : option nat) (s : ub_state)
    : ub_state :=
  mkUb (ub_apictx s) (ub_addr s) (ub_dial s) (ub_open s) (ub_stream s) (ub_msgc s)
    (ub_msgc_closed s) (ub_errc_closed s) (ub_msgc_nil s) (ub_errc_nil s)
    (ub_go s) (ub_main s) (ub_out s ++ [x]) (ub_outc_closes s) (ub_conn_closes s)
    c.
Definition ub_close_outc (s : ub_state) : ub_state :=
  mkUb (ub_apictx s) (ub_addr s) (ub_dial s) (ub_open s) (ub_stream s) (ub_msgc s)
    (ub_msgc_closed s) (ub_errc_closed s) (ub_msgc_nil s) (ub_errc_nil s)
    (ub_go s) (ub_main s) (ub_out s) (S (ub_outc_closes s)) (ub_conn_closes s)
    (ub_caller s).
Definition ub_close_conn (s : ub_state) : ub_state :=
  mkUb (ub_apictx s) (ub_addr s) (ub_dial s) (ub_open s) (ub_stream s) (ub_msgc s)
    (ub_msgc_closed s) (ub_errc_closed s) (ub_msgc_nil s) (ub_errc_nil s)
    (ub_go s) (ub_main s) (ub_out s) (ub_outc_closes s) (S (ub_conn_closes s))
    (ub_caller s).

(** Who moves.  [UbMainMsgc] and [UbMainErrc] are the two cases of the
    select of [UpBuild]; [UbCancel] is the caller canceling [ctx]. *)
Inductive ub_label : Type :=
| UbMain | UbMainMsgc | UbMainErrc | UbGo | UbCancel.

(** One step of the goroutine: [up_build], then the report on [errc].
    The send [errc <- err] is a rendezvous: it is completed by the receive
    of [UpBuild] (label [UbMainErrc]). *)
Definition up_build (s : ub_state) : option ub_state :=
  match ub_go s with
  | GoOpen =>
      match ub_open s with
      | Some e =>
          Some (ub_set_go (GoAfter (Some (errorf "rpc error handling up_build: " e))) s)
      | None => Some (ub_set_go GoRecv s)
      end
  | GoRecv =>
      match Recv (ub_stream s) with
      | None => None
      | Some (RecvEOF, st) => Some (ub_set_go (GoCloseMsgc None) (ub_set_stream st s))
      | Some (RecvErr e, st) =>
          Some (ub_set_go
                  (GoCloseMsgc (Some (errorf "rpc error handling up_build recv: " e)))
                  (ub_set_stream st s))
      | Some (RecvMsg m, st) => Some (ub_set_go (GoPut m) (ub_set_stream st s))
      end
  | GoPut m =>
      if bool_decide (length (ub_msgc s) < 2)
      then Some (ub_set_go GoRecv (ub_set_msgc (ub_msgc s ++ [m]) s))
      else None
  | GoCloseMsgc r => Some (ub_set_go (GoAfter r) (ub_close_msgc s))
  | GoAfter (Some e) => Some (ub_set_go (GoSendErr e) s)
  | GoAfter None => Some (ub_set_go GoCloseErrc s)
  | GoCloseErrc => Some (ub_set_go GoExit (ub_close_errc s))
  | GoSendErr _ | GoIdle | GoExit => None
  end.

(** One step of [UpBuild], by the goroutine named by the label.  The send
    [outc <- msg.GetUpSummary()] is outside the select: it completes only if
    the caller receives, and blocks otherwise. *)
Definition UpBuild (l : ub_label) (s : ub_state) : option ub_state :=
  match l with
  | UbCancel =>
      if canceled (ub_apictx s) then None
      else Some (ub_set_apictx (cancel (ub_apictx s)) s)
  | UbGo => up_build s
  | UbMain =>
      match ub_main s with
      | MConnect =>
          match connect (ub_addr s) (ub_dial s) with
          | Some e => Some (ub_set_main (MReturned (Some e)) s)
          | None => Some (ub_set_main MSelect (ub_set_go GoOpen s))
          end
      | MSelect =>
          if ub_msgc_nil s && ub_errc_nil s
          then Some (ub_set_main (MCloseOutc None) s)
          else None
      | MEmit x =>
          match caller_recv (ub_caller s) with
          | Some c => Some (ub_set_main MSelect (ub_emit x c s))
          | None => None
          end
      | MCloseOutc r => Some (ub_set_main (MCloseConn r) (ub_close_outc s))
      | MCloseConn r => Some (ub_set_main (MReturned r) (ub_close_conn s))
      | MReturned _ => None
      end
  | UbMainMsgc =>
      match ub_main s with
      | MSelect =>
          if ub_msgc_nil s then None
          else match ub_msgc s with
               | m :: rest =>
                   Some (ub_set_main (MEmit (GetUpSummary m)) (ub_set_msgc rest s))
               | [] => if ub_msgc_closed s then Some (ub_nil_msgc s) else None
               end
      | _ => None
      end
  | UbMainErrc =>
      match ub_main s with
      | MSelect =>
          if ub_errc_nil s then None
          else match ub_go s with
               | GoSendErr e =>
                   Some (ub_set_main (MCloseOutc (Some e)) (ub_set_go GoCloseErrc s))
               | _ => if ub_errc_closed s then Some (ub_nil_errc s) else None
               end
      | _ => None
      end
  end.

(** The state at the call [c.UpBuild(ctx, req, outc)].  The transport is
    given by the address, the answer of the dial, the answer of the call
    [rpc.UpBuild] and the two scripts of the stream; [takes] is the caller's
    end of [outc].  The stream is opened with
    [rpcctx := context.Background()]. *)
Definition UpBuild_init (ctx : Context) (addr : string) (dial open : option error)
    (recvs : list recv_result) (sends : list (option error))
    (takes : option nat) : ub_state :=
  {| ub_apictx := ctx; ub_addr := addr; ub_dial := dial; ub_open := open;
     ub_stream := {| s_ctx := Background; s_recv := recvs; s_send := sends |};
     ub_msgc := []; ub_msgc_closed := false; ub_errc_closed := false;
     ub_msgc_nil := false; ub_errc_nil := false;
     ub_go := GoIdle; ub_main := MConnect;
     ub_out := []; ub_outc_closes := 0; ub_conn_closes := 0;
     ub_caller := takes |}.

Fixpoint ub_run (ls : list ub_label) (s : ub_state) : option ub_state :=
  match ls with
  | [] => Some s
  | l :: ls' =>
      match UpBuild l s with
      | Some s' => ub_run ls' s'
      | None => None
      end
  end.

(** Nothing but a cancellation of [ctx] can happen. *)
Definition ub_quiescent (s : ub_state) : Prop :=
  ∀ l, l ≠ UbCancel → UpBuild l s = None.

(** *** UpStream *)

(** The goroutine started by [UpStream]: it ranges over [msgc] and
    forwards the summaries to [outc]. *)
Inductive fwd_pc : Type :=
| FIdle                   (* not started *)
| FRange                  (* for msg := range msgc *)
| FEmit (x : UpSummary)   (* outc <- summary *)
| FCloseOutc              (* close(outc) *)
| FExit.

(** The goroutine started by [up_stream]: the receive loop. *)
Inductive rcv_pc : Type :=
| RIdle                   (* not started *)
| RRecv                   (* stream.Recv() *)
| RPut (m : UpMessage)    (* recv <- m *)
| RSendErr (e : error)    (* errc <- fmt.Errorf(...) *)
| RExit
| RPanic.                 (* send on a closed channel *)

(** [UpStream], with the body of [up_stream] (the send loop and its
    deferred function) in line. *)
Inductive str_pc : Type :=
| SConnect                        (* connect(c) *)
| SOpen                           (* up_stream: rpc.UpStream(ctx) *)
| SSelect                         (* the select of the send loop *)
| SSend (req : UpRequest)         (* stream.Send(req) *)
| SCloseSend (r : option error)   (* returning r: stream.CloseSend() *)
| SWaitDone (r : option error)    (* <-done *)
| SCloseRecv (r : option error)   (* close(recv) *)
| SCloseErrc (r : option error)   (* close(errc) *)
| SCloseConn (r : option error)   (* deferred conn.Close() of UpStream *)
| SReturned (r : option error)
| SPanic.                         (* close of a closed channel *)

Record us_state : Type := mkUs {
  us_apictx : Context;          (* the apictx argument *)
  us_addr : string;
  us_dial : option error;       (* what grpc.Dial answers *)
  us_open : option error;       (* what the call rpc.UpStream answers *)
  us_stream : Stream;
  us_reqc : list UpRequest;     (* what the caller still sends on reqc *)
  us_reqc_closes : bool;        (* whether the caller then closes reqc *)
  us_sent : list UpMessage;     (* requests written on the stream *)
  us_msgc_closed : bool;        (* msgc, alias recv: unbuffered *)
  us_done_closed : bool;
  us_errc_closed : bool;        (* errc: unbuffered *)
  us_fwd : fwd_pc;
  us_rcv : rcv_pc;
  us_main : str_pc;
  us_out : list UpSummary;      (* values sent on the caller's outc *)
  us_outc_closes : nat;         (* executions of close(outc) *)
  us_conn_closes : nat;         (* executions of conn.Close() *)
  us_caller : option nat        (* sends on outc that can still complete *)
}.

Definition us_set_apictx (c : Context) (s : us_state) : us_state :=
  mkUs c (us_addr s) (us_dial s) (us_open s) (us_stream s) (us_reqc s)
    (us_reqc_closes s) (us_sent s) (us_msgc_closed s) (us_done_closed s)
    (us_errc_closed s) (us_fwd s) (us_rcv s) (us_main s) (us_out s)
    (us_outc_closes s) (us_conn_closes s) (us_caller s).
Definition us_set_stream (st : Stream) (s : us_state) : us_state :=
  mkUs (us_apictx s) (us_addr s) (us_dial s) (us_open s) st (us_reqc s)
    (us_reqc_closes s) (us_sent s) (us_msgc_closed s) (us_done_closed s)
    (us_errc_closed s) (us_fwd s) (us_rcv s) (us_main s) (us_out s)
    (us_outc_closes s) (us_conn_closes s) (us_caller s).
Definition us_set_reqc (q : list UpRequest) (s : us_state) : us_state :=
  mkUs (us_apictx s) (us_addr s) (us_dial s) (us_open s) (us_stream s) q
    (us_reqc_closes s) (us_sent s) (us_msgc_closed s) (us_done_closed s)
    (us_errc_closed s) (us_fwd s) (us_rcv s) (us_main s) (us_out s)
    (us_outc_closes s) (us_conn_closes s) (us_caller s).
Definition us_add_sent (m : UpMessage) (s : us_state) : us_state :=
  mkUs (us_apictx s) (us_addr s) (us_dial s) (us_open s) (us_stream s) (us_reqc s)
    (us_reqc_closes s) (us_sent s ++ [m]) (us_msgc_closed s) (us_done_closed s)
    (us_errc_closed s) (us_fwd s) (us_rcv s) (us_main s) (us_out s)
    (us_outc_closes s) (us_conn_closes s) (us_caller s).
Definition us_close_msgc (s : us_state) : us_state :=
  mkUs (us_apictx s) (us_addr s) (us_dial s) (us_open s) (us_stream s) (us_reqc s)
    (us_reqc_closes s) (us_sent s) true (us_done_closed s)
    (us_errc_closed s) (us_fwd s) (us_rcv s) (us_main s) (us_out s)
    (us_outc_closes s) (us_conn_closes s) (us_caller s).
Definition us_close_done (s : us_state) : us_state :=
  mkUs (us_apictx s) (us_addr s) (us_dial s) (us_open s) (us_stream s) (us_reqc s)
    (us_reqc_closes s) (us_sent s) (us_msgc_closed s) true
    (us_errc_closed s) (us_fwd s) (us_rcv s) (us_main s) (us_out s)
    (us_outc_closes s) (us_conn_closes s) (us_caller s).
Definition us_close_errc (s : us_state) : us_state :=
  mkUs (us_apictx s) (us_addr s) (us_dial s) (us_open s) (us_stream s) (us_reqc s)
    (us_reqc_closes s) (us_sent s) (us_msgc_closed s) (us_done_closed s)
    true (us_fwd s) (us_rcv s) (us_main s) (us_out s)
    (us_outc_closes s) (us_conn_closes s) (us_caller s).
Definition us_set_fwd (pc : fwd_pc) (s : us_state) : us_state :=
  mkUs (us_apictx s) (us_addr s) (us_dial s) (us_open s) (us_stream s) (us_reqc s)
    (us_reqc_closes s) (us_sent s) (us_msgc_closed s) (us_done_closed s)
    (us_errc_closed s) pc (us_rcv s) (us_main s) (us_out s)
    (us_outc_closes s) (us_conn_closes s) (us_caller s).
Definition us_set_rcv (pc : rcv_pc) (s : us_state) : us_state :=
  mkUs (us_apictx s) (us_addr s) (us_dial s) (us_open s) (us_stream s) (us_reqc s)
    (us_reqc_closes s) (us_sent s) (us_msgc_closed s) (us_done_closed s)
    (us_errc_closed s) (us_fwd s) pc (us_main s) (us_out s)
    (us_outc_closes s) (us_conn_closes s) (us_caller s).
Definition us_set_main (pc : str_pc) (s : us_state) : us_state :=
  mkUs (us_apictx s) (us_addr s) (us_dial s) (us_open s) (us_stream s) (us_reqc s)
    (us_reqc_closes s) (us_sent s) (us_msgc_closed s) (us_done_closed s)
    (us_errc_closed s) (us_fwd s) (us_rcv s) pc (us_out s)
    (us_outc_closes s) (us_conn_closes s) (us_caller s).
Definition us_emit (x : UpSummary) (c : option nat) (s : us_state) : us_state :=
  mkUs (us_apictx s) (us_addr s) (us_dial s) (us_open s) (us_stream s) (us_reqc s)
    (us_reqc_closes s) (us_sent s) (us_msgc_closed s) (us_done_closed s)
    (us_errc_closed s) (us_fwd s) (us_rcv s) (us_main s) (us_out s ++ [x])
    (us_outc_closes s) (us_conn_closes s) c.
Definition us_close_outc (s : us_state) : us_state :=
  mkUs (us_apictx s) (us_addr s) (us_dial s) (us_open s) (us_stream s) (us_reqc s)
    (us_reqc_closes s) (us_sent s) (us_msgc_closed s) (us_done_closed s)
    (us_errc_closed s) (us_fwd s) (us_rcv s) (us_main s) (us_out s)
    (S (us_outc_closes s)) (us_conn_closes s)
    (us_caller s).
Definition us_close_conn (s : us_state) : us_state :=
  mkUs (us_apictx s) (us_addr s) (us_dial s) (us_open s) (us_stream s) (us_reqc s)
    (us_reqc_closes s) (us_sent s) (us_msgc_closed s) (us_done_closed s)
    (us_errc_closed s) (us_fwd s) (us_rcv s) (us_main s) (us_out s)
    (us_outc_closes s) (S (us_conn_closes s))
    (us_caller s).

(** Who moves.  [UsMainSend] and [UsMainErrc] are the two cases of the
    select of the send loop; [UsCancel] is the caller canceling [apictx]. *)
Inductive us_label : Type :=
| UsMain | UsMainSend | UsMainErrc | UsRecv | UsFwd | UsCancel.

(** One step of the forwarding goroutine of [UpStream].  Its receive from
    the unbuffered [msgc] completes the send [recv <- m] of the receive
    loop; its send [outc <- summary] completes only if the caller
    receives. *)
Definition forward (s : us_state) : option us_state :=
  match us_fwd s with
  | FRange =>
      match us_rcv s with
      | RPut m =>
          if us_msgc_closed s then Some (us_set_fwd FCloseOutc s)
          else match GetUpSummary m with
               | Some x => Some (us_set_fwd (FEmit x) (us_set_rcv RRecv s))
               | None => Some (us_set_rcv RRecv s)
               end
      | _ => if us_msgc_closed s then Some (us_set_fwd FCloseOutc s) else None
      end
  | FEmit x =>
      match caller_recv (us_caller s) with
      | Some c => Some (us_set_fwd FRange (us_emit x c s))
      | None => None
      end
  | FCloseOutc => Some (us_set_fwd FExit (us_close_outc s))
  | FIdle | FExit => None
  end.

(** One step of the receive loop of [up_stream].  Its sends on [recv] and
    on [errc] are completed by their receivers; on a closed channel they
    panic. *)
Definition receive (s : us_state) : option us_state :=
  match us_rcv s with
  | RRecv =>
      match Recv (us_stream s) with
      | None => None
      | Some (RecvEOF, st) => Some (us_set_rcv RExit (us_close_done (us_set_stream st s)))
      | Some (RecvErr e, st) =>
          Some (us_set_rcv (RSendErr (errorf "failed to receive a summary: " e))
                  (us_set_stream st s))
      | Some (RecvMsg m, st) => Some (us_set_rcv (RPut m) (us_set_stream st s))
      end
  | RPut _ => if us_msgc_closed s then Some (us_set_rcv RPanic s) else None
  | RSendErr _ => if us_errc_closed s then Some (us_set_rcv RPanic s) else None
  | RIdle | RExit | RPanic => None
  end.

(** One step of [up_stream] proper, outside its select. *)
Definition up_stream (s : us_state) : option us_state :=
  match us_main s with
  | SOpen =>
      match us_open s with
      | Some e =>
          Some (us_set_main
                  (SCloseConn (Some (errorf "rpc error handling up_stream: " e))) s)
      | None => Some (us_set_main SSelect (us_set_rcv RRecv s))
      end
  | SSend req =>
      match Send (us_stream s) with
      | (Some e, st) =>
          Some (us_set_main
                  (SCloseSend (Some (errorf "failed to send an up message: " e)))
                  (us_set_stream st s))
      | (None, st) =>
          Some (us_set_main SSelect
                  (us_add_sent (UpMessage_UpRequest req) (us_set_stream st s)))
      end
  | SCloseSend r => Some (us_set_main (SWaitDone r) s)
  | SWaitDone r =>
      if us_done_closed s then Some (us_set_main (SCloseRecv r) s) else None
  | SCloseRecv r =>
      if us_msgc_closed s then Some (us_set_main SPanic s)
      else Some (us_set_main (SCloseErrc r) (us_close_msgc s))
  | SCloseErrc r =>
      if us_errc_closed s then Some (us_set_main SPanic s)
      else Some (us_set_main (SCloseConn r) (us_close_errc s))
  | _ => None
  end.

Definition UpStream (l : us_label) (s : us_state) : option us_state :=
  match l with
  | UsCancel =>
      if canceled (us_apictx s) then None
      else Some (us_set_apictx (cancel (us_apictx s)) s)
  | UsFwd => forward s
  | UsRecv => receive s
  | UsMain =>
      match us_main s with
      | SConnect =>
          match connect (us_addr s) (us_dial s) with
          | Some e => Some (us_set_main (SReturned (Some e)) s)
          | None => Some (us_set_main SOpen (us_set_fwd FRange s))
          end
      | SCloseConn r => Some (us_set_main (SReturned r) (us_close_conn s))
      | _ => up_stream s
      end
  | UsMainSend =>
      match us_main s with
      | SSelect =>
          match us_reqc s with
          | req :: rest => Some (us_set_main (SSend req) (us_set_reqc rest s))
          | [] =>
              if us_reqc_closes s then Some (us_set_main (SCloseSend None) s)
              else None
          end
      | _ => None
      end
  | UsMainErrc =>
      match us_main s with
      | SSelect =>
          match us_rcv s with
          | RSendErr e =>
              if us_errc_closed s then Some (us_set_main (SCloseSend None) s)
              else Some (us_set_main (SCloseSend (Some e)) (us_set_rcv RExit s))
          | _ =>
              if us_errc_closed s then Some (us_set_main (SCloseSend None) s)
              else None
          end
      | _ => None
      end
  end.

(** The state at the call [c.UpStream(apictx, reqc, outc)]: [reqs] are the
    requests the caller sends on [reqc], which it closes afterwards when
    [closes] holds; [takes] is the caller's end of [outc].  The stream is
    opened with [rpcctx := context.Background()]. *)
Definition UpStream_init (ctx : Context) (addr : string) (dial open : option error)
    (recvs : list recv_result) (sends : list (option error))
    (reqs : list UpRequest) (closes : bool) (takes : option nat) : us_state :=
  {| us_apictx := ctx; us_addr := addr; us_dial := dial; us_open := open;
     us_stream := {| s_ctx := Background; s_recv := recvs; s_send := sends |};
     us_reqc := reqs; us_reqc_closes := closes; us_sent := [];
     us_msgc_closed := false; us_done_closed := false; us_errc_closed := false;
     us_fwd := FIdle; us_rcv := RIdle; us_main := SConnect;
     us_out := []; us_outc_closes := 0; us_conn_closes := 0;
     us_caller := takes |}.

Fixpoint us_run (ls : list us_label) (s : us_state) : option us_state :=
  match ls with
  | [] => Some s
  | l :: ls' =>
      match UpStream l s with
      | Some s' => us_run ls' s'
      | None => None
      end
  end.

(** No goroutine can move and [apictx] is canceled: nothing will ever
    happen. *)
Definition us_stuck (s : us_state) : Prop := ∀ l, UpStream l s = None.

End Rpc.

(** ** Package cmdline *)

Module Cmdline.

(** A channel of [struct{}] that only gets closed. *)
Inductive chan_state : Type := ChanNil | ChanOpen | ChanClosed.

(** The [cmdline] struct.  [opts.stdout] is the sink; what is written to it
    is kept in the log of the display below. *)
Record cmdline : Type := mkCmdline {
  cli_ctx : Context;
  cli_done : chan_state;
  cli_once : bool;            (* the sync.Once has fired *)
  cli_err : option error
}.

(** [var cli cmdline]. *)
Definition zero : cmdline :=
  {| cli_ctx := Background; cli_done := ChanNil; cli_once := false; cli_err := None |}.

(** [Init], for its effect on the struct: a fresh cancelable context and a
    fresh [done] channel.  The two goroutines it starts are the watcher of
    the display state below. *)
Definition Init (cli : cmdline) : cmdline :=
  {| cli_ctx := Background; cli_done := ChanOpen;
     cli_once := cli_once cli; cli_err := cli_err cli |}.

Definition Done (cli : cmdline) : chan_state := cli_done cli.

(** A receive from the channel can proceed. *)
Definition is_closed (c : chan_state) : bool :=
  match c with ChanClosed => true | _ => false end.

(** [Stop]: [cli.once.Do(func() { close(cli.done) })] and [return cli.err].
    [sync.Once] serializes concurrent callers, so a call is one atomic step.
    [None] is a panic: closing a nil or a closed channel. *)
Definition Stop (cli : cmdline) : option (cmdline * option error) :=
  if cli_once cli then Some (cli, cli_err cli)
  else match cli_done cli with
       | ChanOpen =>
           Some ({| cli_ctx := cli_ctx cli; cli_done := ChanClosed;
                    cli_once := true; cli_err := cli_err cli |}, cli_err cli)
       | ChanNil | ChanClosed => None
       end.

(** [n] calls of [Stop] in a row, with the values they return. *)
Fixpoint Stop_times (n : nat) (cli : cmdline)
    : option (cmdline * list (option error)) :=
  match n with
  | 0 => Some (cli, [])
  | S n' =>
      match Stop cli with
      | Some (cli', e) =>
          match Stop_times n' cli' with
          | Some (cli'', es) => Some (cli'', e :: es)
          | None => None
          end
      | None => None
      end
  end.

(** *** The lines written to the sink *)

Inductive mark : Type := Pass | Fail.

(** The final line of a stage,
    [fmt.Sprintf("%s: %s  (%.4fs)\n", cyan(app), passStr(desc), elapsed)]:
    the application, the descriptor and the glyph.  The colours and the
    elapsed wall-clock time are left out. *)
Record line : Type := mkLine { l_app : string; l_desc : string; l_mark : mark }.

Definition passStr (msg : string) : string * mark := (msg, Pass).
Definition failStr (msg : string) : string * mark := (msg, Fail).

Definition sprint_line (app : string) (x : string * mark) : line :=
  {| l_app := app; l_desc := x.1; l_mark := x.2 |}.

(** The frames of the spinner, [s := `-\|/-`] and [s[i%len(s)]]. *)
Definition spinner : string := "-\|/-".

Definition frame (i : nat) : ascii :=
  default "-"%char (String.get (i mod String.length spinner) spinner).

Inductive write : Type :=
| WStarted (app : string)               (* "Draft Up Started: 'app'\n" *)
| WSpin (app desc : string) (c : ascii) (* "\r%s %c" *)
| WFinal (msg : option line).           (* "\r%s"; [None]: the empty string *)

(** *** Display and progress *)

(** The goroutine started by [progress]: it waits for a terminal code. *)
Inductive inner_pc : Type :=
| ISelect     (* the select on codes and cli.Done() *)
| IClose      (* returning: deferred close(done) *)
| IExit.

(** The goroutine started by [Display] for a stage: the body of
    [progress], then [delete(ongoing, desc)] and [wg.Done()]. *)
Inductive outer_pc : Type :=
| OSelect (i : nat)   (* progress: the select on done, with default *)
| ODelete             (* progress has returned: delete(ongoing, desc) *)
| OWgDone             (* wg.Done() *)
| OExit.

(** One stage: what [Display] creates when it first sees a descriptor.
    The channel [c] made by [Display] is [t_codes]; the channel [done] made
    by [progress] is [t_done].  Both have capacity one. *)
Record task : Type := mkTask {
  t_desc : string;
  t_codes : list UpSummary_StatusCode;
  t_codes_closed : bool;
  t_inner : inner_pc;
  t_done : list line;
  t_done_closed : bool;
  t_outer : outer_pc
}.

Definition new_task (desc : string) : task :=
  {| t_desc := desc; t_codes := []; t_codes_closed := false; t_inner := ISelect;
     t_done := []; t_done_closed := false; t_outer := OSelect 0 |}.

Definition t_set_codes (b : list UpSummary_StatusCode) (t : task) : task :=
  mkTask (t_desc t) b (t_codes_closed t) (t_inner t) (t_done t) (t_done_closed t)
    (t_outer t).
Definition t_close_codes (t : task) : task :=
  mkTask (t_desc t) (t_codes t) true (t_inner t) (t_done t) (t_done_closed t)
    (t_outer t).
Definition t_set_inner (pc : inner_pc) (t : task) : task :=
  mkTask (t_desc t) (t_codes t) (t_codes_closed t) pc (t_done t) (t_done_closed t)
    (t_outer t).
Definition t_set_done (b : list line) (t : task) : task :=
  mkTask (t_desc t) (t_codes t) (t_codes_closed t) (t_inner t) b (t_done_closed t)
    (t_outer t).
Definition t_close_done (t : task) : task :=
  mkTask (t_desc t) (t_codes t) (t_codes_closed t) (t_inner t) (t_done t) true
    (t_outer t).
Definition t_set_outer (pc : outer_pc) (t : task) : task :=
  mkTask (t_desc t) (t_codes t) (t_codes_closed t) (t_inner t) (t_done t)
    (t_done_closed t) pc.

(** The body of [Display]. *)
Inductive disp_pc : Type :=
| DSelect                                   (* the select of the for loop *)
| DSend (k : nat) (code : UpSummary_StatusCode)  (* c <- summary.StatusCode *)
| DClose (seen : gset string)               (* deferred: range ongoing, close(c) *)
| DStop                                     (* deferred: cli.Stop() *)
| DWait                                     (* deferred: wg.Wait() *)
| DReturned
| DPanic.

(** The two goroutines started by [Init]: the first waits for the root
    context or for [cli.Done()], cancels and releases the second, which
    calls [cli.Stop()]. *)
Inductive watch_pc : Type := WSelect | WStop | WExit | WPanic.

(** What has happened so far.  Stages are named by their index in the list
    of tasks, which stands for their channel [c]. *)
Inductive event : Type :=
| ERecv (m : UpSummary)       (* Display received m from summaries *)
| ESpawn (k : nat) (m : UpSummary)
                              (* ... and created stage k for it *)
| ESend (k : nat) (d : string) (code : UpSummary_StatusCode)
                              (* Display sent code on the channel of stage k *)
| EGet (k : nat) (code : UpSummary_StatusCode)
                              (* stage k received code from its channel *)
| EZero (k : nat)             (* stage k received from its closed channel *)
| EWrite (k : option nat) (w : write).
                              (* a write to the sink, by stage k or by Display *)

Record d_state : Type := mkD {
  d_app : string;
  d_rootctx : Context;            (* the ctx argument *)
  d_cli : cmdline;
  d_watch : watch_pc;
  d_summaries : list UpSummary;   (* what is still sent on summaries *)
  d_closes : bool;                (* whether summaries is closed after that *)
  d_ongoing : gmap string nat;
  d_wg : nat;
  d_tasks : list task;
  d_main : disp_pc;
  d_log : list event
}.

Definition d_set_rootctx (c : Context) (s : d_state) : d_state :=
  mkD (d_app s) c (d_cli s) (d_watch s) (d_summaries s) (d_closes s)
    (d_ongoing s) (d_wg s) (d_tasks s) (d_main s) (d_log s).
Definition d_set_cli (c : cmdline) (s : d_state) : d_state :=
  mkD (d_app s) (d_rootctx s) c (d_watch s) (d_summaries s) (d_closes s)
    (d_ongoing s) (d_wg s) (d_tasks s) (d_main s) (d_log s).
Definition d_set_watch (pc : watch_pc) (s : d_state) : d_state :=
  mkD (d_app s) (d_rootctx s) (d_cli s) pc (d_summaries s) (d_closes s)
    (d_ongoing s) (d_wg s) (d_tasks s) (d_main s) (d_log s).
Definition d_set_summaries (l : list UpSummary) (s : d_state) : d_state :=
  mkD (d_app s) (d_rootctx s) (d_cli s) (d_watch s) l (d_closes s)
    (d_ongoing s) (d_wg s) (d_tasks s) (d_main s) (d_log s).
Definition d_set_ongoing (m : gmap string nat) (s : d_state) : d_state :=
  mkD (d_app s) (d_rootctx s) (d_cli s) (d_watch s) (d_summaries s) (d_closes s)
    m (d_wg s) (d_tasks s) (d_main s) (d_log s).
Definition d_set_wg (n : nat) (s : d_state) : d_state :=
  mkD (d_app s) (d_rootctx s) (d_cli s) (d_watch s) (d_summaries s) (d_closes s)
    (d_ongoing s) n (d_tasks s) (d_main s) (d_log s).
Definition d_set_tasks (ts : list task) (s : d_state) : d_state :=
  mkD (d_app s) (d_rootctx s) (d_cli s) (d_watch s) (d_summaries s) (d_closes s)
    (d_ongoing s) (d_wg s) ts (d_main s) (d_log s).
Definition d_set_main (pc : disp_pc) (s : d_state) : d_state :=
  mkD (d_app s) (d_rootctx s) (d_cli s) (d_watch s) (d_summaries s) (d_closes s)
    (d_ongoing s) (d_wg s) (d_tasks s) pc (d_log s).
Definition d_log_add (es : list event) (s : d_state) : d_state :=
  mkD (d_app s) (d_rootctx s) (d_cli s) (d_watch s) (d_summaries s) (d_closes s)
    (d_ongoing s) (d_wg s) (d_tasks s) (d_main s) (d_log s ++ es).

Definition d_set_task (k : nat) (t : task) (s : d_state) : d_state :=
  d_set_tasks (<[k := t]> (d_tasks s)) s.

(** Who moves.  [LMainSummary] and [LMainDone] are the two cases of the
    select of [Display]; [LMainClose d] is the iteration of its deferred
    loop that reaches the key [d]; [LInnerCodes k] and [LInnerDone k] are the
    two cases of the select of the goroutine of [progress] for stage [k];
    [LCancel] is the caller canceling [ctx]. *)
Inductive d_label : Type :=
| LMain
| LMainSummary
| LMainDone
| LMainClose (d : string)
| LOuter (k : nat)
| LInnerCodes (k : nat)
| LInnerDone (k : nat)
| LInner (k : nat)
| LWatch
| LCancel.

(** The switch of [progress] on a received code: the line to send on
    [done], if the code is terminal. *)
Definition terminal_line (app desc : string) (code : UpSummary_StatusCode)
    : option line :=
  if (code =? UpSummary_SUCCESS)%Z then Some (sprint_line app (passStr desc))
  else if (code =? UpSummary_FAILURE)%Z then Some (sprint_line app (failStr desc))
  else None.

(** What the goroutine of [progress] does with a received code. *)
Definition inner_switch (app : string) (code : UpSummary_StatusCode) (t : task)
    : task :=
  match terminal_line app (t_desc t) code with
  | Some ln => t_set_inner IClose (t_set_done (t_done t ++ [ln]) t)
  | None => t
  end.

(** [progress], goroutine side: the case [code := <-codes] of its select.
    A closed and empty channel yields the zero value, PENDING. *)
Definition progress_codes (k : nat) (s : d_state) : option d_state :=
  match d_tasks s !! k with
  | Some t =>
      match t_inner t with
      | ISelect =>
          match t_codes t with
          | code :: rest =>
              Some (d_log_add [EGet k code]
                      (d_set_task k (inner_switch (d_app s) code (t_set_codes rest t)) s))
          | [] =>
              if t_codes_closed t
              then Some (d_log_add [EZero k]
                           (d_set_task k (inner_switch (d_app s) 0%Z t) s))
              else None
          end
      | _ => None
      end
  | None => None
  end.

(** The case [<-cli.Done()] of the same select. *)
Definition progress_done (k : nat) (s : d_state) : option d_state :=
  match d_tasks s !! k with
  | Some t =>
      match t_inner t, Done (d_cli s) with
      | ISelect, ChanClosed => Some (d_set_task k (t_set_inner IClose t) s)
      | _, _ => None
      end
  | None => None
  end.

(** The deferred [close(done)] of that goroutine. *)
Definition progress_close (k : nat) (s : d_state) : option d_state :=
  match d_tasks s !! k with
  | Some t =>
      match t_inner t with
      | IClose => Some (d_set_task k (t_set_inner IExit (t_close_done t)) s)
      | _ => None
      end
  | None => None
  end.

(** [progress], caller side, followed by the rest of the goroutine that
    [Display] started for the stage. *)
Definition progress (k : nat) (s : d_state) : option d_state :=
  match d_tasks s !! k with
  | Some t =>
      match t_outer t with
      | OSelect i =>
          match t_done t with
          | msg :: rest =>
              Some (d_log_add [EWrite (Some k) (WFinal (Some msg))]
                      (d_set_task k (t_set_outer ODelete (t_set_done rest t)) s))
          | [] =>
              if t_done_closed t
              then Some (d_log_add [EWrite (Some k) (WFinal None)]
                           (d_set_task k (t_set_outer ODelete t) s))
              else Some (d_log_add
                           [EWrite (Some k) (WSpin (d_app s) (t_desc t) (frame i))]
                           (d_set_task k (t_set_outer (OSelect (S i)) t) s))
          end
      | ODelete =>
          Some (d_set_ongoing (delete (t_desc t) (d_ongoing s))
                  (d_set_task k (t_set_outer OWgDone t) s))
      | OWgDone =>
          match d_wg s with
          | S n => Some (d_set_wg n (d_set_task k (t_set_outer OExit t) s))
          | 0 => None
          end
      | OExit => None
      end
  | None => None
  end.

(** The goroutines of [Init]. *)
Definition watch (s : d_state) : option d_state :=
  match d_watch s with
  | WSelect =>
      if canceled (d_rootctx s) || is_closed (Done (d_cli s))
      then Some (d_set_watch WStop
                   (d_set_cli (mkCmdline (cancel (cli_ctx (d_cli s)))
                                 (cli_done (d_cli s)) (cli_once (d_cli s))
                                 (cli_err (d_cli s))) s))
      else None
  | WStop =>
      match Stop (d_cli s) with
      | Some (cli, _) => Some (d_set_watch WExit (d_set_cli cli s))
      | None => Some (d_set_watch WPanic s)
      end
  | WExit | WPanic => None
  end.

Definition Display (l : d_label) (s : d_state) : option d_state :=
  match l with
  | LCancel =>
      if canceled (d_rootctx s) then None
      else Some (d_set_rootctx (cancel (d_rootctx s)) s)
  | LWatch => watch s
  | LOuter k => progress k s
  | LInnerCodes k => progress_codes k s
  | LInnerDone k => progress_done k s
  | LInner k => progress_close k s
  | LMainSummary =>
      match d_main s with
      | DSelect =>
          match d_summaries s with
          | summary :: rest =>
              match d_ongoing s !! StageDesc summary with
              | None =>
                  let k := length (d_tasks s) in
                  Some (d_log_add [ERecv summary; ESpawn k summary]
                          (d_set_tasks (d_tasks s ++ [new_task (StageDesc summary)])
                             (d_set_wg (S (d_wg s))
                                (d_set_ongoing
                                   (<[StageDesc summary := k]> (d_ongoing s))
                                   (d_set_summaries rest s)))))
              | Some k =>
                  Some (d_log_add [ERecv summary]
                          (d_set_main (DSend k (StatusCode summary))
                             (d_set_summaries rest s)))
              end
          | [] =>
              if d_closes s then Some (d_set_main (DClose ∅) s) else None
          end
      | _ => None
      end
  | LMainDone =>
      match d_main s, Done (d_cli s) with
      | DSelect, ChanClosed => Some (d_set_main (DClose ∅) s)
      | _, _ => None
      end
  | LMainClose d =>
      match d_main s with
      | DClose seen =>
          if bool_decide (d ∈ seen) then None
          else match d_ongoing s !! d with
               | Some k =>
                   match d_tasks s !! k with
                   | Some t =>
                       if t_codes_closed t then Some (d_set_main DPanic s)
                       else Some (d_set_main (DClose ({[d]} ∪ seen))
                                    (d_set_task k (t_close_codes t) s))
                   | None => None
                   end
               | None => None
               end
      | _ => None
      end
  | LMain =>
      match d_main s with
      | DSend k code =>
          match d_tasks s !! k with
          | Some t =>
              if t_codes_closed t then Some (d_set_main DPanic s)
              else if bool_decide (length (t_codes t) < 1)
                   then Some (d_log_add [ESend k (t_desc t) code]
                                (d_set_main DSelect
                                   (d_set_task k (t_set_codes (t_codes t ++ [code]) t) s)))
                   else None
          | None => None
          end
      | DClose seen =>
          if bool_decide (dom (d_ongoing s) ⊆ seen)
          then Some (d_set_main DStop s)
          else None
      | DStop =>
          match Stop (d_cli s) with
          | Some (cli, _) => Some (d_set_main DWait (d_set_cli cli s))
          | None => Some (d_set_main DPanic s)
          end
      | DWait =>
          match d_wg s with
          | 0 => Some (d_set_main DReturned s)
          | S _ => None
          end
      | DSelect | DReturned | DPanic => None
      end
  end.

(** The state of [Display(ctx, app, summaries)] when it enters its loop:
    [cli.Init] has run on a fresh [cmdline], the header has been printed and
    [ongoing] is empty.  [msgs] is what the producer sends on [summaries],
    which it closes afterwards when [closes] holds. *)
Definition Display_init (ctx : Context) (app : string) (msgs : list UpSummary)
    (closes : bool) : d_state :=
  {| d_app := app; d_rootctx := ctx; d_cli := Init zero; d_watch := WSelect;
     d_summaries := msgs; d_closes := closes;
     d_ongoing := ∅; d_wg := 0; d_tasks := []; d_main := DSelect;
     d_log := [EWrite None (WStarted app)] |}.

Fixpoint d_run (ls : list d_label) (s : d_state) : option d_state :=
  match ls with
  | [] => Some s
  | l :: ls' =>
      match Display l s with
      | Some s' => d_run ls' s'
      | None => None
      end
  end.

(** No goroutine can move, and the context is already canceled. *)
Definition d_stuck (s : d_state) : Prop := ∀ l, Display l s = None.

(** What the sink has received. *)
Definition sink (log : list event) : list write :=
  omap (λ e, match e with EWrite _ w => Some w | _ => None end) log.

End Cmdline.

(** * Notions used in the properties *)

(** ** Package rpc: invariants, measures and scenarios *)

Section RpcNotions.
Import Rpc.

(** What [up_build] does with a stream, read sequentially: the messages it
    puts on its output channel and the error it returns ([None] when the
    script ends before the stream does: the receive blocks for ever). *)
Fixpoint up_build_trace (script : list recv_result)
    : option (list UpMessage * option error) :=
  match script with
  | [] => None
  | RecvMsg m :: rest =>
      match up_build_trace rest with
      | Some (ms, r) => Some (m :: ms, r)
      | None => None
      end
  | RecvEOF :: _ => Some ([], None)
  | RecvErr e :: _ => Some ([], Some (errorf "rpc error handling up_build recv: " e))
  end.

Definition ub_measure (s : ub_state) : nat :=
  (if canceled (ub_apictx s) then 0 else 1)
  + match ub_go s with
    | GoIdle | GoExit => 0
    | GoCloseErrc => 1
    | GoSendErr _ => 2
    | GoAfter _ => 3
    | GoCloseMsgc _ => 4
    | GoRecv => 5
    | GoOpen => 6
    | GoPut _ => 8
    end
  + 4 * length (s_recv (ub_stream s))
  + 2 * length (ub_msgc s)
  + match ub_main s with
    | MReturned _ => 0
    | MCloseConn _ => 1
    | MCloseOutc _ => 2
    | MSelect => 3
    | MEmit _ => 4
    | MConnect => 10
    end
  + (if ub_msgc_nil s then 0 else 1)
  + (if ub_errc_nil s then 0 else 1).

Definition go_reading (pc : go_pc) : bool :=
  match pc with
  | GoIdle | GoOpen | GoRecv | GoPut _ => true
  | _ => false
  end.

Definition go_pending (pc : go_pc) : list UpMessage :=
  match pc with GoPut m => [m] | _ => [] end.

Definition go_msgc_closed (pc : go_pc) : bool :=
  match pc with
  | GoAfter _ | GoSendErr _ | GoCloseErrc | GoExit => true
  | _ => false
  end.

Definition go_exited (pc : go_pc) : bool :=
  match pc with GoExit => true | _ => false end.

Definition go_reported (pc : go_pc) : bool :=
  match pc with GoCloseErrc | GoExit => true | _ => false end.

Definition main_pending (pc : main_pc) : list (option UpSummary) :=
  match pc with MEmit x => [x] | _ => [] end.

Definition main_left (pc : main_pc) : option (option error) :=
  match pc with
  | MCloseOutc r | MCloseConn r | MReturned r => Some r
  | _ => None
  end.

Definition main_closes (pc : main_pc) : nat :=
  match pc with MCloseConn _ | MReturned _ => 1 | _ => 0 end.

(** The messages [up_build] has still to read from the stream. *)
Definition ub_rest (s : ub_state) : list UpMessage :=
  if go_reading (ub_go s)
  then match up_build_trace (s_recv (ub_stream s)) with
       | Some (rest, _) => rest
       | None => []
       end
  else [].

(** The caller receives at least [k] values from [outc]. *)
Definition caller_takes (takes : option nat) (k : nat) : Prop :=
  match takes with
  | None => True
  | Some n => k ≤ n
  end.

(** What is left of the caller's end of [outc] once [sent] values have
    been sent. *)
Definition credit_left (takes : option nat) (sent : nat) (c : option nat) : Prop :=
  match takes, c with
  | None, None => True
  | Some n, Some k => k + sent = n
  | _, _ => False
  end.

(** The invariant of an execution of [UpBuild] whose dial and whose call
    [rpc.UpBuild] succeed, on a stream with which [up_build] read alone puts
    the messages [ms] and returns [r]. *)
Record ub_inv (ms : list UpMessage) (r : option error) (s : ub_state) : Prop := {
  ubi_ctx : s_ctx (ub_stream s) = Background;
  ubi_dial : ub_dial s = None;
  ubi_open : ub_open s = None;
  ubi_flow :
    ub_out s ++ main_pending (ub_main s)
      ++ (GetUpSummary <$> (ub_msgc s ++ go_pending (ub_go s) ++ ub_rest s))
    = GetUpSummary <$> ms;
  ubi_trace :
    go_reading (ub_go s) = true →
    snd <$> up_build_trace (s_recv (ub_stream s)) = Some r;
  ubi_msgc : ub_msgc_closed s = go_msgc_closed (ub_go s);
  ubi_errc : ub_errc_closed s = go_exited (ub_go s);
  ubi_cap : length (ub_msgc s) ≤ 2;
  ubi_ret :
    match ub_go s with
    | GoCloseMsgc x | GoAfter x => x = r
    | GoSendErr e => r = Some e ∧ main_left (ub_main s) = None
    | GoCloseErrc | GoExit => r = None ∨ main_left (ub_main s) = Some r
    | _ => True
    end;
  ubi_nil_errc : ub_errc_nil s = true → ub_errc_closed s = true ∧ r = None;
  ubi_nil_msgc : ub_msgc_nil s = true → ub_msgc_closed s = true ∧ ub_msgc s = [];
  ubi_idle : ub_go s = GoIdle → ub_main s = MConnect;
  ubi_started : ub_main s = MConnect → ub_go s = GoIdle;
  ubi_left :
    ∀ x, main_left (ub_main s) = Some x →
      x = r ∧ go_reported (ub_go s) = true
      ∧ (x = None → ub_out s = GetUpSummary <$> ms);
  ubi_closes : ub_outc_closes s = main_closes (ub_main s)
}.

Definition sum_build : UpSummary := mkUpSummary "build" UpSummary_PENDING.


(** A server that answers at once with the end of the stream. *)
Definition ub_eof_init : ub_state :=
  UpBuild_init Background "localhost:44135" None None [RecvEOF] [] None.

Definition ub_eof_schedule : list ub_label :=
  [UbMain; UbGo; UbGo; UbGo; UbGo; UbGo; UbMainMsgc; UbMainErrc; UbMain; UbMain; UbMain].




Definition ub_eof_final : ub_state :=
  mkUb Background "localhost:44135" None None
    (mkStream Background [] []) [] true true true true
    GoExit (MReturned None) [] 1 1 None.



(** The invariant of an execution of [UpStream] on a stream that never
    yields the end of the stream: [done] stays open, so the deferred
    function of [up_stream] never gets past its receive on [done]. *)
Record us_noeof_inv (s : us_state) : Prop := {
  usn_ctx : s_ctx (us_stream s) = Background;
  usn_dial : us_dial s = None;
  usn_open : us_open s = None;
  usn_script : RecvEOF ∉ s_recv (us_stream s);
  usn_done : us_done_closed s = false;
  usn_msgc : us_msgc_closed s = false;
  usn_errc : us_errc_closed s = false;
  usn_main :
    match us_main s with
    | SCloseRecv _ | SCloseErrc _ | SCloseConn _ | SReturned _ | SPanic => False
    | _ => True
    end;
  usn_fwd :
    match us_fwd s with FCloseOutc | FExit => False | _ => True end;
  usn_outc : us_outc_closes s = 0
}.

(** The send loop of [up_stream] has been left. *)
Definition send_loop_exited (pc : str_pc) : bool :=
  match pc with
  | SConnect | SOpen | SSelect | SSend _ => false
  | _ => true
  end.

(** The receive loop of [up_stream] has been left. *)
Definition recv_loop_exited (pc : rcv_pc) : bool :=
  match pc with
  | RExit | RPanic => true
  | _ => false
  end.

(** A server whose first answer is an error, and a caller that keeps
    [reqc] open without sending. *)
Definition us_err_init : us_state :=
  UpStream_init Background "localhost:44135" None None
    [RecvErr "transport is closing"] [] [] false None.

Definition us_err_schedule : list us_label :=
  [UsMain; UsMain; UsRecv; UsMainErrc; UsMain; UsCancel].

Definition us_err_blocked : us_state :=
  mkUs (cancel Background) "localhost:44135" None None
    (mkStream Background [] []) [] false [] false false false
    FRange RExit
    (SWaitDone (Some "failed to receive a summary: transport is closing"))
    [] 0 0 None.

(** A server that stays silent, and a caller that keeps [reqc] open
    without sending, then cancels. *)
Definition us_silent_init : us_state :=
  UpStream_init Background "localhost:44135" None None [] [] [] false None.

Definition us_silent_schedule : list us_label := [UsMain; UsMain; UsCancel].

Definition us_silent_blocked : us_state :=
  mkUs (cancel Background) "localhost:44135" None None
    (mkStream Background [] []) [] false [] false false false
    FRange RRecv SSelect [] 0 0 None.

(** A server that sends one summary and ends the stream, for a caller
    that sends one request and closes [reqc]. *)
Definition us_ok_init (ctx : Context) : us_state :=
  UpStream_init ctx "localhost:44135" None None
    [RecvMsg (UpMessage_UpSummary (mkUpSummary "build" UpSummary_SUCCESS)); RecvEOF]
    [] [mkUpRequest "app"] true None.

Definition us_ok_schedule : list us_label :=
  [UsMain; UsMain; UsMainSend; UsMain; UsRecv; UsFwd; UsFwd; UsRecv;
   UsMainSend; UsMain; UsMain; UsMain; UsMain; UsMain; UsFwd; UsFwd].

(** A server that delivers a request echo and a summary, then ends the
    stream. *)
Definition ub_two_msgs : list UpMessage :=
  [UpMessage_UpRequest (mkUpRequest "app"); UpMessage_UpSummary sum_build].

Definition ub_two_init : ub_state :=
  UpBuild_init Background "localhost:44135" None None
    ((RecvMsg <$> ub_two_msgs) ++ [RecvEOF]) [] None.

Definition ub_two_schedule : list ub_label :=
  [UbMain; UbGo; UbGo; UbGo; UbMainMsgc; UbMain; UbGo; UbGo; UbGo; UbGo;
   UbMainMsgc; UbMain; UbGo; UbGo; UbMainMsgc; UbMainErrc; UbMain; UbMain; UbMain].

Definition ub_two_final : ub_state :=
  Eval vm_compute in default ub_two_init (ub_run ub_two_schedule ub_two_init).

(** The same server, for a caller that receives one value and then stops:
    the goroutine runs to its end, [UpBuild] sends the first value and stays
    at the send of the second. *)
Definition ub_stall_init : ub_state :=
  UpBuild_init Background "localhost:44135" None None
    ((RecvMsg <$> ub_two_msgs) ++ [RecvEOF]) [] (Some 1).

Definition ub_stall_schedule : list ub_label :=
  [UbMain; UbGo; UbGo; UbGo; UbGo; UbGo; UbGo; UbGo; UbGo; UbGo;
   UbMainMsgc; UbMain; UbMainMsgc].

Definition ub_stall_final : ub_state :=
  Eval vm_compute in default ub_stall_init (ub_run ub_stall_schedule ub_stall_init).





Definition ub_noopen_init : ub_state :=
  UpBuild_init Background "localhost:44135" None (Some "unavailable") [RecvEOF] [] None.

Definition ub_noopen_schedule : list ub_label :=
  [UbMain; UbGo; UbGo; UbMainErrc; UbMain; UbMain].

Definition ub_noopen_final : ub_state :=
  Eval vm_compute in
    default ub_noopen_init (ub_run ub_noopen_schedule ub_noopen_init).

(** Nothing but a cancellation of [apictx] can happen. *)
Definition us_quiescent (s : us_state) : Prop :=
  ∀ l, l ≠ UsCancel → UpStream l s = None.


Definition us_noopen_init : us_state :=
  UpStream_init Background "localhost:44135" None (Some "unavailable")
    [RecvEOF] [] [mkUpRequest "app"] true None.

Definition us_noopen_schedule : list us_label := [UsMain; UsMain; UsMain].

Definition us_noopen_final : us_state :=
  Eval vm_compute in
    default us_noopen_init (us_run us_noopen_schedule us_noopen_init).

(** The messages a script yields before its first result that is not a
    message, and whether that result is the end of the stream. *)
Fixpoint script_msgs (script : list recv_result) : list UpMessage :=
  match script with
  | RecvMsg m :: rest => m :: script_msgs rest
  | _ => []
  end.

Fixpoint script_eof (script : list recv_result) : bool :=
  match script with
  | RecvMsg _ :: rest => script_eof rest
  | RecvEOF :: _ => true
  | _ => false
  end.

Definition rcv_reading (pc : rcv_pc) : bool :=
  match pc with RIdle | RRecv | RPut _ => true | _ => false end.

Definition rcv_pending (pc : rcv_pc) : list UpMessage :=
  match pc with RPut m => [m] | _ => [] end.

Definition fwd_pending (pc : fwd_pc) : list UpSummary :=
  match pc with FEmit x => [x] | _ => [] end.

Definition main_req (pc : str_pc) : list UpRequest :=
  match pc with SSend r => [r] | _ => [] end.

Definition str_left (pc : str_pc) : option (option error) :=
  match pc with
  | SCloseSend r | SWaitDone r | SCloseRecv r | SCloseErrc r
  | SCloseConn r | SReturned r => Some r
  | _ => None
  end.

(** The messages the receive loop has still to read. *)
Definition us_rest (s : us_state) : list UpMessage :=
  if rcv_reading (us_rcv s) then script_msgs (s_recv (us_stream s)) else [].

Definition us_measure (s : us_state) : nat :=
  (if canceled (us_apictx s) then 0 else 1)
  + 4 * length (s_recv (us_stream s))
  + 2 * length (us_reqc s)
  + match us_rcv s with
    | RIdle | RRecv | RSendErr _ => 1
    | RPut _ => 3
    | RExit | RPanic => 0
    end
  + match us_fwd s with
    | FIdle | FRange => 2
    | FEmit _ => 3
    | FCloseOutc => 1
    | FExit => 0
    end
  + match us_main s with
    | SReturned _ | SPanic => 0
    | SCloseConn _ => 1
    | SCloseErrc _ => 2
    | SCloseRecv _ => 3
    | SWaitDone _ => 4
    | SCloseSend _ => 5
    | SSelect => 6
    | SSend _ => 7
    | SOpen => 8
    | SConnect => 11
    end.

(** The invariant of every execution of [UpStream]: the flow of the
    messages from the stream to [outc], the flow of the requests from [reqc]
    to the stream, and the order in which the channels get closed. *)
Record us_inv (recvs : list recv_result) (reqs : list UpRequest)
    (s : us_state) : Prop := {
  usi_ctx : s_ctx (us_stream s) = Background;
  usi_flow :
    us_out s ++ fwd_pending (us_fwd s)
      ++ omap GetUpSummary (rcv_pending (us_rcv s) ++ us_rest s)
    = omap GetUpSummary (script_msgs recvs);
  usi_eof :
    rcv_reading (us_rcv s) = true →
    script_eof (s_recv (us_stream s)) = script_eof recvs;
  usi_done :
    us_done_closed s = true → us_rcv s = RExit ∧ script_eof recvs = true;
  usi_msgc : us_msgc_closed s = true → us_done_closed s = true;
  usi_errc : us_errc_closed s = true → us_msgc_closed s = true;
  usi_main :
    match us_main s with
    | SConnect => us_fwd s = FIdle ∧ us_rcv s = RIdle ∧ us_msgc_closed s = false
    | SOpen => us_rcv s = RIdle ∧ us_msgc_closed s = false
    | SSelect | SSend _ | SCloseSend _ | SWaitDone _ => us_msgc_closed s = false
    | SCloseRecv _ => us_done_closed s = true ∧ us_msgc_closed s = false
    | SCloseErrc _ => us_msgc_closed s = true ∧ us_errc_closed s = false
    | SCloseConn _ | SReturned _ => True
    | SPanic => False
    end;
  usi_rcv : us_rcv s ≠ RPanic;
  usi_fwd :
    match us_fwd s with
    | FCloseOutc => us_msgc_closed s = true ∧ us_outc_closes s = 0
    | FExit => us_msgc_closed s = true ∧ us_outc_closes s = 1
    | _ => us_outc_closes s = 0
    end;
  usi_conn :
    match us_main s with
    | SReturned _ => us_conn_closes s ≤ 1
    | _ => us_conn_closes s = 0
    end;
  usi_sent :
    match us_main s with
    | SConnect | SOpen | SSelect | SSend _ =>
        us_sent s ++ (UpMessage_UpRequest <$> (main_req (us_main s) ++ us_reqc s))
        = UpMessage_UpRequest <$> reqs
    | _ => us_sent s `prefix_of` (UpMessage_UpRequest <$> reqs)
    end;
  usi_nil :
    str_left (us_main s) = Some None →
    us_sent s = UpMessage_UpRequest <$> reqs
}.

(** What is more when the dial and the call [rpc.UpStream] succeed, the
    stream ends with [io.EOF] and the caller closes [reqc]. *)
Record us_eof_inv (sends : list (option error)) (s : us_state) : Prop := {
  use_dial : us_dial s = None;
  use_open : us_open s = None;
  use_closes : us_reqc_closes s = true;
  use_rcv :
    match us_rcv s with
    | RSendErr _ => False
    | RExit => us_done_closed s = true
    | RIdle => us_main s = SConnect ∨ us_main s = SOpen
    | _ => True
    end;
  use_fwd : us_fwd s = FIdle → us_main s = SConnect;
  use_left :
    ∀ r, str_left (us_main s) = Some r →
      r = None ∨ ∃ e, r = Some (errorf "failed to send an up message: " e);
  use_clean :
    Forall (eq None) sends →
    Forall (eq None) (s_send (us_stream s))
    ∧ ∀ r, str_left (us_main s) = Some r → r = None;
  use_late :
    match us_main s with
    | SCloseConn _ => us_errc_closed s = true
    | SReturned _ => us_errc_closed s = true ∧ us_conn_closes s = 1
    | _ => True
    end
}.

Definition us_end_msgs : list UpMessage :=
  [UpMessage_UpSummary (mkUpSummary "build" UpSummary_SUCCESS);
   UpMessage_UpRequest (mkUpRequest "echo");
   UpMessage_UpSummary (mkUpSummary "deploy" UpSummary_FAILURE)].

Definition us_end_init : us_state :=
  UpStream_init Background "localhost:44135" None None
    ((RecvMsg <$> us_end_msgs) ++ RecvEOF :: [RecvErr "late"]) []
    [mkUpRequest "app"] true None.

(** [UpStream] runs up to its return, then the forwarding goroutine
    finishes. *)
Definition us_end_early : list us_label :=
  [UsMain; UsMain; UsMainSend; UsMain; UsMainSend; UsMain; UsRecv;
   UsFwd; UsRecv; UsFwd; UsFwd; UsRecv; UsFwd; UsRecv; UsMain; UsMain;
   UsMain; UsMain].

Definition us_end_schedule : list us_label :=
  us_end_early ++ [UsFwd; UsFwd; UsFwd].

Definition us_end_returned : us_state :=
  Eval vm_compute in default us_end_init (us_run us_end_early us_end_init).

Definition us_end_final : us_state :=
  Eval vm_compute in default us_end_init (us_run us_end_schedule us_end_init).

(** The same server and requests, for a caller that receives one summary
    and then stops. *)
Definition us_stall_init : us_state :=
  UpStream_init Background "localhost:44135" None None
    ((RecvMsg <$> us_end_msgs) ++ RecvEOF :: [RecvErr "late"]) []
    [mkUpRequest "app"] true (Some 1).

Definition us_stall_final : us_state :=
  Eval vm_compute in default us_stall_init (us_run us_end_early us_stall_init).

End RpcNotions.

(** ** Package cmdline: invariants, views and scenarios *)

Section CmdlineNotions.
Import Cmdline.

(** A stage whose goroutine has not yet removed it from [ongoing]. *)
Definition live (t : task) : bool :=
  match t_outer t with OSelect _ | ODelete => true | _ => false end.

(** [ongoing] is the registry of the live stages. *)
Definition reg_ok (ts : list task) (og : gmap string nat) : Prop :=
  (∀ d k, og !! d = Some k → ∃ t, ts !! k = Some t ∧ t_desc t = d ∧ live t = true)
  ∧ (∀ k t, ts !! k = Some t → live t = true → og !! t_desc t = Some k).

Record d_reg_inv (s : d_state) : Prop := {
  reg_tasks : reg_ok (d_tasks s) (d_ongoing s);
  reg_send : ∀ k c, d_main s = DSend k c → is_Some (d_tasks s !! k)
}.

(** The labels of the goroutine that runs the body of [Display]. *)
Definition by_main_loop (l : d_label) : bool :=
  match l with
  | LMain | LMainSummary | LMainDone | LMainClose _ => true
  | _ => false
  end.

(** One stage that is created, then told SUCCESS. *)
Definition d_one_init : d_state :=
  Display_init Background "app"
    [mkUpSummary "build" UpSummary_PENDING; mkUpSummary "build" UpSummary_SUCCESS]
    true.

Definition d_one_schedule : list d_label :=
  [LMainSummary; LMainSummary; LMain; LInnerCodes 0; LInner 0; LOuter 0].

(** The goroutine of the stage is about to run [delete(ongoing, desc)]. *)
Definition d_one_deleting : d_state :=
  mkD "app" Background (Init zero) WSelect [] true {["build" := 0]} 1
    [mkTask "build" [] false IExit [] true ODelete] DSelect
    [EWrite None (WStarted "app");
     ERecv (mkUpSummary "build" UpSummary_PENDING);
     ESpawn 0 (mkUpSummary "build" UpSummary_PENDING);
     ERecv (mkUpSummary "build" UpSummary_SUCCESS);
     ESend 0 "build" UpSummary_SUCCESS;
     EGet 0 UpSummary_SUCCESS;
     EWrite (Some 0) (WFinal (Some (mkLine "app" "build" Pass)))].

Definition d_one_deleted : d_state :=
  d_set_ongoing ∅
    (d_set_tasks [mkTask "build" [] false IExit [] true OWgDone] d_one_deleting).

(** A stage is created, the context is canceled, and two more summaries
    for the stage are taken by the select of [Display] before the stage's
    goroutine has removed its key. *)
Definition d_cancel_init : d_state :=
  Display_init Background "app"
    [mkUpSummary "deploy" UpSummary_PENDING; mkUpSummary "deploy" UpSummary_PENDING;
     mkUpSummary "deploy" UpSummary_PENDING] true.

Definition d_cancel_schedule : list d_label :=
  [LMainSummary; LCancel; LWatch; LWatch; LInnerDone 0; LInner 0;
   LMainSummary; LMain; LMainSummary; LOuter 0; LOuter 0; LOuter 0].

Definition d_cancel_blocked : d_state :=
  mkD "app" (cancel Background)
    (mkCmdline (cancel Background) ChanClosed true None) WExit [] true ∅ 0
    [mkTask "deploy" [UpSummary_PENDING] false IExit [] true OExit]
    (DSend 0 UpSummary_PENDING)
    [EWrite None (WStarted "app");
     ERecv (mkUpSummary "deploy" UpSummary_PENDING);
     ESpawn 0 (mkUpSummary "deploy" UpSummary_PENDING);
     ERecv (mkUpSummary "deploy" UpSummary_PENDING);
     ESend 0 "deploy" UpSummary_PENDING;
     ERecv (mkUpSummary "deploy" UpSummary_PENDING);
     EWrite (Some 0) (WFinal None)].

(** The moves of the main loop of [Display] that touch neither a channel
    nor the input, with what allows them. *)
Definition control_move (s : d_state) (pc' : disp_pc) : Prop :=
  match d_main s, pc' with
  | DSelect, DClose seen => seen = ∅
  | DClose seen, DStop => dom (d_ongoing s) ⊆ seen
  | DStop, DWait => True
  | DWait, DReturned => d_wg s = 0
  | DSend _ _, DPanic | DClose _, DPanic | DStop, DPanic => True
  | _, _ => False
  end.

(** What a step of the goroutines of one stage does to the stage and what
    it adds to the log. *)
Inductive task_step (app : string) (k : nat) (t : task)
    : task → list event → Prop :=
| ts_get c rest :
    t_inner t = ISelect → t_codes t = c :: rest →
    task_step app k t (inner_switch app c (t_set_codes rest t)) [EGet k c]
| ts_zero :
    t_inner t = ISelect → t_codes t = [] → t_codes_closed t = true →
    task_step app k t (inner_switch app 0%Z t) [EZero k]
| ts_inner_done :
    t_inner t = ISelect →
    task_step app k t (t_set_inner IClose t) []
| ts_inner_close :
    t_inner t = IClose →
    task_step app k t (t_set_inner IExit (t_close_done t)) []
| ts_spin i :
    t_outer t = OSelect i → t_done t = [] → t_done_closed t = false →
    task_step app k t (t_set_outer (OSelect (S i)) t)
      [EWrite (Some k) (WSpin app (t_desc t) (frame i))]
| ts_final i msg rest :
    t_outer t = OSelect i → t_done t = msg :: rest →
    task_step app k t (t_set_outer ODelete (t_set_done rest t))
      [EWrite (Some k) (WFinal (Some msg))]
| ts_blank i :
    t_outer t = OSelect i → t_done t = [] → t_done_closed t = true →
    task_step app k t (t_set_outer ODelete t) [EWrite (Some k) (WFinal None)].

(** What a step of [Display] does to the stages, the log, the registry,
    the input, the program counter of the main loop and the wait group. *)
Inductive d_shape (s s' : d_state) : Prop :=
| sh_control :
    d_tasks s' = d_tasks s → d_log s' = d_log s →
    d_ongoing s' = d_ongoing s → d_summaries s' = d_summaries s →
    d_wg s' = d_wg s →
    (d_main s' = d_main s ∨ control_move s (d_main s')) →
    d_shape s s'
| sh_spawn m rest :
    d_main s = DSelect → d_main s' = DSelect →
    d_summaries s = m :: rest → d_summaries s' = rest →
    d_ongoing s !! StageDesc m = None →
    d_ongoing s' = <[StageDesc m := length (d_tasks s)]> (d_ongoing s) →
    d_tasks s' = d_tasks s ++ [new_task (StageDesc m)] →
    d_log s' = d_log s ++ [ERecv m; ESpawn (length (d_tasks s)) m] →
    d_wg s' = S (d_wg s) →
    d_shape s s'
| sh_recv m rest k :
    d_main s = DSelect → d_main s' = DSend k (StatusCode m) →
    d_summaries s = m :: rest → d_summaries s' = rest →
    d_ongoing s !! StageDesc m = Some k →
    d_ongoing s' = d_ongoing s → d_tasks s' = d_tasks s →
    d_log s' = d_log s ++ [ERecv m] → d_wg s' = d_wg s →
    d_shape s s'
| sh_send k c t :
    d_main s = DSend k c → d_main s' = DSelect →
    d_tasks s !! k = Some t → t_codes_closed t = false → t_codes t = [] →
    d_tasks s' = <[k := t_set_codes [c] t]> (d_tasks s) →
    d_log s' = d_log s ++ [ESend k (t_desc t) c] →
    d_ongoing s' = d_ongoing s → d_summaries s' = d_summaries s →
    d_wg s' = d_wg s →
    d_shape s s'
| sh_close seen d k t :
    d_main s = DClose seen → d_main s' = DClose ({[d]} ∪ seen) →
    d ∉ seen → d_ongoing s !! d = Some k →
    d_tasks s !! k = Some t → t_codes_closed t = false →
    d_tasks s' = <[k := t_close_codes t]> (d_tasks s) →
    d_log s' = d_log s →
    d_ongoing s' = d_ongoing s → d_summaries s' = d_summaries s →
    d_wg s' = d_wg s →
    d_shape s s'
| sh_task k t t' es :
    d_tasks s !! k = Some t → task_step (d_app s) k t t' es →
    d_tasks s' = <[k := t']> (d_tasks s) →
    d_log s' = d_log s ++ es →
    d_main s' = d_main s →
    d_ongoing s' = d_ongoing s → d_summaries s' = d_summaries s →
    d_wg s' = d_wg s →
    d_shape s s'
| sh_delete k t :
    d_tasks s !! k = Some t → t_outer t = ODelete →
    d_tasks s' = <[k := t_set_outer OWgDone t]> (d_tasks s) →
    d_ongoing s' = delete (t_desc t) (d_ongoing s) →
    d_log s' = d_log s → d_main s' = d_main s →
    d_summaries s' = d_summaries s → d_wg s' = d_wg s →
    d_shape s s'
| sh_wgdone k t :
    d_tasks s !! k = Some t → t_outer t = OWgDone →
    d_tasks s' = <[k := t_set_outer OExit t]> (d_tasks s) →
    d_wg s = S (d_wg s') →
    d_log s' = d_log s → d_main s' = d_main s →
    d_ongoing s' = d_ongoing s → d_summaries s' = d_summaries s →
    d_shape s s'.

(** The summaries [Display] has received from the network. *)
Definition net (log : list event) : list UpSummary :=
  omap (λ e, match e with ERecv m => Some m | _ => None end) log.

(** The codes [Display] has sent on the channel of stage [k]. *)
Definition sent (k : nat) (log : list event) : list UpSummary_StatusCode :=
  omap (λ e, match e with
             | ESend k' _ c => if decide (k' = k) then Some c else None
             | _ => None
             end) log.

(** The codes stage [k] has received from its channel while it was open
    or not yet drained. *)
Definition got (k : nat) (log : list event) : list UpSummary_StatusCode :=
  omap (λ e, match e with
             | EGet k' c => if decide (k' = k) then Some c else None
             | _ => None
             end) log.

(** Everything stage [k] has received, the zero values read from its
    closed channel included. *)
Definition delivered (k : nat) (log : list event) : list UpSummary_StatusCode :=
  omap (λ e, match e with
             | EGet k' c => if decide (k' = k) then Some c else None
             | EZero k' => if decide (k' = k) then Some 0%Z else None
             | _ => None
             end) log.

(** What stage [k] has written to the sink. *)
Definition writes_of (k : nat) (log : list event) : list write :=
  omap (λ e, match e with
             | EWrite (Some k') w => if decide (k' = k) then Some w else None
             | _ => None
             end) log.

(** The first [n] frames of the spinner of a stage. *)
Definition spin_frames (app desc : string) (n : nat) : list write :=
  (λ i, WSpin app desc (frame i)) <$> seq 0 n.

(** The log accounts for the input and for every channel: what has been
    received from a channel and what it still holds is what has been sent on
    it; a stage that does not exist has no event. *)
Record d_flow_inv (app : string) (msgs : list UpSummary) (s : d_state) : Prop := {
  fl_app : d_app s = app;
  fl_input : net (d_log s) ++ d_summaries s = msgs;
  fl_fifo :
    ∀ k, match d_tasks s !! k with
         | Some t => got k (d_log s) ++ t_codes t = sent k (d_log s)
         | None => got k (d_log s) = [] ∧ sent k (d_log s) = []
                   ∧ writes_of k (d_log s) = []
         end
}.

(** Where the lines come from: a line waiting on [done] or written to the
    sink was made from a terminal code the stage received; [Display] itself
    writes the header only; and a stage writes its frames in order, then at
    most one final text. *)
Record d_line_inv (app : string) (s : d_state) : Prop := {
  ln_done :
    ∀ k t ln, d_tasks s !! k = Some t → ln ∈ t_done t →
      ∃ c, terminal_line app (t_desc t) c = Some ln ∧ c ∈ got k (d_log s);
  ln_final :
    ∀ k ln, EWrite (Some k) (WFinal (Some ln)) ∈ d_log s →
      ∃ t c, d_tasks s !! k = Some t
             ∧ terminal_line app (t_desc t) c = Some ln ∧ c ∈ got k (d_log s);
  ln_header : ∀ w, EWrite None w ∈ d_log s → w = WStarted app;
  ln_writes :
    ∀ k t, d_tasks s !! k = Some t →
      match t_outer t with
      | OSelect i => writes_of k (d_log s) = spin_frames app (t_desc t) i
      | _ => ∃ i x, writes_of k (d_log s)
                    = spin_frames app (t_desc t) i ++ [WFinal x]
      end
}.

(** In the input [ms], a summary of stage [d] with code [c] comes after an
    earlier summary of the same stage. *)
Definition after_first (d : string) (c : UpSummary_StatusCode)
    (ms : list UpSummary) : Prop :=
  ∃ pre c0 mid post,
    ms = pre ++ mkUpSummary d c0 :: mid ++ mkUpSummary d c :: post.

(** Where the codes come from: a code sent to a stage was received from
    the network for the descriptor of that stage, after the summary that
    created a stage for it. *)
Record d_cause_inv (s : d_state) : Prop := {
  cs_sent :
    ∀ k d c, ESend k d c ∈ d_log s →
      (∃ t, d_tasks s !! k = Some t ∧ t_desc t = d)
      ∧ after_first d c (net (d_log s));
  cs_main :
    ∀ k c, d_main s = DSend k c →
      ∃ t pre c0, d_tasks s !! k = Some t
                  ∧ net (d_log s) = pre ++ [mkUpSummary (t_desc t) c]
                  ∧ mkUpSummary (t_desc t) c0 ∈ pre;
  cs_born :
    ∀ k t, d_tasks s !! k = Some t →
      ∃ c0, mkUpSummary (t_desc t) c0 ∈ net (d_log s)
}.

(** The codes of the summaries of stage [d] among [ms]. *)
Definition codes_for (d : string) (ms : list UpSummary)
    : list UpSummary_StatusCode :=
  omap (λ m, if decide (StageDesc m = d) then Some (StatusCode m) else None) ms.

(** What [Display] has done with the codes received for stage [d]: each
    one either created a stage or was sent to the stage registered for
    [d]. *)
Definition dispatched (d : string) (log : list event)
    : list UpSummary_StatusCode :=
  omap (λ e, match e with
             | ESpawn _ m =>
                 if decide (StageDesc m = d) then Some (StatusCode m) else None
             | ESend _ d' c => if decide (d' = d) then Some c else None
             | _ => None
             end) log.

(** The code [Display] holds at its send, when it is for stage [d]. *)
Definition in_hand (d : string) (s : d_state) : list UpSummary_StatusCode :=
  match d_main s with
  | DSend k c =>
      match d_tasks s !! k with
      | Some t => if decide (t_desc t = d) then [c] else []
      | None => []
      end
  | _ => []
  end.

(** Unless [Display] has panicked, every code received for a stage has
    been dispatched in the order of arrival, but for the one in hand. *)
Definition d_dispatch_inv (s : d_state) : Prop :=
  d_main s ≠ DPanic →
  ∀ d, dispatched d (d_log s) ++ in_hand d s = codes_for d (net (d_log s)).

(** A channel of codes is closed only by the deferred loop of [Display],
    which reaches every registered stage once. *)
Definition closed_ok (s : d_state) : Prop :=
  ∀ k t, d_tasks s !! k = Some t → t_codes_closed t = true →
    match d_main s with
    | DClose seen => live t = true → t_desc t ∈ seen
    | DStop | DWait | DReturned => True
    | _ => False
    end.

(** [done] of the [cmdline] is open exactly as long as its [once] has not
    fired. *)
Definition cli_ok (cli : cmdline) : Prop :=
  (cli_once cli = false ∧ cli_done cli = ChanOpen)
  ∨ (cli_once cli = true ∧ cli_done cli = ChanClosed).

Record d_np_inv (s : d_state) : Prop := {
  np_closed : closed_ok s;
  np_cli : cli_ok (d_cli s);
  np_main : d_main s ≠ DPanic;
  np_watch : d_watch s ≠ WPanic
}.

Record d_inv (app : string) (msgs : list UpSummary) (s : d_state) : Prop := {
  inv_reg : d_reg_inv s;
  inv_np : d_np_inv s;
  inv_flow : d_flow_inv app msgs s;
  inv_line : d_line_inv app s;
  inv_cause : d_cause_inv s;
  inv_disp : d_dispatch_inv s
}.

(** The scenario of the specification: "build" reports SUCCESS at once,
    "deploy" reports PENDING and then FAILURE, and the input is closed. *)
Definition d_build_deploy_init : d_state :=
  Display_init Background "app"
    [mkUpSummary "build" UpSummary_SUCCESS; mkUpSummary "deploy" UpSummary_PENDING;
     mkUpSummary "deploy" UpSummary_FAILURE] true.

Definition d_build_deploy_schedule : list d_label :=
  [LMainSummary; LMainSummary; LMainSummary; LMain; LInnerCodes 1; LInner 1;
   LOuter 1; LOuter 1; LOuter 1; LMainSummary; LMainClose "build"; LMain; LMain;
   LInnerDone 0; LInner 0; LOuter 0; LOuter 0; LOuter 0; LMain].

Definition d_build_deploy_final : d_state :=
  Eval vm_compute in
    default d_build_deploy_init (d_run d_build_deploy_schedule d_build_deploy_init).

(** A stage that is finalized and removed, and then reported again. *)
Definition d_again_init : d_state :=
  Display_init Background "app"
    [mkUpSummary "deploy" UpSummary_PENDING; mkUpSummary "deploy" UpSummary_SUCCESS;
     mkUpSummary "deploy" UpSummary_PENDING; mkUpSummary "deploy" UpSummary_FAILURE]
    true.

Definition d_again_schedule : list d_label :=
  [LMainSummary; LMainSummary; LMain; LInnerCodes 0; LInner 0;
   LOuter 0; LOuter 0; LOuter 0;
   LMainSummary; LMainSummary; LMain; LInnerCodes 1; LInner 1; LOuter 1].

Definition d_again_final : d_state :=
  Eval vm_compute in default d_again_init (d_run d_again_schedule d_again_init).

(** A single summary, terminal at once, and the input is closed. *)
Definition d_first_init : d_state :=
  Display_init Background "app" [mkUpSummary "build" UpSummary_SUCCESS] true.

Definition d_first_schedule : list d_label :=
  [LMainSummary; LMainSummary; LMainClose "build"; LMain; LMain;
   LInnerCodes 0; LInnerDone 0; LInner 0; LOuter 0; LOuter 0; LOuter 0; LMain].

Definition d_first_final : d_state :=
  Eval vm_compute in default d_first_init (d_run d_first_schedule d_first_init).

(** The goroutine of the stage has called [wg.Done()]. *)
Definition exited (t : task) : bool :=
  match t_outer t with OExit => true | _ => false end.

(** The number of stage goroutines that have not. *)
Definition running (ts : list task) : nat :=
  length (filter (λ t, exited t = false) ts).

(** The wait group counts the stage goroutines still running, and
    [Display] returns with the count at zero. *)
Record d_join_inv (s : d_state) : Prop := {
  jn_wg : d_wg s = running (d_tasks s);
  jn_ret : d_main s = DReturned → d_wg s = 0
}.

(** The deferred loop of [Display] has closed the channel of every stage
    still registered by the time it calls [cli.Stop()]. *)
Definition closing_ok (s : d_state) : Prop :=
  match d_main s with
  | DClose seen =>
      ∀ k t, d_tasks s !! k = Some t → live t = true → t_desc t ∈ seen →
        t_codes_closed t = true
  | DStop | DWait | DReturned =>
      ∀ k t, d_tasks s !! k = Some t → live t = true → t_codes_closed t = true
  | _ => True
  end.

Record d_down_inv (s : d_state) : Prop := {
  dn_reg : d_reg_inv s;
  dn_join : d_join_inv s;
  dn_closing : closing_ok s
}.

(** The deferred function of [Display] is about to call [cli.Stop()]. *)
Definition d_first_stop_schedule : list d_label :=
  [LMainSummary; LMainSummary; LMainClose "build"; LMain].

Definition d_first_stop : d_state :=
  Eval vm_compute in
    default d_first_init (d_run d_first_stop_schedule d_first_init).






End CmdlineNotions.

(** * Properties *)

(** ** UpBuild *)

Section UpBuildFacts.
Import Rpc.

Lemma ub_inv_init ctx addr recvs sends takes ms r :
  up_build_trace recvs = Some (ms, r) →
  ub_inv ms r (UpBuild_init ctx addr None None recvs sends takes).
Proof.
  intros Ht. split; simpl; try done; try lia.
  - unfold ub_rest; simpl. by rewrite Ht.
  - by rewrite Ht.
Qed.

Lemma Recv_background st x st' :
  s_ctx st = Background → Recv st = Some (x, st') →
  s_ctx st' = Background ∧ s_recv st = x :: s_recv st'.
Proof.
  unfold Recv. intros ->; simpl.
  destruct (s_recv st) as [|y l]; [done|]. by intros [= <- <-].
Qed.

Local Ltac ub_fin :=
  intros; simplify_eq; rewrite ?app_nil_r in *; rewrite <- ?app_assoc in *;
  simpl in *; try done; try lia; try congruence;
  try (intuition (auto; congruence)).

Local Ltac ub_hyps :=
  repeat match goal with
  | H : ∀ x, Some ?a = Some x → _ |- _ => specialize (H _ eq_refl)
  | H : ?a = ?a → _ |- _ => specialize (H eq_refl)
  | H : _ ∧ _ |- _ => destruct H
  end.

Local Ltac ub_split :=
  simpl in *; ub_hyps; try done; split; unfold ub_rest; simpl in *; ub_fin.

Lemma ub_inv_step ms r l s s' :
  ub_inv ms r s → UpBuild l s = Some s' → ub_inv ms r s'.
Proof.
  intros [Hctx Hdial Hopen Hflow Htr Hm He Hcap Hret Hne Hnm Hidle Hst Hleft Hcl] Hstep.
  destruct s as [actx addr dial open st buf mcl ecl mnil enil go main out ocl ccl clr].
  unfold ub_rest in *. simpl in *. subst dial open mcl ecl ocl.
  destruct l; simpl in Hstep.
  - (* UbMain *)
    destruct main; simpl in *; simplify_eq.
    + specialize (Hst eq_refl) as ->. ub_split.
    + destruct mnil, enil; simpl in *; simplify_eq.
      destruct (Hne eq_refl) as [Hx ->]. destruct (Hnm eq_refl) as [Hy ->].
      destruct go; simpl in *; try done.
      ub_split. 
    + destruct (caller_recv clr); simplify_eq. destruct go; ub_split.
    + destruct (Hleft _ eq_refl) as (-> & Hgo & Hout). destruct go; ub_split.
    + destruct (Hleft _ eq_refl) as (-> & Hgo & Hout). destruct go; ub_split.
  - (* UbMainMsgc *)
    destruct main; simpl in *; simplify_eq.
    destruct mnil; [done|]. destruct buf as [|m buf].
    + destruct go; simpl in *; simplify_eq; ub_split.
    + simplify_eq. destruct go; ub_split.
  - (* UbMainErrc *)
    destruct main; simpl in *; simplify_eq.
    destruct enil; [done|].
    destruct go; simpl in *; simplify_eq; ub_split.
  - (* UbGo *)
    unfold up_build in Hstep; simpl in Hstep.
    destruct go as [| | |m|x|x|e| |]; simpl in *; try done.
    + simplify_eq. destruct main; ub_split.
    + destruct (Recv st) as [[x st']|] eqn:HR; [|done].
      destruct (Recv_background _ _ _ Hctx HR) as [Hctx' Hscript].
      rewrite Hscript in Hflow, Htr. simpl in Hflow, Htr.
      destruct x as [m| |e]; simplify_eq.
      * destruct (up_build_trace (s_recv st')) as [[ms' r']|] eqn:Ht; simpl in *;
          [|by specialize (Htr eq_refl)].
        destruct main; ub_split; rewrite ?Ht; done.
      * destruct main; ub_split.
      * destruct main; ub_split.
    + case_bool_decide; simplify_eq.
      destruct main; ub_split; rewrite length_app; simpl; lia.
    + simplify_eq. destruct main; ub_split.
    + subst x. destruct r; simplify_eq; destruct main; ub_split.
    + simplify_eq. destruct main; ub_split.
  - (* UbCancel *)
    destruct (canceled actx); simplify_eq. ub_split.
Qed.

Lemma ub_inv_run ms r ls s s' :
  ub_inv ms r s → ub_run ls s = Some s' → ub_inv ms r s'.
Proof.
  revert s. induction ls as [|l ls IH]; simpl; intros s Hinv Hrun.
  - by simplify_eq.
  - destruct (UpBuild l s) as [s1|] eqn:Hstep; [|done].
    eapply IH; [|done]. by eapply ub_inv_step.
Qed.

Lemma Recv_length st x st' :
  Recv st = Some (x, st') →
  length (s_recv st') ≤ length (s_recv st)
  ∧ (canceled (s_ctx st) = false → S (length (s_recv st')) = length (s_recv st)).
Proof.
  unfold Recv. destruct (canceled (s_ctx st)).
  - intros [= <- <-]. split; [lia|done].
  - destruct (s_recv st) as [|y l]; [done|]. intros [= <- <-]. simpl. lia.
Qed.

Local Ltac step_cases H :=
  repeat match type of H with
         | context [match ?x with _ => _ end] => destruct x eqn:?; simpl in H
         end;
  simplify_eq.

(** Every step uses up some of the measure: executions are finite. *)
Lemma ub_measure_step l s s' :
  s_ctx (ub_stream s) = Background →
  UpBuild l s = Some s' → ub_measure s' < ub_measure s.
Proof.
  intros Hctx Hstep.
  destruct s as [actx addr dial open st buf mcl ecl mnil enil go main out ocl ccl clr].
  simpl in Hctx.
  destruct l; simpl in Hstep; unfold up_build in Hstep; simpl in Hstep.
  - destruct main; simpl in Hstep.
    + destruct dial; simpl in Hstep; simplify_eq; unfold ub_measure; simpl;
        destruct go; simpl; lia.
    + destruct mnil, enil; simpl in Hstep; simplify_eq; unfold ub_measure; simpl; lia.
    + destruct (caller_recv clr); simplify_eq.
      unfold ub_measure; simpl. rewrite ?length_app; simpl; lia.
    + simplify_eq. unfold ub_measure; simpl. lia.
    + simplify_eq. unfold ub_measure; simpl. lia.
    + done.
  - destruct main; simpl in Hstep; try done.
    destruct mnil; [done|]. destruct buf; [destruct mcl|]; simplify_eq;
      unfold ub_measure; simpl; lia.
  - destruct main; simpl in Hstep; try done.
    destruct enil; [done|].
    destruct go; try (destruct ecl); simplify_eq; unfold ub_measure; simpl; lia.
  - destruct go; simpl in Hstep; try done.
    + destruct open; simplify_eq; unfold ub_measure; simpl; lia.
    + destruct (Recv st) as [[x st']|] eqn:HR; [|done].
      destruct (Recv_length _ _ _ HR) as [_ Hlen].
      rewrite Hctx in Hlen. specialize (Hlen eq_refl).
      destruct x; simplify_eq; unfold ub_measure; simpl; lia.
    + case_bool_decide; simplify_eq. unfold ub_measure; simpl.
      rewrite length_app. simpl. lia.
    + simplify_eq. unfold ub_measure; simpl. lia.
    + destruct r; simplify_eq; unfold ub_measure; simpl; lia.
    + simplify_eq. unfold ub_measure; simpl. lia.
  - destruct (canceled actx) eqn:Hc; simplify_eq. unfold ub_measure; simpl.
    rewrite Hc. lia.
Qed.

Lemma ub_run_bounded ms r ls s s' :
  ub_inv ms r s → ub_run ls s = Some s' →
  length ls + ub_measure s' ≤ ub_measure s.
Proof.
  revert s. induction ls as [|l ls IH]; simpl; intros s Hinv Hrun.
  - simplify_eq. lia.
  - destruct (UpBuild l s) as [s1|] eqn:Hstep; [|done].
    pose proof (ub_measure_step _ _ _ (ubi_ctx _ _ _ Hinv) Hstep).
    pose proof (IH _ (ub_inv_step _ _ _ _ _ Hinv Hstep) Hrun). lia.
Qed.

(** No deadlock of its own: while [UpBuild] has not returned, some
    goroutine can move, unless [UpBuild] is at its send on [outc] and the
    caller has stopped receiving. *)
Lemma ub_inv_progress ms r s :
  ub_inv ms r s → ub_quiescent s →
  (∃ x, ub_main s = MReturned x)
  ∨ (∃ x, ub_main s = MEmit x ∧ ub_caller s = Some 0).
Proof.
  intros [Hctx Hdial Hopen Hflow Htr Hm He Hcap Hret Hne Hnm Hidle Hst Hleft Hcl] Hq.
  destruct s as [actx addr dial open st buf mcl ecl mnil enil go main out ocl ccl clr].
  unfold ub_rest in *. simpl in *. subst dial open mcl ecl ocl.
  pose proof (Hq UbMain ltac:(done)) as HM.
  pose proof (Hq UbMainMsgc ltac:(done)) as HMm.
  pose proof (Hq UbMainErrc ltac:(done)) as HMe.
  pose proof (Hq UbGo ltac:(done)) as HG.
  clear Hq. simpl in *. unfold up_build in HG. simpl in *.
  destruct main as [| |y| | |y]; simpl in *; try done; [| |left; by eauto].
  2: { right. exists y. split; [done|]. by destruct clr as [[|n]|]. }
  left. destruct go as [| | |m|x|x|e| |]; simpl in *; try done.
  - by specialize (Hidle eq_refl).
  - specialize (Htr eq_refl). unfold Recv in HG. rewrite Hctx in HG. simpl in HG.
    destruct (s_recv st) as [|[]]; simpl in *; done.
  - case_bool_decide; [done|]. destruct mnil.
    + destruct (Hnm eq_refl) as [? ->]. simpl in *. lia.
    + destruct buf; [simpl in *; lia|done].
  - by destruct x.
  - destruct enil; [|done]. by destruct (Hne eq_refl).
  - destruct enil; [|done]. destruct mnil; [done|]. by destruct buf.
Qed.



(** Every send on [outc] that completes uses up one of the receives of
    the caller. *)
Lemma ub_credit_step takes l s s' :
  credit_left takes (length (ub_out s)) (ub_caller s) →
  UpBuild l s = Some s' →
  credit_left takes (length (ub_out s')) (ub_caller s').
Proof.
  intros Hc Hstep.
  destruct s as [actx addr dial open st buf mcl ecl mnil enil go main out ocl ccl clr].
  simpl in *.
  destruct l; simpl in Hstep; unfold up_build in Hstep; simpl in Hstep;
    step_cases Hstep; simpl; try done.
  unfold credit_left in *. rewrite length_app. simpl.
  destruct takes, clr as [[|k]|]; simpl in *; simplify_eq; try done. lia.
Qed.

Lemma ub_credit_run takes ls s s' :
  credit_left takes (length (ub_out s)) (ub_caller s) →
  ub_run ls s = Some s' →
  credit_left takes (length (ub_out s')) (ub_caller s').
Proof.
  revert s. induction ls as [|l ls IH]; simpl; intros s Hc Hrun.
  - by simplify_eq.
  - destruct (UpBuild l s) as [s1|] eqn:Hstep; [|done].
    eapply IH; [|done]. by eapply ub_credit_step.
Qed.

(** [UpBuild] against [up_build] read alone: what the caller observes is a
    prefix of the messages of the stream, the value returned is the one of
    [up_build], [outc] is closed once, and the call returns unless the
    caller stops receiving before the stream has been forwarded. *)
Lemma UpBuild_sound ctx addr recvs sends takes ms r ls s :
  up_build_trace recvs = Some (ms, r) →
  ub_run ls (UpBuild_init ctx addr None None recvs sends takes) = Some s →
  ub_out s `prefix_of` (GetUpSummary <$> ms)
  ∧ ub_outc_closes s ≤ 1
  ∧ (∀ x, ub_main s = MReturned x →
       x = r ∧ ub_outc_closes s = 1 ∧ (r = None → ub_out s = GetUpSummary <$> ms))
  ∧ (ub_quiescent s →
       (∃ x, ub_main s = MReturned x)
       ∨ (∃ x, ub_main s = MEmit x ∧ takes = Some (length (ub_out s))
               ∧ length (ub_out s) < length ms))
  ∧ length ls ≤ ub_measure (UpBuild_init ctx addr None None recvs sends takes).
Proof.
  intros Ht Hrun.
  pose proof (ub_inv_init ctx addr recvs sends takes ms r Ht) as Hinit.
  pose proof (ub_inv_run _ _ _ _ _ Hinit Hrun) as Hinv.
  pose proof (ub_run_bounded _ _ _ _ _ Hinit Hrun) as Hb.
  split; [|split; [|split; [|split]]].
  - eexists. symmetry. apply (ubi_flow _ _ _ Hinv).
  - rewrite (ubi_closes _ _ _ Hinv). destruct (ub_main s); simpl; lia.
  - intros x Hx. rewrite (ubi_closes _ _ _ Hinv), Hx. simpl.
    destruct (ubi_left _ _ _ Hinv x) as (-> & _ & Hout); [by rewrite Hx|].
    done.
  - intros Hq. destruct (ub_inv_progress _ _ _ Hinv Hq) as [?|(x & Hx & Hc)];
      [by left|right].
    exists x. split; [done|].
    assert (credit_left takes (length (ub_out s)) (ub_caller s)) as Hcr.
    { eapply ub_credit_run; [|done]. simpl. by destruct takes; simpl; try lia. }
    pose proof (ubi_flow _ _ _ Hinv) as Hflow. rewrite Hx in Hflow. simpl in Hflow.
    apply (f_equal length) in Hflow. rewrite length_fmap, length_app in Hflow.
    simpl in Hflow. rewrite Hc in Hcr. unfold credit_left in Hcr.
    destruct takes as [n|]; [|done]. simpl in Hcr. split; [by subst|lia].
  - lia.
Qed.

(** A caller that receives what the stream holds never blocks
    [UpBuild]. *)
Lemma caller_takes_not_blocked takes (k n : nat) :
  caller_takes takes n → takes = Some k → k < n → False.
Proof. intros Ht ->. simpl in Ht. lia. Qed.


End UpBuildFacts.

Section UpBuildClaims.
Import Rpc.

Example ub_eof_run : ub_run ub_eof_schedule ub_eof_init = Some ub_eof_final.
Proof. reflexivity. Qed.



(** C8. [UpBuild] on a stream that returns end-of-stream at once, with no
    message delivered: in every execution, whatever the caller does with the
    output channel, nothing is ever sent on it, the call cannot block
    before it returns, it returns within 17 steps, and when it has returned
    the error is nil and the output channel has been closed (once). *)
Theorem UpBuild_end_of_stream_at_once ctx addr sends takes ls s :
  ub_run ls (UpBuild_init ctx addr None None [RecvEOF] sends takes) = Some s →
  ub_out s = []
  ∧ (∀ x, ub_main s = MReturned x → x = None ∧ ub_outc_closes s = 1)
  ∧ (ub_quiescent s → ub_main s = MReturned None ∧ ub_outc_closes s = 1)
  ∧ length ls ≤ 17.
Proof.
  intros Hrun.
  destruct (UpBuild_sound ctx addr [RecvEOF] sends takes [] None ls s eq_refl Hrun)
    as (Hpre & _ & Hret & Hq & Hlen).
  split; [|split; [|split]].
  - by apply prefix_nil_inv in Hpre.
  - intros x Hx. by destruct (Hret x Hx) as (-> & ? & _).
  - intros Hquiet. destruct (Hq Hquiet) as [[x Hx]|(x & _ & _ & Hlt)].
    + destruct (Hret x Hx) as (-> & ? & _). done.
    + simpl in Hlt. lia.
  - unfold ub_measure in Hlen. simpl in Hlen. destruct (canceled ctx); lia.
Qed.

Lemma UpBuild_end_of_stream_at_once_witness :
  ub_run ub_eof_schedule ub_eof_init = Some ub_eof_final
  ∧ ub_out ub_eof_final = [] ∧ ub_outc_closes ub_eof_final = 1.
Proof.
  split; [exact ub_eof_run|].
  destruct (UpBuild_end_of_stream_at_once Background "localhost:44135" [] None
              ub_eof_schedule ub_eof_final ub_eof_run) as (Hout & Hret & _ & _).
  split; [exact Hout|].
  exact (proj2 (Hret None eq_refl)).
Defined.




End UpBuildClaims.

(** ** UpStream *)

Section UpStreamFacts.
Import Rpc.

Lemma us_noeof_init ctx addr recvs sends reqs closes takes :
  RecvEOF ∉ recvs →
  us_noeof_inv (UpStream_init ctx addr None None recvs sends reqs closes takes).
Proof. intros H. by split. Qed.

Lemma Send_background st x st' :
  Send st = (x, st') → s_ctx st' = s_ctx st ∧ s_recv st' = s_recv st.
Proof.
  unfold Send. destruct (canceled (s_ctx st)); [by intros [= <- <-]|].
  destruct (s_send st); by intros [= <- <-].
Qed.

Lemma us_noeof_step l s s' :
  us_noeof_inv s → UpStream l s = Some s' → us_noeof_inv s'.
Proof.
  intros [Hctx Hdial Hopen Hscr Hdone Hmsgc Herrc Hmain Hfwd Hout] Hstep.
  destruct s as [actx addr dial open st reqc rcl sent mcl dcl ecl fwd rcv main out ocl ccl clr].
  simpl in *. subst dial open dcl mcl ecl ocl.
  destruct l; simpl in Hstep.
  - (* UsMain *)
    destruct main; simpl in *; try done; unfold up_stream in Hstep;
      simpl in Hstep; simplify_eq; try (by split).
    destruct (Send st) as [[e|] st'] eqn:HS; simplify_eq;
      destruct (Send_background _ _ _ HS) as [Hc Hr];
      split; simpl; try done; congruence.
  - (* UsMainSend *)
    destruct main; simpl in *; try done.
    destruct reqc; [destruct rcl|]; simplify_eq; by split.
  - (* UsMainErrc *)
    destruct main; simpl in *; try done.
    destruct rcv; simpl in *; simplify_eq; by split.
  - (* UsRecv *)
    unfold receive in Hstep; simpl in Hstep.
    destruct rcv; simpl in *; try done.
    destruct (Recv st) as [[x st']|] eqn:HR; [|done].
    destruct (Recv_background _ _ _ Hctx HR) as [Hctx' Hscript].
    rewrite Hscript in Hscr. apply not_elem_of_cons in Hscr as [Hx Hscr].
    destruct x; simplify_eq; by split.
  - (* UsFwd *)
    unfold forward in Hstep; simpl in Hstep.
    destruct fwd; simpl in *; try done.
    + destruct rcv; simpl in *; try done. case_match; simplify_eq; by split.
    + destruct (caller_recv clr); simplify_eq. by split.
  - (* UsCancel *)
    destruct (canceled actx); simplify_eq. by split.
Qed.

Lemma us_noeof_run ls s s' :
  us_noeof_inv s → us_run ls s = Some s' → us_noeof_inv s'.
Proof.
  revert s. induction ls as [|l ls IH]; simpl; intros s Hinv Hrun.
  - by simplify_eq.
  - destruct (UpStream l s) as [s1|] eqn:Hstep; [|done].
    eapply IH; [|done]. by eapply us_noeof_step.
Qed.

(** In a state where nothing can move, every schedule is empty. *)
Lemma us_stuck_run ls s s' : us_stuck s → us_run ls s = Some s' → s' = s ∧ ls = [].
Proof.
  intros Hs. destruct ls as [|l ls]; simpl; [by intros [= <-]|].
  by rewrite Hs.
Qed.

(** [UpStream] and [UpBuild] never look at their context argument. *)
Lemma UpStream_ignores_ctx c l s :
  l ≠ UsCancel → UpStream l (us_set_apictx c s) = us_set_apictx c <$> UpStream l s.
Proof.
  intros Hl.
  destruct s as [actx addr dial open st reqc rcl sent mcl dcl ecl fwd rcv main out ocl ccl clr].
  destruct l; try done; simpl;
    unfold up_stream, receive, forward; simpl; repeat case_match; done.
Qed.

Lemma UpBuild_ignores_ctx c l s :
  l ≠ UbCancel → UpBuild l (ub_set_apictx c s) = ub_set_apictx c <$> UpBuild l s.
Proof.
  intros Hl.
  destruct s as [actx addr dial open st buf mcl ecl mnil enil go main out ocl ccl clr].
  destruct l; try done; simpl; unfold up_build; simpl; repeat case_match; done.
Qed.

End UpStreamFacts.

Section UpStreamClaims.
Import Rpc.

Example us_err_run : us_run us_err_schedule us_err_init = Some us_err_blocked.
Proof. reflexivity. Qed.

Example us_err_blocked_stuck : us_stuck us_err_blocked.
Proof. intros []; reflexivity. Qed.

Example us_silent_run :
  us_run us_silent_schedule us_silent_init = Some us_silent_blocked.
Proof. reflexivity. Qed.

Example us_silent_blocked_stuck : us_stuck us_silent_blocked.
Proof. intros []; reflexivity. Qed.

Example us_ok_run :
  (λ s, (us_main s, us_out s, us_outc_closes s, us_rcv s, us_fwd s))
    <$> us_run us_ok_schedule (us_ok_init Background)
  = Some (SReturned None, [mkUpSummary "build" UpSummary_SUCCESS], 1, RExit, FExit).
Proof. reflexivity. Qed.

(** C3, on the receive-error path.  When the stream delivers messages and
    then fails (it never yields the end of the stream), [UpStream] never
    returns: in every execution [done] stays open, the deferred function of
    [up_stream] does not get past its receive on [done], and neither
    [outc], [msgc] nor [errc] is ever closed. *)
Theorem UpStream_receive_error_never_returns
    ctx addr sends reqs closes takes ms e ls s :
  us_run ls (UpStream_init ctx addr None None
               ((RecvMsg <$> ms) ++ [RecvErr e]) sends reqs closes takes) = Some s →
  (∀ x, us_main s ≠ SReturned x)
  ∧ us_outc_closes s = 0
  ∧ us_msgc_closed s = false
  ∧ us_errc_closed s = false
  ∧ us_done_closed s = false.
Proof.
  intros Hrun.
  assert (RecvEOF ∉ (RecvMsg <$> ms) ++ [RecvErr e]) as Hno.
  { rewrite not_elem_of_app. split.
    - intros (m & [=] & _)%list_elem_of_fmap.
    - by intros [=]%list_elem_of_singleton. }
  pose proof (us_noeof_run _ _ _
                (us_noeof_init ctx addr _ sends reqs closes takes Hno) Hrun) as Hinv.
  destruct Hinv as [_ _ _ _ Hdone Hmsgc Herrc Hmain _ Hout].
  repeat split; try done.
  intros x Hx. by rewrite Hx in Hmain.
Qed.

(** The execution that ends with [up_stream] blocked for good on [done],
    holding the error it was about to return. *)
Lemma UpStream_receive_error_never_returns_witness :
  us_run us_err_schedule us_err_init = Some us_err_blocked
  ∧ us_stuck us_err_blocked
  ∧ (∀ x, us_main us_err_blocked ≠ SReturned x)
  ∧ us_outc_closes us_err_blocked = 0.
Proof.
  split; [exact us_err_run|]. split; [exact us_err_blocked_stuck|].
  destruct (UpStream_receive_error_never_returns Background "localhost:44135"
              [] [] false None [] "transport is closing" us_err_schedule
              us_err_blocked us_err_run) as (Hret & Hout & _).
  split; [exact Hret | exact Hout].
Defined.

(** C2, as stated, fails: with a silent server and an idle caller,
    canceling the context leaves the send loop at its select and the
    receive loop in [Recv], and nothing can move any more. *)
Lemma UpStream_cancel_leaves_loops_blocked :
  ¬ (∀ ls s, us_run ls us_silent_init = Some s →
       canceled (us_apictx s) = true →
       ∃ ls' s', us_run ls' s = Some s'
                 ∧ send_loop_exited (us_main s') = true
                 ∧ recv_loop_exited (us_rcv s') = true).
Proof.
  intros H.
  destruct (H us_silent_schedule us_silent_blocked us_silent_run eq_refl)
    as (ls' & s' & Hrun & Hsend & _).
  destruct (us_stuck_run _ _ _ us_silent_blocked_stuck Hrun) as [-> _].
  discriminate Hsend.
Qed.

(** C2, amended.  [UpBuild] and [UpStream] run the RPC under
    [context.Background()] and never consult their context argument:
    canceling it at any point changes neither which steps of the send,
    receive and forwarding loops can be taken nor their outcome. *)
Theorem cancel_is_not_observed c uls us bls bs :
  UsCancel ∉ uls → UbCancel ∉ bls →
  us_run uls (us_set_apictx c us) = us_set_apictx c <$> us_run uls us
  ∧ ub_run bls (ub_set_apictx c bs) = ub_set_apictx c <$> ub_run bls bs.
Proof.
  intros Hu Hb. split.
  - clear Hb. revert us Hu.
    induction uls as [|l uls IH]; simpl; intros us Hu.
    + by destruct us.
    + apply not_elem_of_cons in Hu as [Hl Hu].
      rewrite UpStream_ignores_ctx by done.
      destruct (UpStream l us) as [s1|]; simpl; [by apply IH|done].
  - clear Hu. revert bs Hb.
    induction bls as [|l bls IH]; simpl; intros bs Hb.
    + by destruct bs.
    + apply not_elem_of_cons in Hb as [Hl Hb].
      rewrite UpBuild_ignores_ctx by done.
      destruct (UpBuild l bs) as [s1|]; simpl; [by apply IH|done].
Qed.

Lemma cancel_is_not_observed_witness :
  us_run us_ok_schedule (us_ok_init (cancel Background))
  = us_set_apictx (cancel Background) <$> us_run us_ok_schedule (us_ok_init Background)
  ∧ ub_run ub_eof_schedule (ub_set_apictx (cancel Background) ub_eof_init)
    = ub_set_apictx (cancel Background) <$> ub_run ub_eof_schedule ub_eof_init.
Proof.
  apply (cancel_is_not_observed (cancel Background) us_ok_schedule
           (us_ok_init Background) ub_eof_schedule ub_eof_init).
  - unfold us_ok_schedule. rewrite !not_elem_of_cons. repeat split; try done.
    apply not_elem_of_nil.
  - unfold ub_eof_schedule. rewrite !not_elem_of_cons. repeat split; try done.
    apply not_elem_of_nil.
Defined.

End UpStreamClaims.

(** ** Display *)

Section DisplayFacts.
Import Cmdline.

Local Ltac step_cases H :=
  repeat match type of H with
         | context [match ?x with _ => _ end] => destruct x eqn:?; simpl in H
         end;
  simplify_eq.

Local Ltac d_cases H :=
  unfold Display, progress, progress_codes, progress_done, progress_close,
    watch, inner_switch in H;
  simpl in H; step_cases H.

Lemma reg_ok_update ts og k t t' :
  reg_ok ts og → ts !! k = Some t →
  t_desc t' = t_desc t → live t' = live t →
  reg_ok (<[k:=t']> ts) og.
Proof.
  intros [Hs Hc] Hk Hd Hl. split.
  - intros d k0 Hog. destruct (Hs d k0 Hog) as (t0 & Ht0 & Hd0 & Hl0).
    destruct (decide (k = k0)) as [->|Hne].
    + exists t'. rewrite list_lookup_insert_eq by (by eapply lookup_lt_Some).
      simplify_eq. split; [done|]. split; congruence.
    + exists t0. by rewrite list_lookup_insert_ne.
  - intros k0 t0 Ht0 Hl0. destruct (decide (k = k0)) as [->|Hne].
    + rewrite list_lookup_insert_eq in Ht0 by (by eapply lookup_lt_Some).
      simplify_eq. rewrite Hd. apply Hc; [done|congruence].
    + rewrite list_lookup_insert_ne in Ht0 by done. by apply Hc.
Qed.

Lemma reg_ok_spawn ts og d :
  reg_ok ts og → og !! d = None →
  reg_ok (ts ++ [new_task d]) (<[d:=length ts]> og).
Proof.
  intros [Hs Hc] Hnone. split.
  - intros d0 k0 Hog. destruct (decide (d = d0)) as [->|Hne].
    + rewrite lookup_insert_eq in Hog. simplify_eq.
      exists (new_task d0). by rewrite list_lookup_middle.
    + rewrite lookup_insert_ne in Hog by done.
      destruct (Hs d0 k0 Hog) as (t0 & Ht0 & Hd0 & Hl0).
      exists t0. split; [|done]. by apply lookup_app_l_Some.
  - intros k0 t0 Ht0 Hl0. apply lookup_snoc_Some in Ht0 as [[Hlt Ht0]|[-> <-]].
    + pose proof (Hc k0 t0 Ht0 Hl0) as Hog.
      rewrite lookup_insert_ne; [done|]. intros ->. congruence.
    + simpl. by rewrite lookup_insert_eq.
Qed.

Lemma reg_ok_delete ts og k t t' :
  reg_ok ts og → ts !! k = Some t → live t = true →
  t_desc t' = t_desc t → live t' = false →
  reg_ok (<[k:=t']> ts) (delete (t_desc t) og).
Proof.
  intros [Hs Hc] Hk Hlt Hd Hl. split.
  - intros d k0 Hog. apply lookup_delete_Some in Hog as [Hne Hog].
    destruct (Hs d k0 Hog) as (t0 & Ht0 & Hd0 & Hl0).
    exists t0. split; [|done]. rewrite list_lookup_insert_ne; [done|].
    intros ->. simplify_eq.
  - intros k0 t0 Ht0 Hl0. destruct (decide (k = k0)) as [->|Hne].
    + rewrite list_lookup_insert_eq in Ht0 by (by eapply lookup_lt_Some).
      simplify_eq. congruence.
    + rewrite list_lookup_insert_ne in Ht0 by done.
      pose proof (Hc k0 t0 Ht0 Hl0) as Hog.
      rewrite lookup_delete_ne; [done|]. intros Heq.
      pose proof (Hc k t Hk Hlt) as Hog'. rewrite Heq in Hog'. congruence.
Qed.

Lemma lookup_insert_is_Some_task (ts : list task) k t k0 :
  is_Some (ts !! k0) → is_Some (<[k:=t]> ts !! k0).
Proof.
  intros H. apply lookup_lt_is_Some. rewrite length_insert.
  by apply lookup_lt_is_Some.
Qed.

Lemma d_reg_step l s s' :
  d_reg_inv s → Display l s = Some s' → d_reg_inv s'.
Proof.
  intros [Hr Hd] Hstep. destruct l; d_cases Hstep.
  all: split; simpl;
    first
      [ done
      | by eapply reg_ok_update; eauto
      | by eapply reg_ok_spawn; eauto
      | by eapply reg_ok_delete; eauto
      | intros k' c' Hm; first
          [ discriminate Hm
          | apply lookup_insert_is_Some_task; eapply Hd; eassumption
          | eapply Hd; eassumption
          | idtac ]
      | idtac ].
  - simplify_eq. destruct Hr as [Hs _].
    destruct (Hs _ _ Heqo) as (t & Ht & _). by exists t.
  - rewrite Heqd in Hm. apply lookup_lt_is_Some. rewrite length_app. simpl.
    pose proof (Hd _ _ Hm) as Hk%lookup_lt_is_Some. lia.
  - eapply reg_ok_update; eauto. unfold live. simpl. by rewrite Heqo0.
  - eapply reg_ok_update; eauto. unfold live. simpl. by rewrite Heqo0.
  - eapply reg_ok_update; eauto. unfold live. simpl. by rewrite Heqo0.
  - eapply reg_ok_delete; eauto. unfold live. by rewrite Heqo0.
  - eapply reg_ok_update; eauto. unfold live. simpl. by rewrite Heqo0.
Qed.

Lemma d_reg_init ctx app msgs closes :
  d_reg_inv (Display_init ctx app msgs closes).
Proof.
  split; simpl; [|done]. split.
  - intros d k. by rewrite lookup_empty.
  - intros k t. by rewrite lookup_nil.
Qed.

Lemma d_run_inv (P : d_state → Prop) :
  (∀ l s s', P s → Display l s = Some s' → P s') →
  ∀ ls s s', P s → d_run ls s = Some s' → P s'.
Proof.
  intros Hstep ls. induction ls as [|l ls IH]; simpl; intros s s' HP Hrun.
  - by simplify_eq.
  - destruct (Display l s) as [s1|] eqn:Hs; [|done]. eauto.
Qed.

End DisplayFacts.

Section CmdlineClaims.
Import Cmdline.

(** C10.  On a [cmdline] whose [once] has not fired and that has been
    through [Init], any number of calls of [Stop] goes without panic: the
    first one closes [done], every later one leaves the struct as it is (no
    second close), and every call returns the stored [err]. *)
Theorem Stop_idempotent cli n :
  cli_once cli = false →
  ∃ cli',
    Stop (Init cli) = Some (cli', cli_err cli)
    ∧ cli_done cli' = ChanClosed
    ∧ Stop cli' = Some (cli', cli_err cli)
    ∧ Stop_times (S n) (Init cli) = Some (cli', replicate (S n) (cli_err cli)).
Proof.
  intros Honce.
  set (cli' := {| cli_ctx := Background; cli_done := ChanClosed;
                  cli_once := true; cli_err := cli_err cli |}).
  assert (Stop (Init cli) = Some (cli', cli_err cli)) as H1.
  { unfold Stop, Init. simpl. by rewrite Honce. }
  assert (Stop cli' = Some (cli', cli_err cli)) as H2 by done.
  assert (∀ m, Stop_times m cli' = Some (cli', replicate m (cli_err cli))) as H3.
  { induction m as [|m IH]; [done|]. cbn [Stop_times]. by rewrite H2, IH. }
  exists cli'. repeat split; try done.
  cbn [Stop_times]. by rewrite H1, H3.
Qed.

Lemma Stop_idempotent_witness :
  ∃ cli',
    Stop (Init zero) = Some (cli', None)
    ∧ cli_done cli' = ChanClosed
    ∧ Stop cli' = Some (cli', None)
    ∧ Stop_times 3 (Init zero) = Some (cli', [None; None; None]).
Proof. exact (Stop_idempotent zero 2 eq_refl). Defined.

Example d_one_run : d_run d_one_schedule d_one_init = Some d_one_deleting.
Proof. vm_compute. reflexivity. Qed.

Example d_one_delete : Display (LOuter 0) d_one_deleting = Some d_one_deleted.
Proof. vm_compute. reflexivity. Qed.

(** C9, as stated, fails: the goroutine started for a stage removes the
    stage's key from [ongoing] itself. *)
Lemma ongoing_written_by_stage_goroutine :
  ¬ (∀ ls s l s',
       d_run ls d_one_init = Some s → Display l s = Some s' →
       d_ongoing s' ≠ d_ongoing s → by_main_loop l = true).
Proof.
  intros H.
  specialize (H d_one_schedule d_one_deleting (LOuter 0) d_one_deleted
                d_one_run d_one_delete).
  simpl in H. enough (false = true) by done. apply H.
  intros Heq. apply (f_equal (λ m : gmap string nat, m !! "build")) in Heq.
  vm_compute in Heq. discriminate Heq.
Qed.

(** C9, amended.  A step changes [ongoing] in one of two ways only: the
    main loop of [Display] inserts the descriptor of the summary it has just
    received, which was absent, bound to the new stage; or the goroutine of
    a stage, once its [progress] has returned, deletes the stage's own
    descriptor.  Every other step leaves the mapping as it is. *)
Theorem ongoing_writers l s s' :
  Display l s = Some s' →
  d_ongoing s' = d_ongoing s
  ∨ (l = LMainSummary
     ∧ ∃ m, head (d_summaries s) = Some m
            ∧ d_ongoing s !! StageDesc m = None
            ∧ d_ongoing s' = <[StageDesc m := length (d_tasks s)]> (d_ongoing s))
  ∨ (∃ k t, l = LOuter k
            ∧ d_tasks s !! k = Some t ∧ t_outer t = ODelete
            ∧ d_ongoing s' = delete (t_desc t) (d_ongoing s)).
Proof.
  intros Hstep.
  destruct l;
    unfold Display, progress, progress_codes, progress_done, progress_close,
      watch, inner_switch in Hstep;
    simpl in Hstep;
    repeat match type of Hstep with
           | context [match ?x with _ => _ end] =>
               destruct x eqn:?; simpl in Hstep
           end;
    simplify_eq; simpl; eauto 10.
Qed.

Lemma ongoing_writers_witness :
  d_ongoing d_one_deleted = d_ongoing d_one_deleting
  ∨ (LOuter 0 = LMainSummary
     ∧ ∃ m, head (d_summaries d_one_deleting) = Some m
            ∧ d_ongoing d_one_deleting !! StageDesc m = None
            ∧ d_ongoing d_one_deleted
              = <[StageDesc m := length (d_tasks d_one_deleting)]>
                  (d_ongoing d_one_deleting))
  ∨ (∃ k t, LOuter 0 = LOuter k
            ∧ d_tasks d_one_deleting !! k = Some t ∧ t_outer t = ODelete
            ∧ d_ongoing d_one_deleted
              = delete (t_desc t) (d_ongoing d_one_deleting)).
Proof. exact (ongoing_writers (LOuter 0) d_one_deleting d_one_deleted d_one_delete). Defined.

Example d_cancel_run :
  d_run d_cancel_schedule d_cancel_init = Some d_cancel_blocked.
Proof. vm_compute. reflexivity. Qed.

(** C6, on cancellation.  The context is canceled while stage "deploy"
    is pending; [Display] ends up blocked for good in its send
    [c <- summary.StatusCode]: the buffer of the channel is full, its reader
    has left on [cli.Done()], and the send is outside every select.  Nothing
    can move any more and [Display] has not returned. *)
Theorem Display_cancel_can_block :
  d_run d_cancel_schedule d_cancel_init = Some d_cancel_blocked
  ∧ canceled (d_rootctx d_cancel_blocked) = true
  ∧ d_main d_cancel_blocked = DSend 0 UpSummary_PENDING
  ∧ d_stuck d_cancel_blocked.
Proof.
  split; [exact d_cancel_run|]. split; [done|]. split; [done|].
  intros [| | |d|k|k|k|k| |]; try reflexivity.
  all: destruct k as [|k]; reflexivity.
Qed.

End CmdlineClaims.

(** ** Display: the shape of a step *)

Section DisplayShape.
Import Cmdline.

Local Ltac step_cases H :=
  repeat match type of H with
         | context [match ?x with _ => _ end] => destruct x eqn:?; simpl in H
         end;
  simplify_eq.

Local Ltac d_cases H :=
  unfold Display, progress, progress_codes, progress_done, progress_close, watch in H;
  simpl in H; step_cases H.

Lemma Display_app l s s' : Display l s = Some s' → d_app s' = d_app s.
Proof. intros Hstep. destruct l; d_cases Hstep; done. Qed.

Lemma Display_shape l s s' : Display l s = Some s' → d_shape s s'.
Proof.
  intros Hstep. destruct l; d_cases Hstep.
  all: first
    [ by (apply sh_control; simpl; try done;
          first [ by left
                | right; unfold control_move; simpl;
                  match goal with H : d_main _ = _ |- _ => rewrite H end;
                  first [ done
                        | by match goal with
                             | H : bool_decide _ = true |- _ =>
                                 apply bool_decide_eq_true in H
                             end
                        | by match goal with H : d_wg _ = 0 |- _ => idtac end ] ])
    | by (eapply sh_spawn; simpl; eauto)
    | by (eapply sh_recv; simpl; eauto)
    | by (eapply sh_task; [eassumption | econstructor; eassumption | ..];
          simpl; rewrite ?app_nil_r; eauto)
    | by (eapply sh_delete; simpl; eauto)
    | by (eapply sh_wgdone; simpl; eauto)
    | idtac ].
  - apply bool_decide_eq_true in Heqb0.
    assert (t_codes t = []) as Hnil by (destruct (t_codes t); [done|simpl in *; lia]).
    rewrite Hnil. eapply sh_send; simpl; eauto.
  - apply bool_decide_eq_false in Heqb.
    eapply sh_close; simpl; eauto.
Qed.

End DisplayShape.

(** ** Display: what the log tells *)

Section DisplayLog.
Import Cmdline.

Lemma net_app l1 l2 : net (l1 ++ l2) = net l1 ++ net l2.
Proof. apply omap_app. Qed.
Lemma sent_app k l1 l2 : sent k (l1 ++ l2) = sent k l1 ++ sent k l2.
Proof. apply omap_app. Qed.
Lemma got_app k l1 l2 : got k (l1 ++ l2) = got k l1 ++ got k l2.
Proof. apply omap_app. Qed.
Lemma delivered_app k l1 l2 : delivered k (l1 ++ l2) = delivered k l1 ++ delivered k l2.
Proof. apply omap_app. Qed.
Lemma writes_of_app k l1 l2 : writes_of k (l1 ++ l2) = writes_of k l1 ++ writes_of k l2.
Proof. apply omap_app. Qed.

Lemma spin_frames_S app desc n :
  spin_frames app desc (S n) = spin_frames app desc n ++ [WSpin app desc (frame n)].
Proof. unfold spin_frames. by rewrite seq_S, fmap_app. Qed.

Lemma lookup_upd (ts : list task) k0 t t' k :
  ts !! k0 = Some t →
  <[k0:=t']> ts !! k = if decide (k0 = k) then Some t' else ts !! k.
Proof.
  intros Hk. rewrite list_lookup_insert.
  pose proof (lookup_lt_Some _ _ _ Hk).
  destruct (decide (k0 = k)); case_decide; naive_solver.
Qed.

Lemma lookup_snoc_decide (ts : list task) t k :
  (ts ++ [t]) !! k = if decide (k = length ts) then Some t else ts !! k.
Proof.
  case_decide as Hk.
  - subst. by rewrite list_lookup_middle.
  - destruct (decide (k < length ts)).
    + by rewrite lookup_app_l.
    + rewrite !lookup_ge_None_2; [done|lia|rewrite length_app; simpl; lia].
Qed.

Lemma inner_switch_desc app c t : t_desc (inner_switch app c t) = t_desc t.
Proof. unfold inner_switch. by case_match. Qed.
Lemma inner_switch_codes app c t : t_codes (inner_switch app c t) = t_codes t.
Proof. unfold inner_switch. by case_match. Qed.
Lemma inner_switch_outer app c t : t_outer (inner_switch app c t) = t_outer t.
Proof. unfold inner_switch. by case_match. Qed.
Lemma inner_switch_closed app c t :
  t_codes_closed (inner_switch app c t) = t_codes_closed t.
Proof. unfold inner_switch. by case_match. Qed.
Lemma inner_switch_done app c t :
  t_done (inner_switch app c t)
  = t_done t ++ option_list (terminal_line app (t_desc t) c).
Proof. unfold inner_switch. case_match; simpl; by rewrite ?app_nil_r. Qed.

(** A step of a stage keeps its descriptor, and changes its channel only
    by a receive. *)
Lemma task_step_desc app k t t' es :
  task_step app k t t' es → t_desc t' = t_desc t.
Proof. destruct 1; simpl; by rewrite ?inner_switch_desc. Qed.

Lemma d_flow_init ctx app msgs closes :
  d_flow_inv app msgs (Display_init ctx app msgs closes).
Proof. split; simpl; try done. Qed.

Local Ltac log_simpl :=
  rewrite ?net_app, ?sent_app, ?got_app, ?writes_of_app, ?delivered_app;
  simpl; repeat case_decide; simplify_eq; rewrite ?app_nil_r.

Local Ltac in_list H :=
  repeat first
    [ apply elem_of_nil in H; destruct H
    | apply elem_of_cons in H as [H|H]; [try discriminate H|] ].

Local Ltac shape_cases Hsh :=
  destruct Hsh as [Ht Hl Ho Hs Hw Hm
    | m rest Hm Hm' Hs Hs' Ho Ho' Ht Hl Hw
    | m rest k Hm Hm' Hs Hs' Ho Ho' Ht Hl Hw
    | k c t Hm Hm' Hk Hcl Hc Ht Hl Ho Hs Hw
    | seen d k t Hm Hm' Hd Ho Hk Hcl Ht Hl Ho' Hs Hw
    | k t t' es Hk Hts Ht Hl Hm Ho Hs Hw
    | k t Hk Hout Ht Ho Hl Hm Hs Hw
    | k t Hk Hout Ht Hw Hl Hm Ho Hs ].

Lemma d_flow_step app msgs s s' :
  d_flow_inv app msgs s → d_shape s s' → d_app s' = d_app s →
  d_flow_inv app msgs s'.
Proof.
  intros [Ha Hi Hf] Hsh Happ. split; [congruence| |].
  - shape_cases Hsh; rewrite ?Hl, ?Hs'; try (rewrite Hs); try done.
    + rewrite Hs in Hi. log_simpl. by rewrite <- app_assoc.
    + rewrite Hs in Hi. log_simpl. by rewrite <- app_assoc.
    + log_simpl. done.
    + destruct Hts; log_simpl; done.
  - intros j. specialize (Hf j).
    shape_cases Hsh; rewrite Ht, Hl.
    + done.
    + rewrite lookup_snoc_decide. case_decide as Hj.
      * subst j. rewrite lookup_ge_None_2 in Hf by lia.
        destruct Hf as (Hg & Hse & _). log_simpl. by rewrite Hg, Hse.
      * log_simpl. done.
    + log_simpl. done.
    + rewrite (lookup_upd _ _ _ _ _ Hk). case_decide as Hj.
      * subst j. rewrite Hk, Hc in Hf. log_simpl.
        rewrite app_nil_r in Hf. by rewrite Hf.
      * log_simpl. done.
    + rewrite (lookup_upd _ _ _ _ _ Hk). case_decide as Hj; [|done].
      subst j. by rewrite Hk in Hf.
    + rewrite (lookup_upd _ _ _ _ _ Hk). case_decide as Hj.
      * subst j. rewrite Hk in Hf.
        destruct Hts as [c rest Hin Hc| | | | | |]; log_simpl;
          rewrite ?inner_switch_codes; simpl; try done.
        rewrite Hc in Hf. by rewrite <- app_assoc.
      * destruct Hts; log_simpl; done.
    + rewrite (lookup_upd _ _ _ _ _ Hk). case_decide as Hj; [|done].
      subst j. by rewrite Hk in Hf.
    + rewrite (lookup_upd _ _ _ _ _ Hk). case_decide as Hj; [|done].
      subst j. by rewrite Hk in Hf.
Qed.

(** The log only grows, and a stage stays where it is with its
    descriptor. *)
Lemma shape_log s s' : d_shape s s' → ∃ es, d_log s' = d_log s ++ es.
Proof.
  intros Hsh. shape_cases Hsh; rewrite Hl; eauto.
  all: exists []; by rewrite app_nil_r.
Qed.

Lemma shape_task_kept s s' k0 t0 :
  d_shape s s' → d_tasks s !! k0 = Some t0 →
  ∃ t1, d_tasks s' !! k0 = Some t1 ∧ t_desc t1 = t_desc t0.
Proof.
  intros Hsh H0. shape_cases Hsh; rewrite Ht; eauto.
  - exists t0. split; [|done]. by apply lookup_app_l_Some.
  - rewrite (lookup_upd _ _ _ _ _ Hk). case_decide; simplify_eq; eauto.
  - rewrite (lookup_upd _ _ _ _ _ Hk). case_decide; simplify_eq; eauto.
  - rewrite (lookup_upd _ _ _ _ _ Hk). case_decide; simplify_eq; eauto.
    eexists. split; [done|]. by eapply task_step_desc.
  - rewrite (lookup_upd _ _ _ _ _ Hk). case_decide; simplify_eq; eauto.
  - rewrite (lookup_upd _ _ _ _ _ Hk). case_decide; simplify_eq; eauto.
Qed.

Lemma got_mono k c log es : c ∈ got k log → c ∈ got k (log ++ es).
Proof. rewrite got_app, elem_of_app. auto. Qed.

Lemma terminal_line_zero app d : terminal_line app d 0%Z = None.
Proof. reflexivity. Qed.

Lemma d_line_init ctx app msgs closes :
  d_line_inv app (Display_init ctx app msgs closes).
Proof.
  split; simpl; try done.
  - intros k ln [=]%list_elem_of_singleton.
  - by intros w [= <-]%list_elem_of_singleton.
Qed.

Lemma d_line_step app msgs s s' :
  d_flow_inv app msgs s → d_line_inv app s → d_shape s s' →
  d_line_inv app s'.
Proof.
  intros [Ha Hi Hf] [Idone Ifin Ihead Iwr] Hsh. split.
  - (* ln_done *)
    intros j tj ln Hj Hln. destruct (shape_log _ _ Hsh) as [es0 Hl0].
    assert (∀ t0, d_tasks s !! j = Some t0 → ln ∈ t_done t0 → t_desc t0 = t_desc tj →
              ∃ c, terminal_line app (t_desc tj) c = Some ln ∧ c ∈ got j (d_log s'))
      as Hold.
    { intros t0 H0 Hin0 Hdesc. destruct (Idone _ _ _ H0 Hin0) as (c & Hc & Hg).
      exists c. rewrite <- Hdesc, Hl0. split; [done|]. by apply got_mono. }
    shape_cases Hsh; rewrite Ht in Hj.
    + eauto.
    + rewrite lookup_snoc_decide in Hj. case_decide; simplify_eq; eauto.
      by apply elem_of_nil in Hln.
    + eauto.
    + rewrite (lookup_upd _ _ _ _ _ Hk) in Hj. case_decide; simplify_eq; eauto.
    + rewrite (lookup_upd _ _ _ _ _ Hk) in Hj. case_decide; simplify_eq; eauto.
    + rewrite (lookup_upd _ _ _ _ _ Hk) in Hj. case_decide; simplify_eq; eauto.
      destruct Hts as [c rest Hin Hc| | | | |i msg rest Ho' Hdn|].
      * rewrite inner_switch_done in Hln. simpl in Hln.
        apply elem_of_app in Hln as [Hln|Hln].
        -- apply (Hold t Hk Hln). by rewrite inner_switch_desc.
        -- rewrite inner_switch_desc. simpl.
           destruct (terminal_line (d_app s) (t_desc t) c) as [ln'|] eqn:Hterm;
             simpl in Hln; [|by apply elem_of_nil in Hln].
           apply list_elem_of_singleton in Hln as ->.
           exists c. split; [done|]. rewrite Hl, got_app. simpl.
           rewrite decide_True by done. apply elem_of_app. right. by left.
      * rewrite inner_switch_done, terminal_line_zero in Hln. simpl in Hln.
        rewrite app_nil_r in Hln.
        apply (Hold t Hk Hln). by rewrite inner_switch_desc.
      * by apply (Hold t Hk Hln).
      * by apply (Hold t Hk Hln).
      * by apply (Hold t Hk Hln).
      * simpl in Hln. apply (Hold t Hk); [|done]. rewrite Hdn. by right.
      * by apply (Hold t Hk Hln).
    + rewrite (lookup_upd _ _ _ _ _ Hk) in Hj. case_decide; simplify_eq; eauto.
    + rewrite (lookup_upd _ _ _ _ _ Hk) in Hj. case_decide; simplify_eq; eauto.
  - (* ln_final *)
    intros j ln Hin. destruct (shape_log _ _ Hsh) as [es0 Hl0].
    assert (EWrite (Some j) (WFinal (Some ln)) ∈ d_log s →
            ∃ t c, d_tasks s' !! j = Some t
                   ∧ terminal_line app (t_desc t) c = Some ln
                   ∧ c ∈ got j (d_log s')) as Hold.
    { intros Hin0. destruct (Ifin _ _ Hin0) as (t0 & c & H0 & Hc0 & Hg).
      destruct (shape_task_kept _ _ _ _ Hsh H0) as (t1 & H1 & Hd1).
      exists t1, c. rewrite Hd1, Hl0. split; [done|]. split; [done|].
      by apply got_mono. }
    shape_cases Hsh; rewrite Hl in Hin; try (by apply Hold);
      apply elem_of_app in Hin as [Hin|Hin]; try (by apply Hold).
    + in_list Hin.
    + in_list Hin.
    + in_list Hin.
    + destruct Hts as [c rest Hin' Hc| | | | |i msg rest Ho' Hdn|]; in_list Hin.
      injection Hin as -> <-.
      destruct (Idone k t ln Hk) as (c & Hc & Hg); [rewrite Hdn; by left|].
      exists (t_set_outer ODelete (t_set_done rest t)), c.
      rewrite Ht, (lookup_upd _ _ _ _ _ Hk), decide_True by done.
      split; [done|]. split; [done|]. rewrite Hl. by apply got_mono.
  - (* ln_header *)
    intros w Hin.
    shape_cases Hsh; rewrite Hl in Hin; try (by apply Ihead);
      apply elem_of_app in Hin as [Hin|Hin]; try (by apply Ihead).
    + in_list Hin.
    + in_list Hin.
    + in_list Hin.
    + destruct Hts; in_list Hin.
  - (* ln_writes *)
    intros j tj Hj.
    shape_cases Hsh; rewrite Ht in Hj; rewrite Hl.
    + by apply Iwr.
    + rewrite lookup_snoc_decide in Hj. case_decide as Hjk; simplify_eq.
      * log_simpl. specialize (Hf (length (d_tasks s))).
        rewrite lookup_ge_None_2 in Hf by lia. by destruct Hf as (_ & _ & ->).
      * log_simpl. by apply Iwr.
    + log_simpl. by apply Iwr.
    + log_simpl. rewrite (lookup_upd _ _ _ _ _ Hk) in Hj.
      case_decide; simplify_eq; [exact (Iwr _ _ Hk)|by apply Iwr].
    + rewrite (lookup_upd _ _ _ _ _ Hk) in Hj.
      case_decide; simplify_eq; [exact (Iwr _ _ Hk)|by apply Iwr].
    + rewrite (lookup_upd _ _ _ _ _ Hk) in Hj. case_decide as Hjk; simplify_eq.
      * specialize (Iwr _ _ Hk).
        destruct Hts as [c rest Hin' Hc| | | |i Ho' Hdn Hdc|i msg rest Ho' Hdn
                         |i Ho' Hdn Hdc]; log_simpl;
          rewrite ?inner_switch_outer, ?inner_switch_desc; simpl; try done.
        -- rewrite Ho' in Iwr. by rewrite Iwr, spin_frames_S.
        -- rewrite Ho' in Iwr. rewrite Iwr. eauto.
        -- rewrite Ho' in Iwr. rewrite Iwr. eauto.
      * specialize (Iwr _ _ Hj). destruct Hts; log_simpl; done.
    + rewrite (lookup_upd _ _ _ _ _ Hk) in Hj. case_decide as Hjk; simplify_eq;
        [|by apply Iwr].
      specialize (Iwr _ _ Hk). rewrite Hout in Iwr. done.
    + rewrite (lookup_upd _ _ _ _ _ Hk) in Hj. case_decide as Hjk; simplify_eq;
        [|by apply Iwr].
      specialize (Iwr _ _ Hk). rewrite Hout in Iwr. done.
Qed.

Lemma after_first_app d c ms ms' :
  after_first d c ms → after_first d c (ms ++ ms').
Proof.
  intros (pre & c0 & mid & post & ->).
  exists pre, c0, mid, (post ++ ms').
  by rewrite <- !app_assoc, <- !app_comm_cons, <- !app_assoc, <- !app_comm_cons.
Qed.

Lemma net_no_recv log es :
  net es = [] → net (log ++ es) = net log.
Proof. intros H. by rewrite net_app, H, app_nil_r. Qed.

Lemma task_step_net app k t t' es : task_step app k t t' es → net es = [].
Proof. by destruct 1. Qed.

Lemma d_cause_init ctx app msgs closes :
  d_cause_inv (Display_init ctx app msgs closes).
Proof.
  split; simpl; try done.
  intros k d c [=]%list_elem_of_singleton.
Qed.

Lemma d_cause_step s s' :
  d_reg_inv s → d_cause_inv s → d_shape s s' → d_cause_inv s'.
Proof.
  intros [[Isound Icomplete] Isend] [Isent Imain Iborn] Hsh.
  destruct (shape_log _ _ Hsh) as [es0 Hl0]. split.
  - (* cs_sent *)
    intros j dj cj Hin.
    assert (ESend j dj cj ∈ d_log s →
            (∃ t, d_tasks s' !! j = Some t ∧ t_desc t = dj)
            ∧ after_first dj cj (net (d_log s'))) as Hold.
    { intros Hin0. destruct (Isent _ _ _ Hin0) as ((t0 & H0 & Hd0) & Haf).
      destruct (shape_task_kept _ _ _ _ Hsh H0) as (t1 & H1 & Hd1).
      split; [exists t1; split; [done|congruence]|].
      rewrite Hl0, net_app. by apply after_first_app. }
    shape_cases Hsh; rewrite Hl in Hin; try (by apply Hold);
      apply elem_of_app in Hin as [Hin|Hin]; try (by apply Hold).
    + in_list Hin.
    + in_list Hin.
    + in_list Hin. injection Hin as -> -> ->.
      destruct (Imain _ _ Hm) as (t0 & pre & c0 & H0 & Hnet & Hpre).
      simplify_eq. split.
      * eexists. rewrite Ht, (lookup_upd _ _ _ _ _ Hk), decide_True by done.
        split; done.
      * apply list_elem_of_split in Hpre as (p1 & p2 & ->).
        exists p1, c0, p2, []. rewrite Hl, net_app, Hnet. simpl.
        by rewrite app_nil_r, <- !app_assoc.
    + destruct Hts; in_list Hin.
  - (* cs_main *)
    intros j cj Hj.
    assert (d_main s = DSend j cj → net (d_log s') = net (d_log s) →
            ∃ t pre c0, d_tasks s' !! j = Some t
                        ∧ net (d_log s') = pre ++ [mkUpSummary (t_desc t) cj]
                        ∧ mkUpSummary (t_desc t) c0 ∈ pre) as Hold.
    { intros Hj0 Hnet. destruct (Imain _ _ Hj0) as (t0 & pre & c0 & H0 & Hn0 & Hpre).
      destruct (shape_task_kept _ _ _ _ Hsh H0) as (t1 & H1 & Hd1).
      exists t1, pre, c0. rewrite Hd1, Hnet. done. }
    shape_cases Hsh.
    + destruct Hm as [Hm|Hm];
        [|unfold control_move in Hm; rewrite Hj in Hm; by destruct (d_main s)].
      apply Hold; congruence.
    + rewrite Hm' in Hj. discriminate Hj.
    + rewrite Hm' in Hj. injection Hj as -> <-.
      destruct (Isound _ _ Ho) as (t0 & H0 & Hd0 & _).
      destruct (Iborn _ _ H0) as [c0 Hc0].
      exists t0, (net (d_log s)), c0. rewrite Ht, Hl, net_app, Hd0. simpl.
      split; [done|]. split; [by destruct m|]. by rewrite <- Hd0.
    + rewrite Hm' in Hj. discriminate Hj.
    + rewrite Hm' in Hj. discriminate Hj.
    + apply Hold; [congruence|]. rewrite Hl. apply net_no_recv.
      by eapply task_step_net.
    + apply Hold; congruence.
    + apply Hold; congruence.
  - (* cs_born *)
    intros j tj Hj.
    assert (∀ t0, d_tasks s !! j = Some t0 → t_desc tj = t_desc t0 →
            ∃ c0, mkUpSummary (t_desc tj) c0 ∈ net (d_log s')) as Hold.
    { intros t0 H0 Hd0. destruct (Iborn _ _ H0) as [c0 Hc0].
      exists c0. rewrite Hd0, Hl0, net_app. apply elem_of_app. by left. }
    shape_cases Hsh; rewrite Ht in Hj.
    + by apply (Hold tj).
    + rewrite lookup_snoc_decide in Hj. case_decide; simplify_eq.
      * exists (StatusCode m). rewrite Hl, net_app. simpl.
        apply elem_of_app. right. destruct m. by left.
      * by apply (Hold tj).
    + by apply (Hold tj).
    + rewrite (lookup_upd _ _ _ _ _ Hk) in Hj.
      case_decide; simplify_eq; [by apply (Hold t)|by apply (Hold tj)].
    + rewrite (lookup_upd _ _ _ _ _ Hk) in Hj.
      case_decide; simplify_eq; [by apply (Hold t)|by apply (Hold tj)].
    + rewrite (lookup_upd _ _ _ _ _ Hk) in Hj.
      case_decide; simplify_eq; [|by apply (Hold tj)].
      apply (Hold t); [done|]. by eapply task_step_desc.
    + rewrite (lookup_upd _ _ _ _ _ Hk) in Hj.
      case_decide; simplify_eq; [by apply (Hold t)|by apply (Hold tj)].
    + rewrite (lookup_upd _ _ _ _ _ Hk) in Hj.
      case_decide; simplify_eq; [by apply (Hold t)|by apply (Hold tj)].
Qed.

End DisplayLog.

Section DisplayDispatch.
Import Cmdline.

Local Ltac shape_cases Hsh :=
  destruct Hsh as [Ht Hl Ho Hs Hw Hm
    | m rest Hm Hm' Hs Hs' Ho Ho' Ht Hl Hw
    | m rest k Hm Hm' Hs Hs' Ho Ho' Ht Hl Hw
    | k c t Hm Hm' Hk Hcl Hc Ht Hl Ho Hs Hw
    | seen d k t Hm Hm' Hd Ho Hk Hcl Ht Hl Ho' Hs Hw
    | k t t' es Hk Hts Ht Hl Hm Ho Hs Hw
    | k t Hk Hout Ht Ho Hl Hm Hs Hw
    | k t Hk Hout Ht Hw Hl Hm Ho Hs ].

Lemma codes_for_app d l1 l2 : codes_for d (l1 ++ l2) = codes_for d l1 ++ codes_for d l2.
Proof. apply omap_app. Qed.
Lemma dispatched_app d l1 l2 :
  dispatched d (l1 ++ l2) = dispatched d l1 ++ dispatched d l2.
Proof. apply omap_app. Qed.

Lemma task_step_dispatched app k t t' es d :
  task_step app k t t' es → dispatched d es = [].
Proof. by destruct 1. Qed.

Lemma in_hand_kept d s s' :
  d_reg_inv s → d_shape s s' → d_main s' = d_main s →
  in_hand d s' = in_hand d s.
Proof.
  intros [_ Isend] Hsh Hmain. unfold in_hand. rewrite Hmain.
  destruct (d_main s) as [|k c| | | | |] eqn:Hpc; try done.
  destruct (Isend _ _ eq_refl) as [t0 H0].
  destruct (shape_task_kept _ _ _ _ Hsh H0) as (t1 & H1 & Hd1).
  by rewrite H0, H1, Hd1.
Qed.

Lemma d_dispatch_init ctx app msgs closes :
  d_dispatch_inv (Display_init ctx app msgs closes).
Proof. intros _ d. reflexivity. Qed.

Lemma d_dispatch_step s s' :
  d_reg_inv s → d_dispatch_inv s → d_shape s s' → d_dispatch_inv s'.
Proof.
  intros Ireg Idisp Hsh Hnp dd.
  pose proof (in_hand_kept dd s s' Ireg Hsh) as Hkept.
  destruct Ireg as [[Isound _] Isend].
  shape_cases Hsh.
  - destruct Hm as [Hm|Hm].
    + rewrite Hkept, Hl by done. apply Idisp. congruence.
    + unfold control_move in Hm.
      assert (d_main s ≠ DPanic) as Hnp0 by (intros E; by rewrite E in Hm).
      assert (in_hand dd s = [] ∧ in_hand dd s' = []) as [E1 E2].
      { unfold in_hand.
        destruct (d_main s), (d_main s'); try done; by destruct Hnp. }
      rewrite Hl, E2, <- E1. by apply Idisp.
  - assert (d_main s ≠ DPanic) as Hnp0 by (by rewrite Hm).
    rewrite Hl, dispatched_app, net_app, codes_for_app.
    rewrite <- (Idisp Hnp0 dd).
    unfold in_hand. rewrite Hm, Hm'. simpl. by rewrite !app_nil_r.
  - assert (d_main s ≠ DPanic) as Hnp0 by (by rewrite Hm).
    rewrite Hl, dispatched_app, net_app, codes_for_app.
    rewrite <- (Idisp Hnp0 dd).
    destruct (Isound _ _ Ho) as (t0 & H0 & Hd0 & _).
    unfold in_hand. rewrite Hm, Hm', Ht, H0, Hd0. simpl.
    rewrite !app_nil_r. by case_decide.
  - assert (d_main s ≠ DPanic) as Hnp0 by (by rewrite Hm).
    rewrite Hl, dispatched_app, net_app, codes_for_app. simpl.
    rewrite app_nil_r. rewrite <- (Idisp Hnp0 dd).
    unfold in_hand. rewrite Hm, Hm', Hk. case_decide; by rewrite ?app_nil_r.
  - assert (d_main s ≠ DPanic) as Hnp0 by (by rewrite Hm).
    rewrite Hl, <- (Idisp Hnp0 dd). unfold in_hand. by rewrite Hm, Hm'.
  - assert (d_main s ≠ DPanic) as Hnp0 by congruence.
    rewrite Hkept, Hl, dispatched_app, net_app, codes_for_app by done.
    rewrite (task_step_dispatched _ _ _ _ _ dd Hts), (task_step_net _ _ _ _ _ Hts).
    simpl. rewrite !app_nil_r. by apply Idisp.
  - assert (d_main s ≠ DPanic) as Hnp0 by congruence.
    rewrite Hkept, Hl by done. by apply Idisp.
  - assert (d_main s ≠ DPanic) as Hnp0 by congruence.
    rewrite Hkept, Hl by done. by apply Idisp.
Qed.

End DisplayDispatch.

(** ** Display never panics *)

Section DisplayNoPanic.
Import Cmdline.

Local Ltac step_cases H :=
  repeat match type of H with
         | context [match ?x with _ => _ end] => destruct x eqn:?; simpl in H
         end;
  simplify_eq.

Local Ltac d_cases H :=
  unfold Display, progress, progress_codes, progress_done, progress_close, watch in H;
  simpl in H; step_cases H.

Local Ltac shape_cases Hsh :=
  destruct Hsh as [Ht Hl Ho Hs Hw Hm
    | m rest Hm Hm' Hs Hs' Ho Ho' Ht Hl Hw
    | m rest k Hm Hm' Hs Hs' Ho Ho' Ht Hl Hw
    | k c t Hm Hm' Hk Hcl Hc Ht Hl Ho Hs Hw
    | seen d k t Hm Hm' Hd Ho Hk Hcl Ht Hl Ho' Hs Hw
    | k t t' es Hk Hts Ht Hl Hm Ho Hs Hw
    | k t Hk Hout Ht Ho Hl Hm Hs Hw
    | k t Hk Hout Ht Hw Hl Hm Ho Hs ].

Lemma Stop_ok cli : cli_ok cli → ∃ cli' e, Stop cli = Some (cli', e) ∧ cli_ok cli'
                      ∧ cli_done cli' = ChanClosed.
Proof.
  unfold Stop, cli_ok. intros [[H1 H2]|[H1 H2]]; rewrite H1, ?H2.
  - eexists _, _. split; [done|]. simpl. auto.
  - eexists _, _. split; [done|]. auto.
Qed.

Lemma task_step_closed app k t t' es :
  task_step app k t t' es →
  t_codes_closed t' = t_codes_closed t ∧ (live t' = true → live t = true).
Proof.
  destruct 1; simpl; rewrite ?inner_switch_closed; unfold live; simpl;
    rewrite ?inner_switch_outer; simpl; try done.
  all: by rewrite H.
Qed.

Lemma d_np_init ctx app msgs closes : d_np_inv (Display_init ctx app msgs closes).
Proof. split; simpl; try done. by left. Qed.

Lemma d_np_control l s s' :
  d_reg_inv s → d_np_inv s → Display l s = Some s' →
  cli_ok (d_cli s') ∧ d_main s' ≠ DPanic ∧ d_watch s' ≠ WPanic.
Proof.
  intros [[Isound _] _] [Icl Icli Imain Iwatch] Hstep.
  destruct l; d_cases Hstep; simpl; try done.
  all: try (match goal with H : d_main _ = _ |- _ => rewrite H end; done).
  all: try match goal with
       | H : Stop _ = _ |- _ =>
           destruct (Stop_ok _ Icli) as (cli' & e' & HS & Hok & _);
           rewrite HS in H; by simplify_eq
       end.
  - exfalso.
    match goal with
    | H1 : d_tasks _ !! _ = Some _, H2 : t_codes_closed _ = true |- _ =>
        specialize (Icl _ _ H1 H2)
    end.
    match goal with H : d_main _ = _ |- _ => by rewrite H in Icl end.
  - exfalso.
    match goal with
    | H0 : d_ongoing _ !! _ = Some _, H1 : d_tasks _ !! _ = Some _,
      H2 : t_codes_closed _ = true, H3 : bool_decide _ = false |- _ =>
        apply bool_decide_eq_false in H3;
        destruct (Isound _ _ H0) as (t0 & Ht0 & Hd0 & Hl0);
        rewrite H1 in Ht0; injection Ht0 as <-;
        specialize (Icl _ _ H1 H2);
        match goal with H : d_main _ = _ |- _ => rewrite H in Icl end;
        specialize (Icl Hl0); rewrite Hd0 in Icl; done
    end.
Qed.

Lemma d_np_closed s s' :
  d_reg_inv s → closed_ok s → d_shape s s' → d_main s' ≠ DPanic → closed_ok s'.
Proof.
  intros [[Isound _] _] Icl Hsh Hnp j tj Hj Hcj.
  shape_cases Hsh; rewrite Ht in Hj.
  - specialize (Icl _ _ Hj Hcj). destruct Hm as [Hm|Hm]; [by rewrite Hm|].
    unfold control_move in Hm.
    destruct (d_main s), (d_main s'); try done.
  - rewrite lookup_snoc_decide in Hj. case_decide; simplify_eq.
    specialize (Icl _ _ Hj Hcj). by rewrite Hm in Icl.
  - specialize (Icl _ _ Hj Hcj). by rewrite Hm in Icl.
  - rewrite (lookup_upd _ _ _ _ _ Hk) in Hj. case_decide; simplify_eq.
    + specialize (Icl _ _ Hk Hcj). by rewrite Hm in Icl.
    + specialize (Icl _ _ Hj Hcj). by rewrite Hm in Icl.
  - rewrite Hm'. intros Hlive.
    rewrite (lookup_upd _ _ _ _ _ Hk) in Hj. case_decide; simplify_eq.
    + simpl. destruct (Isound _ _ Ho) as (t0 & H0 & Hd0 & _). simplify_eq.
      set_solver.
    + specialize (Icl _ _ Hj Hcj). rewrite Hm in Icl. set_solver.
  - rewrite Hm. rewrite (lookup_upd _ _ _ _ _ Hk) in Hj.
    case_decide; simplify_eq; [|by apply (Icl _ _ Hj)].
    destruct (task_step_closed _ _ _ _ _ Hts) as [Hc' Hl'].
    rewrite Hc' in Hcj. specialize (Icl _ _ Hk Hcj).
    rewrite (task_step_desc _ _ _ _ _ Hts).
    destruct (d_main s); try done. auto.
  - rewrite Hm. rewrite (lookup_upd _ _ _ _ _ Hk) in Hj.
    case_decide; simplify_eq; [|by apply (Icl _ _ Hj)].
    specialize (Icl _ _ Hk Hcj). destruct (d_main s); try done.
  - rewrite Hm. rewrite (lookup_upd _ _ _ _ _ Hk) in Hj.
    case_decide; simplify_eq; [|by apply (Icl _ _ Hj)].
    specialize (Icl _ _ Hk Hcj). destruct (d_main s); try done.
Qed.

Lemma d_np_step l s s' :
  d_reg_inv s → d_np_inv s → Display l s = Some s' → d_np_inv s'.
Proof.
  intros Ireg Inp Hstep.
  destruct (d_np_control _ _ _ Ireg Inp Hstep) as (Hcli & Hmain & Hwatch).
  split; try done.
  eapply d_np_closed; eauto using Display_shape. by destruct Inp.
Qed.

End DisplayNoPanic.

(** ** Display: every reachable state *)

Section DisplayReach.
Import Cmdline.

Lemma d_inv_init ctx app msgs closes :
  d_inv app msgs (Display_init ctx app msgs closes).
Proof.
  split; eauto using d_reg_init, d_np_init, d_flow_init, d_line_init,
    d_cause_init, d_dispatch_init.
Qed.

Lemma d_inv_step app msgs l s s' :
  d_inv app msgs s → Display l s = Some s' → d_inv app msgs s'.
Proof.
  intros [Ireg Inp Iflow Iline Icause Idisp] Hstep.
  pose proof (Display_shape _ _ _ Hstep) as Hsh.
  pose proof (Display_app _ _ _ Hstep) as Happ.
  split.
  - by eapply d_reg_step.
  - by eapply d_np_step.
  - by eapply d_flow_step.
  - by eapply d_line_step.
  - by eapply d_cause_step.
  - by eapply d_dispatch_step.
Qed.

Lemma d_inv_run app msgs ctx closes ls s :
  d_run ls (Display_init ctx app msgs closes) = Some s → d_inv app msgs s.
Proof.
  apply (d_run_inv (d_inv app msgs)).
  - intros l s1 s2. apply d_inv_step.
  - apply d_inv_init.
Qed.

Lemma terminal_line_desc app d c ln :
  terminal_line app d c = Some ln → l_desc ln = d ∧ l_app ln = app.
Proof.
  unfold terminal_line. repeat case_match; intros [= <-]; done.
Qed.

Lemma sent_elem k c log : c ∈ sent k log → ∃ d, ESend k d c ∈ log.
Proof.
  unfold sent. intros (e & He & Hf)%list_elem_of_omap.
  destruct e; try done. case_decide; simplify_eq. eauto.
Qed.

(** A line in the sink was made from a terminal code of its descriptor
    that came, in the input, after an earlier summary of the same
    descriptor. *)
Lemma d_inv_final_cause app msgs s ln :
  d_inv app msgs s →
  WFinal (Some ln) ∈ sink (d_log s) →
  ∃ c, terminal_line app (l_desc ln) c = Some ln
       ∧ after_first (l_desc ln) c (net (d_log s)).
Proof.
  intros [_ _ [_ _ Ififo] [_ Ifin Ihead _] [Isent _ _] _] Hin.
  apply list_elem_of_omap in Hin as (e & He & Hw).
  destruct e as [| | | | |[k|] w]; simplify_eq.
  - destruct (Ifin _ _ He) as (t & c & Hk & Hterm & Hgot).
    destruct (terminal_line_desc _ _ _ _ Hterm) as [Hd _].
    exists c. rewrite Hd. split; [done|].
    specialize (Ififo k). rewrite Hk in Ififo.
    assert (c ∈ sent k (d_log s)) as Hs.
    { rewrite <- Ififo. apply elem_of_app. by left. }
    apply sent_elem in Hs as [d Hs].
    destruct (Isent _ _ _ Hs) as ((t0 & H0 & Hd0) & Haf). by simplify_eq.
  - by specialize (Ihead _ He).
Qed.

End DisplayReach.

Section DisplayClaims.
Import Cmdline.

Local Ltac in_list H :=
  repeat first
    [ apply elem_of_nil in H; destruct H
    | apply elem_of_cons in H as [H|H]; [try discriminate H|] ].

Example d_build_deploy_run :
  d_run d_build_deploy_schedule d_build_deploy_init = Some d_build_deploy_final.
Proof. vm_compute. reflexivity. Qed.

Example d_build_deploy_sink :
  d_main d_build_deploy_final = DReturned
  ∧ sink (d_log d_build_deploy_final)
    = [WStarted "app"; WFinal (Some (mkLine "app" "deploy" Fail)); WFinal None].
Proof. split; reflexivity. Qed.

Example d_again_run : d_run d_again_schedule d_again_init = Some d_again_final.
Proof. vm_compute. reflexivity. Qed.

Example d_again_sink :
  sink (d_log d_again_final)
  = [WStarted "app"; WFinal (Some (mkLine "app" "deploy" Pass));
     WFinal (Some (mkLine "app" "deploy" Fail))]
  ∧ t_desc <$> d_tasks d_again_final = ["deploy"; "deploy"].
Proof. split; reflexivity. Qed.

Example d_first_run : d_run d_first_schedule d_first_init = Some d_first_final.
Proof. vm_compute. reflexivity. Qed.

(** C1, as stated, fails: in the scenario of the specification there is a
    complete execution whose sink holds the line of "deploy" but no line for
    "build". *)
Lemma Display_first_status_not_rendered :
  ¬ (∀ ls s, d_run ls d_build_deploy_init = Some s → d_main s = DReturned →
       WFinal (Some (mkLine "app" "build" Pass)) ∈ sink (d_log s)
       ∧ WFinal (Some (mkLine "app" "deploy" Fail)) ∈ sink (d_log s)).
Proof.
  intros H.
  destruct (H _ _ d_build_deploy_run eq_refl) as [Hb _].
  destruct d_build_deploy_sink as [_ Hsink]. rewrite Hsink in Hb.
  in_list Hb.
Qed.

(** C1, amended.  A SUCCESS or FAILURE line appears in the sink only if a
    summary with that status was received for its descriptor after an
    earlier summary for the same descriptor: the summary that creates a
    stage only starts its renderer, its status is not forwarded.  (What has
    been received is a prefix of the input.) *)
Theorem Display_final_line_cause ctx app msgs closes ls s ln :
  d_run ls (Display_init ctx app msgs closes) = Some s →
  WFinal (Some ln) ∈ sink (d_log s) →
  ∃ c, terminal_line app (l_desc ln) c = Some ln
       ∧ after_first (l_desc ln) c (net (d_log s))
       ∧ net (d_log s) `prefix_of` msgs.
Proof.
  intros Hrun Hin. pose proof (d_inv_run _ _ _ _ _ _ Hrun) as Hinv.
  destruct (d_inv_final_cause _ _ _ _ Hinv Hin) as (c & Hc & Haf).
  exists c. split; [done|]. split; [done|].
  exists (d_summaries s). symmetry. apply (fl_input _ _ _ (inv_flow _ _ _ Hinv)).
Qed.

Lemma Display_final_line_cause_witness :
  ∃ c, terminal_line "app" "deploy" c = Some (mkLine "app" "deploy" Fail)
       ∧ after_first "deploy" c (net (d_log d_build_deploy_final))
       ∧ net (d_log d_build_deploy_final)
         `prefix_of` [mkUpSummary "build" UpSummary_SUCCESS;
                      mkUpSummary "deploy" UpSummary_PENDING;
                      mkUpSummary "deploy" UpSummary_FAILURE].
Proof.
  apply (Display_final_line_cause Background "app" _ true
           d_build_deploy_schedule d_build_deploy_final
           (mkLine "app" "deploy" Fail) d_build_deploy_run).
  destruct d_build_deploy_sink as [_ Hsink]. rewrite Hsink.
  apply elem_of_cons. right. apply elem_of_cons. by left.
Defined.

(** C5, as stated, fails: after stage "deploy" has been finalized and
    removed, a further summary for "deploy" creates a second render state,
    and the sink ends up with two final lines for the descriptor. *)
Lemma Display_recreates_finished_stage :
  ¬ (∀ ls s, d_run ls d_again_init = Some s →
       ∀ k1 k2 t1 t2,
         d_tasks s !! k1 = Some t1 → d_tasks s !! k2 = Some t2 →
         t_desc t1 = t_desc t2 → k1 = k2).
Proof.
  intros H.
  specialize (H _ _ d_again_run 0 1 _ _ eq_refl eq_refl eq_refl).
  discriminate H.
Qed.

(** C5, amended.  Every render state writes the frames of its spinner in
    order and then at most one final text, after which it writes nothing:
    it goes from pending to finished at most once.  At any time at most one
    render state that has not been removed exists per descriptor.  (Once a
    finished render state has been removed, a later summary for the
    descriptor creates a new one.) *)
Theorem Display_stage_finalizes_once ctx app msgs closes ls s :
  d_run ls (Display_init ctx app msgs closes) = Some s →
  (∀ k t, d_tasks s !! k = Some t →
     ∃ i fin, writes_of k (d_log s) = spin_frames app (t_desc t) i ++ fin
              ∧ (fin = [] ∨ ∃ x, fin = [WFinal x]))
  ∧ (∀ k1 k2 t1 t2,
       d_tasks s !! k1 = Some t1 → d_tasks s !! k2 = Some t2 →
       live t1 = true → live t2 = true →
       t_desc t1 = t_desc t2 → k1 = k2).
Proof.
  intros Hrun. pose proof (d_inv_run _ _ _ _ _ _ Hrun) as Hinv.
  destruct Hinv as [[[_ Icomplete] _] _ _ [_ _ _ Iwr] _ _]. split.
  - intros k t Hk. specialize (Iwr _ _ Hk).
    destruct (t_outer t).
    + exists i, []. rewrite app_nil_r. auto.
    + destruct Iwr as (i & x & ->). eauto 10.
    + destruct Iwr as (i & x & ->). eauto 10.
    + destruct Iwr as (i & x & ->). eauto 10.
  - intros k1 k2 t1 t2 H1 H2 Hl1 Hl2 Hd.
    pose proof (Icomplete _ _ H1 Hl1) as Ho1.
    pose proof (Icomplete _ _ H2 Hl2) as Ho2.
    rewrite Hd in Ho1. congruence.
Qed.

Lemma Display_stage_finalizes_once_witness :
  (∀ k t, d_tasks d_again_final !! k = Some t →
     ∃ i fin, writes_of k (d_log d_again_final)
              = spin_frames "app" (t_desc t) i ++ fin
              ∧ (fin = [] ∨ ∃ x, fin = [WFinal x]))
  ∧ (∀ k1 k2 t1 t2,
       d_tasks d_again_final !! k1 = Some t1 →
       d_tasks d_again_final !! k2 = Some t2 →
       live t1 = true → live t2 = true →
       t_desc t1 = t_desc t2 → k1 = k2).
Proof.
  exact (Display_stage_finalizes_once Background "app" _ true
           d_again_schedule d_again_final d_again_run).
Defined.

(** C7, as stated, fails: the status of the summary that creates a stage
    is never delivered to its renderer.  With the single summary
    (build, SUCCESS), the renderer of "build" only ever reads the zero value
    of its closed channel. *)
Lemma Display_first_code_not_delivered :
  ¬ (∀ ls s, d_run ls d_first_init = Some s → d_main s = DReturned →
       delivered 0 (d_log s) = codes_for "build" (net (d_log s))).
Proof.
  intros H. specialize (H _ _ d_first_run eq_refl). discriminate H.
Qed.

(** C7, amended.  In every execution [Display] never panics, and: what it
    has received is a prefix of the input; for every descriptor, the codes
    received for it have been dispatched in the order of arrival, each one
    either creating a stage (and then not forwarded) or sent on the channel
    of the stage registered for the descriptor, but for the one [Display]
    holds at its send; and each stage has received from its channel, in
    order and without loss, the codes sent on it, but for those still
    buffered. *)
Theorem Display_codes_in_order ctx app msgs closes ls s :
  d_run ls (Display_init ctx app msgs closes) = Some s →
  net (d_log s) ++ d_summaries s = msgs
  ∧ (∀ d, dispatched d (d_log s) ++ in_hand d s = codes_for d (net (d_log s)))
  ∧ (∀ k t, d_tasks s !! k = Some t →
       got k (d_log s) ++ t_codes t = sent k (d_log s)).
Proof.
  intros Hrun. pose proof (d_inv_run _ _ _ _ _ _ Hrun) as Hinv.
  destruct Hinv as [_ [_ _ Hnp _] [_ Hin Hfifo] _ _ Hdisp].
  split; [done|]. split; [by apply Hdisp|].
  intros k t Hk. specialize (Hfifo k). by rewrite Hk in Hfifo.
Qed.

Lemma Display_codes_in_order_witness :
  net (d_log d_again_final) ++ d_summaries d_again_final
  = [mkUpSummary "deploy" UpSummary_PENDING; mkUpSummary "deploy" UpSummary_SUCCESS;
     mkUpSummary "deploy" UpSummary_PENDING; mkUpSummary "deploy" UpSummary_FAILURE]
  ∧ (∀ d, dispatched d (d_log d_again_final) ++ in_hand d d_again_final
          = codes_for d (net (d_log d_again_final)))
  ∧ (∀ k t, d_tasks d_again_final !! k = Some t →
       got k (d_log d_again_final) ++ t_codes t = sent k (d_log d_again_final)).
Proof.
  exact (Display_codes_in_order Background "app" _ true
           d_again_schedule d_again_final d_again_run).
Defined.

End DisplayClaims.

(** ** Display: shutting down *)

Section DisplayShutdown.
Import Cmdline.

Local Ltac shape_cases Hsh :=
  destruct Hsh as [Ht Hl Ho Hs Hw Hm
    | m rest Hm Hm' Hs Hs' Ho Ho' Ht Hl Hw
    | m rest k Hm Hm' Hs Hs' Ho Ho' Ht Hl Hw
    | k c t Hm Hm' Hk Hcl Hc Ht Hl Ho Hs Hw
    | seen d k t Hm Hm' Hd Ho Hk Hcl Ht Hl Ho' Hs Hw
    | k t t' es Hk Hts Ht Hl Hm Ho Hs Hw
    | k t Hk Hout Ht Ho Hl Hm Hs Hw
    | k t Hk Hout Ht Hw Hl Hm Ho Hs ].

Lemma running_app ts1 ts2 : running (ts1 ++ ts2) = running ts1 + running ts2.
Proof. unfold running. by rewrite filter_app, length_app. Qed.

Lemma running_cons t ts :
  running (t :: ts) = (if exited t then 0 else 1) + running ts.
Proof.
  unfold running. rewrite filter_cons. destruct (exited t); by case_decide.
Qed.

Lemma running_insert ts k t t' :
  ts !! k = Some t →
  running (<[k:=t']> ts) + (if exited t then 0 else 1)
  = running ts + (if exited t' then 0 else 1).
Proof.
  intros Hk. pose proof (lookup_lt_Some _ _ _ Hk) as Hlt.
  rewrite insert_take_drop by done.
  rewrite <- (take_drop_middle ts k t Hk) at 3.
  rewrite !running_app, !running_cons. lia.
Qed.

Lemma running_zero ts k t : running ts = 0 → ts !! k = Some t → exited t = true.
Proof.
  intros H0 Hk. rewrite <- (take_drop_middle ts k t Hk) in H0.
  rewrite running_app, running_cons in H0. destruct (exited t); [done|lia].
Qed.

Lemma running_pos ts : 0 < running ts → ∃ k t, ts !! k = Some t ∧ exited t = false.
Proof.
  induction ts as [|t ts IH]; [unfold running; simpl; lia|].
  rewrite running_cons. destruct (exited t) eqn:He.
  - intros Hpos. destruct IH as (k & t0 & Hk & H0); [lia|].
    by exists (S k), t0.
  - intros _. by exists 0, t.
Qed.

Lemma task_step_exited app k t t' es :
  task_step app k t t' es → exited t' = exited t.
Proof.
  destruct 1 as [ | | | |i Ho|i msg rest Ho|i Ho]; unfold exited; simpl;
    rewrite ?inner_switch_outer; simpl; try done; by rewrite Ho.
Qed.

Lemma d_join_init ctx app msgs closes :
  d_join_inv (Display_init ctx app msgs closes).
Proof. by split. Qed.

Lemma d_join_step s s' : d_join_inv s → d_shape s s' → d_join_inv s'.
Proof.
  intros [Iwg Iret] Hsh. split.
  - shape_cases Hsh; rewrite Ht.
    + congruence.
    + rewrite running_app, Hw, Iwg. unfold running. simpl. lia.
    + congruence.
    + pose proof (running_insert _ _ _ (t_set_codes [c] t) Hk) as Hr.
      unfold exited in Hr. simpl in Hr. unfold exited in *. lia.
    + pose proof (running_insert _ _ _ (t_close_codes t) Hk) as Hr.
      unfold exited in Hr. simpl in Hr. unfold exited in *. lia.
    + pose proof (running_insert _ _ _ t' Hk) as Hr.
      rewrite (task_step_exited _ _ _ _ _ Hts) in Hr. lia.
    + pose proof (running_insert _ _ _ (t_set_outer OWgDone t) Hk) as Hr.
      unfold exited in Hr. simpl in Hr. rewrite Hout in Hr. lia.
    + pose proof (running_insert _ _ _ (t_set_outer OExit t) Hk) as Hr.
      unfold exited in Hr. simpl in Hr. rewrite Hout in Hr. lia.
  - intros Hret. shape_cases Hsh; try (rewrite Hret in Hm'; discriminate Hm').
    + destruct Hm as [Hm|Hm]; [rewrite Hw; apply Iret; congruence|].
      unfold control_move in Hm. rewrite Hret in Hm.
      destruct (d_main s); try done. congruence.
    + rewrite Hw. apply Iret. congruence.
    + rewrite Hw. apply Iret. congruence.
    + assert (d_wg s = 0) as H0 by (apply Iret; congruence). lia.
Qed.

Lemma task_step_not_born app k t t' es :
  task_step app k t t' es → live t' = true → live t = true.
Proof. intros Hts. by destruct (task_step_closed _ _ _ _ _ Hts). Qed.

Lemma closing_ok_task s s' k t t' :
  d_main s' = d_main s →
  d_tasks s !! k = Some t → d_tasks s' = <[k:=t']> (d_tasks s) →
  t_desc t' = t_desc t → t_codes_closed t' = t_codes_closed t →
  (live t' = true → live t = true) →
  closing_ok s → closing_ok s'.
Proof.
  intros Hm Hk Ht Hd Hc Hl Icl. unfold closing_ok in *. rewrite Hm, Ht.
  destruct (d_main s); try done; intros j tj Hj;
    rewrite (lookup_upd _ _ _ _ _ Hk) in Hj; case_decide; simplify_eq;
    try (by apply Icl).
  all: first [ by apply (Icl _ _ Hj) | rewrite ?Hd, Hc; eauto ].
Qed.

Lemma d_closing_step s s' :
  d_reg_inv s → closing_ok s → d_shape s s' → closing_ok s'.
Proof.
  intros [[Isound Icomplete] _] Icl Hsh.
  shape_cases Hsh.
  - unfold closing_ok in *. rewrite Ht. destruct Hm as [Hm|Hm]; [by rewrite Hm|].
    unfold control_move in Hm.
    destruct (d_main s) eqn:Hpc, (d_main s') eqn:Hpc'; try done.
    + subst. intros j tj _ _ Hin. set_solver.
    + intros j tj Hj Hlj. apply (Icl j tj Hj Hlj).
      apply Hm. apply elem_of_dom. rewrite (Icomplete _ _ Hj Hlj). eauto.
  - unfold closing_ok. by rewrite Hm'.
  - unfold closing_ok. by rewrite Hm'.
  - unfold closing_ok. by rewrite Hm'.
  - unfold closing_ok in *. rewrite Hm', Ht. rewrite Hm in Icl.
    intros j tj Hj Hlj Hin.
    rewrite (lookup_upd _ _ _ _ _ Hk) in Hj. case_decide; simplify_eq; [done|].
    apply (Icl j tj Hj Hlj).
    apply elem_of_union in Hin as [Hin|Hin]; [|done].
    apply elem_of_singleton in Hin.
    pose proof (Icomplete _ _ Hj Hlj) as Hoj. rewrite Hin in Hoj. congruence.
  - eapply closing_ok_task; eauto.
    + by eapply task_step_desc.
    + by destruct (task_step_closed _ _ _ _ _ Hts).
    + by eapply task_step_not_born.
  - eapply closing_ok_task; eauto. unfold live. simpl. done.
  - eapply closing_ok_task; eauto. unfold live. simpl. done.
Qed.

End DisplayShutdown.

Section DisplayExtras.
Import Cmdline.

Local Ltac shape_cases Hsh :=
  destruct Hsh as [Ht Hl Ho Hs Hw Hm
    | m rest Hm Hm' Hs Hs' Ho Ho' Ht Hl Hw
    | m rest k Hm Hm' Hs Hs' Ho Ho' Ht Hl Hw
    | k c t Hm Hm' Hk Hcl Hc Ht Hl Ho Hs Hw
    | seen d k t Hm Hm' Hd Ho Hk Hcl Ht Hl Ho' Hs Hw
    | k t t' es Hk Hts Ht Hl Hm Ho Hs Hw
    | k t Hk Hout Ht Ho Hl Hm Hs Hw
    | k t Hk Hout Ht Hw Hl Hm Ho Hs ].

Lemma d_down_run ctx app msgs closes ls s :
  d_run ls (Display_init ctx app msgs closes) = Some s → d_down_inv s.
Proof.
  apply (d_run_inv d_down_inv).
  - intros l s1 s2 [Ireg Ijoin Icl] Hstep.
    pose proof (Display_shape _ _ _ Hstep) as Hsh. split.
    + by eapply d_reg_step.
    + by eapply d_join_step.
    + by eapply d_closing_step.
  - split; [apply d_reg_init|apply d_join_init|done].
Qed.

Lemma sink_app l1 l2 : sink (l1 ++ l2) = sink l1 ++ sink l2.
Proof. apply omap_app. Qed.

(** Once [Display] has returned with every stage goroutine gone, a step
    changes neither fact and writes nothing. *)
Lemma returned_step s s' :
  d_main s = DReturned →
  (∀ k t, d_tasks s !! k = Some t → exited t = true) →
  d_shape s s' →
  d_main s' = DReturned
  ∧ (∀ k t, d_tasks s' !! k = Some t → exited t = true)
  ∧ sink (d_log s') = sink (d_log s).
Proof.
  intros Hret Hex Hsh.
  shape_cases Hsh; try (rewrite Hret in Hm; discriminate Hm).
  - rewrite Ht, Hl. destruct Hm as [Hm|Hm]; [by rewrite Hm|].
    unfold control_move in Hm. by rewrite Hret in Hm.
  - pose proof (Hex _ _ Hk) as Hx.
    pose proof (task_step_exited _ _ _ _ _ Hts) as Hx'.
    split; [congruence|]. split.
    + intros j tj Hj. rewrite Ht, (lookup_upd _ _ _ _ _ Hk) in Hj.
      case_decide; simplify_eq; [congruence|eauto].
    + rewrite Hl, sink_app.
      destruct Hts as [ | | | |i Hou|i msg rest Hou|i Hou]; simpl;
        rewrite ?app_nil_r; try done;
        unfold exited in Hx; by rewrite Hou in Hx.
  - pose proof (Hex _ _ Hk) as Hx. unfold exited in Hx. by rewrite Hout in Hx.
  - pose proof (Hex _ _ Hk) as Hx. unfold exited in Hx. by rewrite Hout in Hx.
Qed.

Lemma returned_run ls s s' :
  d_main s = DReturned →
  (∀ k t, d_tasks s !! k = Some t → exited t = true) →
  d_run ls s = Some s' →
  sink (d_log s') = sink (d_log s).
Proof.
  revert s. induction ls as [|l ls IH]; simpl; intros s Hret Hex Hrun.
  - by simplify_eq.
  - destruct (Display l s) as [s1|] eqn:Hstep; [|done].
    destruct (returned_step _ _ Hret Hex (Display_shape _ _ _ Hstep))
      as (Hret1 & Hex1 & Hsink).
    rewrite <- Hsink. by apply IH.
Qed.

(** In every execution [Display] is free of panics: it never sends on a
    closed channel, never closes a channel twice, and the calls of
    [cli.Stop()] (its own and that of the goroutines of [Init]) never close
    [done] twice. *)
Theorem Display_never_panics ctx app msgs closes ls s :
  d_run ls (Display_init ctx app msgs closes) = Some s →
  d_main s ≠ DPanic ∧ d_watch s ≠ WPanic.
Proof.
  intros Hrun. destruct (d_inv_run _ _ _ _ _ _ Hrun) as [_ [_ _ Hm Hw] _ _ _ _].
  done.
Qed.

(** [Display] returns only when every stage goroutine it started has
    finished ([wg.Wait()]), and after it has returned nothing is written to
    the sink any more. *)
Theorem Display_returns_after_join ctx app msgs closes ls s :
  d_run ls (Display_init ctx app msgs closes) = Some s →
  d_main s = DReturned →
  (∀ k t, d_tasks s !! k = Some t → t_outer t = OExit)
  ∧ (∀ ls' s', d_run ls' s = Some s' → sink (d_log s') = sink (d_log s)).
Proof.
  intros Hrun Hret. destruct (d_down_run _ _ _ _ _ _ Hrun) as [_ [Hwg Hz] _].
  specialize (Hz Hret). rewrite Hwg in Hz.
  assert (∀ k t, d_tasks s !! k = Some t → exited t = true) as Hex.
  { intros k t Hk. by eapply running_zero. }
  split.
  - intros k t Hk. specialize (Hex _ _ Hk). unfold exited in Hex.
    by destruct (t_outer t).
  - intros ls' s' Hrun'. by eapply returned_run.
Qed.

(** By the time the deferred function of [Display] calls [cli.Stop()], and
    from then on, the update channel of every stage still in [ongoing] has
    been closed. *)
Theorem Display_closes_registered_channels ctx app msgs closes ls s d k :
  d_run ls (Display_init ctx app msgs closes) = Some s →
  d_main s = DStop ∨ d_main s = DWait ∨ d_main s = DReturned →
  d_ongoing s !! d = Some k →
  ∃ t, d_tasks s !! k = Some t ∧ t_desc t = d ∧ t_codes_closed t = true.
Proof.
  intros Hrun Hpc Ho.
  destruct (d_down_run _ _ _ _ _ _ Hrun) as [[[Isound _] _] _ Icl].
  destruct (Isound _ _ Ho) as (t & Hk & Hd & Hl).
  exists t. split; [done|]. split; [done|].
  unfold closing_ok in Icl.
  destruct Hpc as [Hpc|[Hpc|Hpc]]; rewrite Hpc in Icl; eauto.
Qed.

Lemma step_of_display l s :
  l ≠ LCancel → l ≠ LWatch → is_Some (Display l s) →
  ∃ l s', l ≠ LCancel ∧ l ≠ LWatch ∧ Display l s = Some s'.
Proof. intros H1 H2 [s' Hs]. by exists l, s'. Qed.

(** Once [Display] has left its loop it cannot be blocked: until it has
    returned, [Display] itself or one of its stage goroutines can always
    take a step, whatever the caller and the goroutines of [Init] do. *)
Theorem Display_shutdown_not_blocked ctx app msgs closes ls s :
  d_run ls (Display_init ctx app msgs closes) = Some s →
  (∃ seen, d_main s = DClose seen) ∨ d_main s = DStop ∨ d_main s = DWait →
  ∃ l s', l ≠ LCancel ∧ l ≠ LWatch ∧ Display l s = Some s'.
Proof.
  intros Hrun Hpc.
  destruct (d_down_run _ _ _ _ _ _ Hrun) as [[[Isound _] _] [Hwg _] _].
  destruct Hpc as [[seen Hpc]|[Hpc|Hpc]].
  - destruct (decide (dom (d_ongoing s) ⊆ seen)) as [Hsub|Hsub].
    + apply (step_of_display LMain); [done|done|].
      simpl. rewrite Hpc. rewrite bool_decide_eq_true_2 by done. by eexists.
    + assert (∃ d, d ∈ dom (d_ongoing s) ∧ d ∉ seen) as (d & Hd & Hns).
      { destruct (decide (dom (d_ongoing s) ∖ seen = ∅)) as [He|Hne].
        - exfalso. apply Hsub. set_solver.
        - apply set_choose_L in Hne as [d Hd]. exists d. set_solver. }
      apply elem_of_dom in Hd as [k Hk].
      destruct (Isound _ _ Hk) as (t & Ht & _).
      apply (step_of_display (LMainClose d)); [done|done|].
      simpl. rewrite Hpc.
      rewrite bool_decide_eq_false_2 by done. rewrite Hk, Ht.
      destruct (t_codes_closed t); by eexists.
  - apply (step_of_display LMain); [done|done|].
    simpl. rewrite Hpc. destruct (Stop (d_cli s)) as [[? ?]|]; by eexists.
  - destruct (d_wg s) as [|n] eqn:Hn.
    + apply (step_of_display LMain); [done|done|].
      simpl. rewrite Hpc, Hn. by eexists.
    + destruct (running_pos (d_tasks s)) as (k & t & Hk & Hx); [lia|].
      apply (step_of_display (LOuter k)); [done|done|].
      simpl. unfold progress. rewrite Hk.
      unfold exited in Hx.
      destruct (t_outer t); try done; try (by eexists);
        try (rewrite Hn; by eexists).
      destruct (t_done t); [destruct (t_done_closed t)|]; by eexists.
Qed.

Lemma codes_for_length_two d c0 c pre mid post rest :
  2 ≤ length (codes_for d
                ((pre ++ mkUpSummary d c0 :: mid ++ mkUpSummary d c :: post) ++ rest)).
Proof.
  rewrite !codes_for_app. simpl.
  rewrite !length_app. simpl. rewrite decide_True by done. simpl.
  rewrite codes_for_app, length_app. simpl. rewrite decide_True by done.
  simpl. lia.
Qed.

(** A descriptor that the input names at most once never gets a SUCCESS or
    FAILURE line, whatever status its only summary carries. *)
Theorem Display_single_summary_no_line ctx app msgs closes ls s d ln :
  length (codes_for d msgs) ≤ 1 →
  d_run ls (Display_init ctx app msgs closes) = Some s →
  WFinal (Some ln) ∈ sink (d_log s) →
  l_desc ln ≠ d.
Proof.
  intros Hlen Hrun Hin Hd.
  pose proof (d_inv_run _ _ _ _ _ _ Hrun) as Hinv.
  destruct (d_inv_final_cause _ _ _ _ Hinv Hin) as (c & _ & Haf).
  destruct Haf as (pre & c0 & mid & post & Hnet).
  pose proof (fl_input _ _ _ (inv_flow _ _ _ Hinv)) as Hmsgs.
  rewrite Hnet, Hd in Hmsgs.
  pose proof (codes_for_length_two d c0 c pre mid post (d_summaries s)) as H2.
  rewrite Hmsgs in H2. lia.
Qed.

Example d_first_stop_run :
  d_run d_first_stop_schedule d_first_init = Some d_first_stop.
Proof. vm_compute. reflexivity. Qed.

Lemma Display_never_panics_witness :
  d_main d_build_deploy_final ≠ DPanic ∧ d_watch d_build_deploy_final ≠ WPanic.
Proof.
  exact (Display_never_panics Background "app" _ true d_build_deploy_schedule
           d_build_deploy_final d_build_deploy_run).
Defined.

Lemma Display_returns_after_join_witness :
  (∀ k t, d_tasks d_build_deploy_final !! k = Some t → t_outer t = OExit)
  ∧ (∀ ls' s', d_run ls' d_build_deploy_final = Some s' →
       sink (d_log s') = sink (d_log d_build_deploy_final)).
Proof.
  exact (Display_returns_after_join Background "app" _ true
           d_build_deploy_schedule d_build_deploy_final d_build_deploy_run eq_refl).
Defined.

Lemma Display_closes_registered_channels_witness :
  ∃ t, d_tasks d_first_stop !! 0 = Some t ∧ t_desc t = "build"
       ∧ t_codes_closed t = true.
Proof.
  apply (Display_closes_registered_channels Background "app" _ true
           d_first_stop_schedule d_first_stop "build" 0 d_first_stop_run).
  - left. reflexivity.
  - vm_compute. reflexivity.
Defined.

Lemma Display_shutdown_not_blocked_witness :
  ∃ l s', l ≠ LCancel ∧ l ≠ LWatch ∧ Display l d_first_stop = Some s'.
Proof.
  apply (Display_shutdown_not_blocked Background "app" _ true
           d_first_stop_schedule d_first_stop d_first_stop_run).
  right. left. reflexivity.
Defined.

Lemma Display_single_summary_no_line_witness :
  l_desc (mkLine "app" "deploy" Fail) ≠ "build".
Proof.
  apply (Display_single_summary_no_line Background "app"
           [mkUpSummary "build" UpSummary_SUCCESS;
            mkUpSummary "deploy" UpSummary_PENDING;
            mkUpSummary "deploy" UpSummary_FAILURE] true
           d_build_deploy_schedule d_build_deploy_final "build"
           (mkLine "app" "deploy" Fail)).
  - vm_compute. lia.
  - exact d_build_deploy_run.
  - destruct d_build_deploy_sink as [_ Hsink]. rewrite Hsink.
    apply elem_of_cons. right. apply elem_of_cons. by left.
Defined.

End DisplayExtras.

(** ** UpBuild: the other paths *)

Section UpBuildExtras.
Import Rpc.

Lemma up_build_trace_eof ms tail :
  up_build_trace ((RecvMsg <$> ms) ++ RecvEOF :: tail) = Some (ms, None).
Proof.
  induction ms as [|m ms IH]; [done|].
  rewrite fmap_cons. simpl. by rewrite IH.
Qed.

Example ub_two_run : ub_run ub_two_schedule ub_two_init = Some ub_two_final.
Proof. vm_compute. reflexivity. Qed.

Example ub_two_result :
  ub_main ub_two_final = MReturned None
  ∧ ub_out ub_two_final = [None; Some sum_build].
Proof. split; reflexivity. Qed.

Example ub_stall_run : ub_run ub_stall_schedule ub_stall_init = Some ub_stall_final.
Proof. vm_compute. reflexivity. Qed.

(** With a caller that has stopped receiving, [UpBuild] stays for ever at
    its send on the output channel: it has not returned, [outc] is not
    closed, and nothing but a cancellation, which changes nothing, can
    happen. *)
Example ub_stall_blocked :
  ub_quiescent ub_stall_final
  ∧ ub_main ub_stall_final = MEmit (Some sum_build)
  ∧ ub_out ub_stall_final = [None]
  ∧ ub_outc_closes ub_stall_final = 0.
Proof.
  split; [|by vm_compute].
  intros l Hl. destruct l; try done; vm_compute; reflexivity.
Qed.

(** On a stream that delivers the messages [ms] and then ends, every
    execution of [UpBuild] forwards to the caller, in order, one value per
    message (the summary, or nil for a message that is no summary); it can
    block before it returns only at its send on the output channel, once
    the caller has stopped receiving with values still to come, so that it
    cannot block when the caller receives one value per message; it returns
    within a number of steps bounded by the length of the stream; and when
    it has returned, the error is nil, every message has been forwarded and
    the output channel has been closed once. *)
Theorem UpBuild_forwards_all ctx addr sends takes ms tail ls s :
  ub_run ls (UpBuild_init ctx addr None None
               ((RecvMsg <$> ms) ++ RecvEOF :: tail) sends takes) = Some s →
  ub_out s `prefix_of` (GetUpSummary <$> ms)
  ∧ (ub_quiescent s →
       (∃ x, ub_main s = MReturned x)
       ∨ (∃ x, ub_main s = MEmit x ∧ takes = Some (length (ub_out s))
               ∧ length (ub_out s) < length ms))
  ∧ (caller_takes takes (length ms) → ub_quiescent s →
       ∃ x, ub_main s = MReturned x)
  ∧ (∀ x, ub_main s = MReturned x →
       x = None ∧ ub_out s = GetUpSummary <$> ms ∧ ub_outc_closes s = 1)
  ∧ length ls ≤ 17 + 4 * (length ms + length tail).
Proof.
  intros Hrun.
  destruct (UpBuild_sound _ _ _ _ _ _ _ _ _ (up_build_trace_eof ms tail) Hrun)
    as (Hpre & _ & Hret & Hq & Hlen).
  split; [done|]. split; [done|]. split; [|split].
  - intros Htk Hquiet. destruct (Hq Hquiet) as [?|(x & Hx & Ht & Hlt)]; [done|].
    destruct (caller_takes_not_blocked _ _ _ Htk Ht Hlt).
  - intros x Hx. destruct (Hret x Hx) as (-> & Hc & Hout). auto.
  - unfold ub_measure in Hlen. simpl in Hlen.
    rewrite length_app, length_fmap in Hlen. simpl in Hlen.
    destruct (canceled ctx); lia.
Qed.

Lemma UpBuild_forwards_all_witness :
  ub_out ub_stall_final `prefix_of` (GetUpSummary <$> ub_two_msgs)
  ∧ (ub_quiescent ub_stall_final →
       (∃ x, ub_main ub_stall_final = MReturned x)
       ∨ (∃ x, ub_main ub_stall_final = MEmit x
               ∧ Some 1 = Some (length (ub_out ub_stall_final))
               ∧ length (ub_out ub_stall_final) < length ub_two_msgs))
  ∧ (caller_takes (Some 1) (length ub_two_msgs) → ub_quiescent ub_stall_final →
       ∃ x, ub_main ub_stall_final = MReturned x)
  ∧ (∀ x, ub_main ub_stall_final = MReturned x →
       x = None ∧ ub_out ub_stall_final = GetUpSummary <$> ub_two_msgs
       ∧ ub_outc_closes ub_stall_final = 1)
  ∧ length ub_stall_schedule
    ≤ 17 + 4 * (length ub_two_msgs + length (@nil recv_result)).
Proof.
  exact (UpBuild_forwards_all Background "localhost:44135" [] (Some 1) ub_two_msgs
           [] ub_stall_schedule ub_stall_final ub_stall_run).
Defined.

Local Ltac step_cases H :=
  repeat match type of H with
         | context [match ?x with _ => _ end] => destruct x eqn:?; simpl in H
         end;
  simplify_eq.









Example ub_noopen_result :
  ub_main ub_noopen_final
  = MReturned (Some "rpc error handling up_build: unavailable").
Proof. reflexivity. Qed.


End UpBuildExtras.

(** ** UpStream: the other paths *)

Section UpStreamExtras.
Import Rpc.

Local Ltac step_cases H :=
  repeat match type of H with
         | context [match ?x with _ => _ end] => destruct x eqn:?; simpl in H
         end;
  simplify_eq.

Lemma us_run_inv (P : us_state → Prop) :
  (∀ l s s', P s → UpStream l s = Some s' → P s') →
  ∀ ls s s', P s → us_run ls s = Some s' → P s'.
Proof.
  intros Hstep ls. induction ls as [|l ls IH]; simpl; intros s s' HP Hrun.
  - by simplify_eq.
  - destruct (UpStream l s) as [s1|] eqn:Hs; [|done]. eauto.
Qed.




Example us_noopen_result :
  us_main us_noopen_final
  = SReturned (Some "rpc error handling up_stream: unavailable")
  ∧ us_fwd us_noopen_final = FRange.
Proof. split; reflexivity. Qed.

Example us_noopen_quiescent : us_quiescent us_noopen_final.
Proof. intros l Hl. destruct l; try done; vm_compute; reflexivity. Qed.


End UpStreamExtras.

(** ** UpStream: every execution *)

Section UpStreamRuns.
Import Rpc.

Local Ltac step_cases H :=
  repeat match type of H with
         | context [match ?x with _ => _ end] => destruct x eqn:?; simpl in H
         end;
  simplify_eq.

Lemma us_inv_init ctx addr dial open recvs sends reqs closes takes :
  us_inv recvs reqs (UpStream_init ctx addr dial open recvs sends reqs closes takes).
Proof. by split. Qed.

Local Ltac us_hyps :=
  repeat match goal with
  | H : ?a = ?a → _ |- _ => specialize (H eq_refl)
  | H : _ ∧ _ |- _ => destruct H
  | H : ?b = true → false = true |- _ =>
      is_var b; destruct b; [by specialize (H eq_refl)|clear H]
  end.

Local Ltac us_fin :=
  intros; simplify_eq; rewrite ?app_nil_r in *; rewrite <- ?app_assoc in *;
  simpl in *; try done; try lia; try congruence;
  try (match goal with
       | H : ?a ++ _ = ?b |- ?a `prefix_of` ?b => rewrite <- H; by eexists
       | H : ?a = ?b |- ?a `prefix_of` ?b => by rewrite H
       end);
  try (intuition (auto; congruence)).

Local Ltac us_split :=
  simpl in *; us_hyps; try done; split; unfold us_rest; simpl in *; us_fin.

Lemma us_inv_step recvs reqs l s s' :
  us_inv recvs reqs s → UpStream l s = Some s' → us_inv recvs reqs s'.
Proof.
  intros [Hctx Hflow Heof Hdone Hmsgc Herrc Hmain Hrcv Hfwd Hconn Hsent Hnil] Hstep.
  destruct s as [actx addr dial open st reqc rcl sent mcl dcl ecl fwd rcv main out ocl ccl clr].
  unfold us_rest in *. simpl in *.
  destruct l; simpl in Hstep.
  - (* UsMain *)
    unfold up_stream in Hstep; simpl in Hstep.
    destruct main; simpl in *; try done.
    + destruct (connect addr dial); simplify_eq; us_split.
    + destruct open; simplify_eq; us_split.
    + destruct (Send st) as [[e|] st'] eqn:HS; simplify_eq;
        destruct (Send_background _ _ _ HS) as [Hc Hr];
        rewrite <- Hr in *; rewrite <- Hc in *; us_split.
    + simplify_eq. us_split.
    + destruct dcl; simplify_eq. us_split.
    + destruct mcl; simplify_eq; destruct fwd; us_split.
    + destruct ecl; simplify_eq; destruct fwd; us_split.
    + simplify_eq. us_split.
  - (* UsMainSend *)
    destruct main; simpl in *; try done.
    destruct reqc; [destruct rcl|]; simplify_eq; us_split.
  - (* UsMainErrc *)
    destruct main; simpl in *; try done.
    destruct rcv, ecl; simpl in *; simplify_eq; us_split.
  - (* UsRecv *)
    unfold receive in Hstep; simpl in Hstep.
    destruct rcv; simpl in *; try done.
    + destruct (Recv st) as [[x st']|] eqn:HR; [|done].
      destruct (Recv_background _ _ _ Hctx HR) as [Hctx' Hscript].
      rewrite Hscript in Hflow, Heof. simpl in Hflow, Heof.
      destruct x; simplify_eq; destruct main; us_split.
    + destruct mcl; simplify_eq. us_split.
    + destruct ecl; simplify_eq. us_split.
  - (* UsFwd *)
    unfold forward in Hstep; simpl in Hstep.
    destruct fwd; simpl in *; try done.
    + destruct rcv, mcl; simpl in *; simplify_eq; try (destruct main; us_split; fail).
      destruct (GetUpSummary m) eqn:Hg; simplify_eq; destruct main; us_split.
    + destruct (caller_recv clr); simplify_eq. destruct main; us_split.
    + simplify_eq. destruct main; us_split.
  - (* UsCancel *)
    destruct (canceled actx); simplify_eq. destruct main; us_split.
Qed.

Lemma us_inv_run recvs reqs ls s s' :
  us_inv recvs reqs s → us_run ls s = Some s' → us_inv recvs reqs s'.
Proof. apply us_run_inv. intros; by eapply us_inv_step. Qed.

(** Every step uses up some of the measure: executions are finite. *)
Lemma us_measure_step l s s' :
  s_ctx (us_stream s) = Background →
  UpStream l s = Some s' → us_measure s' < us_measure s.
Proof.
  intros Hctx Hstep.
  destruct s as [actx addr dial open st reqc rcl sent mcl dcl ecl fwd rcv main out ocl ccl clr].
  simpl in Hctx.
  destruct l; simpl in Hstep; unfold up_stream, receive, forward in Hstep;
    simpl in Hstep.
  - destruct main; simpl in Hstep; try done.
    + destruct (connect addr dial); simplify_eq; unfold us_measure; simpl;
        destruct fwd; simpl; lia.
    + destruct open; simplify_eq; unfold us_measure; simpl;
        destruct rcv; simpl; lia.
    + destruct (Send st) as [[e|] st'] eqn:HS; simplify_eq;
        destruct (Send_background _ _ _ HS) as [_ Hr];
        unfold us_measure; simpl; rewrite Hr; lia.
    + simplify_eq. unfold us_measure; simpl. lia.
    + destruct dcl; simplify_eq. unfold us_measure; simpl. lia.
    + destruct mcl; simplify_eq; unfold us_measure; simpl; lia.
    + destruct ecl; simplify_eq; unfold us_measure; simpl; lia.
    + simplify_eq. unfold us_measure; simpl. lia.
  - destruct main; simpl in Hstep; try done.
    destruct reqc; [destruct rcl|]; simplify_eq; unfold us_measure; simpl; lia.
  - destruct main; simpl in Hstep; try done.
    destruct rcv, ecl; simplify_eq; unfold us_measure; simpl; lia.
  - destruct rcv; simpl in Hstep; try done.
    + destruct (Recv st) as [[x st']|] eqn:HR; [|done].
      destruct (Recv_length _ _ _ HR) as [_ Hlen].
      rewrite Hctx in Hlen. specialize (Hlen eq_refl).
      destruct x; simplify_eq; unfold us_measure; simpl; lia.
    + destruct mcl; simplify_eq. unfold us_measure; simpl. lia.
    + destruct ecl; simplify_eq. unfold us_measure; simpl. lia.
  - destruct fwd; simpl in Hstep; try done.
    + destruct rcv, mcl; simpl in Hstep; simplify_eq;
        try (unfold us_measure; simpl; lia).
      destruct (GetUpSummary m); simplify_eq; unfold us_measure; simpl; lia.
    + destruct (caller_recv clr); simplify_eq. unfold us_measure; simpl. lia.
    + simplify_eq. unfold us_measure; simpl. lia.
  - destruct (canceled actx) eqn:Hc; simplify_eq. unfold us_measure; simpl.
    rewrite Hc. lia.
Qed.

Lemma us_run_bounded recvs reqs ls s s' :
  us_inv recvs reqs s → us_run ls s = Some s' →
  length ls + us_measure s' ≤ us_measure s.
Proof.
  revert s. induction ls as [|l ls IH]; simpl; intros s Hinv Hrun.
  - simplify_eq. lia.
  - destruct (UpStream l s) as [s1|] eqn:Hstep; [|done].
    pose proof (us_measure_step _ _ _ (usi_ctx _ _ _ Hinv) Hstep).
    pose proof (IH _ (us_inv_step _ _ _ _ _ Hinv Hstep) Hrun). lia.
Qed.

(** [UpStream] never panics, whatever the server and the caller do: [recv]
    and [errc] are closed once, by the deferred function of [up_stream], and
    only after the receive loop has closed [done] and exited, so that no
    send meets a closed channel; [outc] and the connection are closed at
    most once. *)
Theorem UpStream_never_panics
    ctx addr dial open recvs sends reqs closes takes ls s :
  us_run ls (UpStream_init ctx addr dial open recvs sends reqs closes takes) = Some s →
  us_main s ≠ SPanic ∧ us_rcv s ≠ RPanic
  ∧ us_outc_closes s ≤ 1 ∧ us_conn_closes s ≤ 1
  ∧ (us_msgc_closed s = true → us_done_closed s = true ∧ us_rcv s = RExit)
  ∧ (us_errc_closed s = true → us_msgc_closed s = true).
Proof.
  intros Hrun.
  pose proof (us_inv_run recvs reqs _ _ _ (us_inv_init _ _ _ _ _ _ _ _ _) Hrun)
    as [Hctx Hflow Heof Hdone Hmsgc Herrc Hmain Hrcv Hfwd Hconn Hsent Hnil].
  destruct s as [actx addr' dial' open' st reqc rcl sent mcl dcl ecl fwd rcv main out ocl ccl clr].
  simpl in *. split_and!.
  - intros ->. done.
  - done.
  - destruct fwd; lia.
  - destruct main; lia.
  - intros Hm. split; [auto|]. by destruct (Hdone (Hmsgc Hm)).
  - done.
Qed.

(** The summaries sent on [outc] are, in the order of the stream, the
    summaries of the messages the server sends before the end of the stream
    or its first error: the other messages are dropped.  The requests
    written on the stream are, in order, requests received from [reqc].
    [outc] is closed only when the stream has ended and every summary has
    been sent; when [UpStream] returns nil every request has been written.
    An execution has a number of steps bounded by the lengths of the
    scripts. *)
Theorem UpStream_forwards_in_order
    ctx addr dial open recvs sends reqs closes takes ls s :
  us_run ls (UpStream_init ctx addr dial open recvs sends reqs closes takes) = Some s →
  us_out s `prefix_of` omap GetUpSummary (script_msgs recvs)
  ∧ us_sent s `prefix_of` (UpMessage_UpRequest <$> reqs)
  ∧ (us_outc_closes s = 1 →
       script_eof recvs = true
       ∧ us_out s = omap GetUpSummary (script_msgs recvs))
  ∧ (us_main s = SReturned None → us_sent s = UpMessage_UpRequest <$> reqs)
  ∧ length ls ≤ 15 + 4 * length recvs + 2 * length reqs.
Proof.
  intros Hrun.
  pose proof (us_inv_init ctx addr dial open recvs sends reqs closes takes) as Hi.
  pose proof (us_run_bounded _ _ _ _ _ Hi Hrun) as Hb.
  pose proof (us_inv_run recvs reqs _ _ _ Hi Hrun)
    as [Hctx Hflow Heof Hdone Hmsgc Herrc Hmain Hrcv Hfwd Hconn Hsent Hnil].
  clear Hrun Hi. unfold us_rest in Hflow.
  destruct s as [actx addr' dial' open' st reqc rcl sent mcl dcl ecl fwd rcv main out ocl ccl clr].
  simpl in *. split_and!.
  - rewrite <- Hflow. by eexists.
  - destruct main; try done; rewrite <- Hsent; by eexists.
  - intros ->. destruct fwd; try lia. destruct Hfwd as [Hm _].
    destruct (Hdone (Hmsgc Hm)) as [Hr He]. rewrite Hr in Hflow. simpl in Hflow.
    by rewrite app_nil_r in Hflow.
  - intros ->. by apply Hnil.
  - unfold us_measure in Hb. simpl in Hb. destruct (canceled ctx); lia.
Qed.

Lemma us_eof_init ctx addr recvs sends reqs takes :
  us_eof_inv sends (UpStream_init ctx addr None None recvs sends reqs true takes).
Proof. split; simpl; try done; auto. Qed.

Lemma Send_clean st x st' :
  s_ctx st = Background → Forall (eq None) (s_send st) → Send st = (x, st') →
  x = None ∧ Forall (eq None) (s_send st').
Proof.
  unfold Send. destruct st as [c rs ss]; simpl. intros -> Hall; simpl.
  destruct ss as [|y l]; intros [= <- <-]; simpl; [done|].
  by inversion Hall.
Qed.

Lemma Recv_send st x st' : Recv st = Some (x, st') → s_send st' = s_send st.
Proof.
  unfold Recv. destruct (canceled (s_ctx st)); [by intros [= <- <-]|].
  destruct (s_recv st); [done|]. by intros [= <- <-].
Qed.

Lemma us_eof_step recvs reqs sends l s s' :
  script_eof recvs = true →
  us_inv recvs reqs s → us_eof_inv sends s → UpStream l s = Some s' →
  us_eof_inv sends s'.
Proof.
  intros Hscr [Hctx Hflow Heof Hdone Hmsgc Herrc Hmain Hrcv Hfwd Hconn Hsent Hnil]
    [Hdial Hopen Hcl Hr Hf Hleft Hclean Hlate] Hstep.
  destruct s as [actx addr dial open st reqc rcl sent mcl dcl ecl fwd rcv main out ocl ccl clr].
  simpl in *. subst dial open rcl.
  destruct l; simpl in Hstep.
  - (* UsMain *)
    unfold up_stream in Hstep; simpl in Hstep.
    destruct main; simpl in *; try done.
    + simplify_eq. us_split.
    + simplify_eq. us_split.
    + destruct (Send st) as [[e|] st'] eqn:HS; simplify_eq;
        destruct (Send_background _ _ _ HS) as [Hc Hr'];
        split; simpl; try done.
      * destruct rcv; us_fin.
      * intros Hx. by specialize (Hf Hx).
      * intros r [= <-]. right. by eexists.
      * intros Hall. destruct (Hclean Hall) as [Hall' _].
        by destruct (Send_clean _ _ _ Hctx Hall' HS).
      * destruct rcv; us_fin.
      * intros Hx. by specialize (Hf Hx).
      * intros Hall. destruct (Hclean Hall) as [Hall' _].
        destruct (Send_clean _ _ _ Hctx Hall' HS) as [_ ?]. by split.
    + simplify_eq. destruct rcv; us_split.
    + destruct dcl; simplify_eq. destruct rcv; us_split.
    + destruct mcl; simplify_eq; destruct rcv; us_split.
    + destruct ecl; simplify_eq; destruct rcv; us_split.
    + simplify_eq. destruct rcv; us_split.
  - (* UsMainSend *)
    destruct main; simpl in *; try done.
    destruct reqc; simplify_eq; destruct rcv; us_split.
  - (* UsMainErrc *)
    destruct main; simpl in *; try done.
    destruct rcv, ecl; simpl in *; simplify_eq; us_split.
  - (* UsRecv *)
    unfold receive in Hstep; simpl in Hstep.
    destruct rcv; simpl in *; try done.
    + destruct (Recv st) as [[x st']|] eqn:HR; [|done].
      destruct (Recv_background _ _ _ Hctx HR) as [Hctx' Hscript].
      rewrite Hscript in Heof. simpl in Heof.
      rewrite <- (Recv_send _ _ _ HR) in Hclean.
      destruct x; simplify_eq; destruct main; us_split.
    + destruct mcl; simplify_eq. us_split.
  - (* UsFwd *)
    unfold forward in Hstep; simpl in Hstep.
    destruct fwd; simpl in *; try done.
    + destruct rcv, mcl; simpl in *; simplify_eq; try (destruct main; us_split; fail).
      destruct (GetUpSummary m) eqn:Hg; simplify_eq; destruct main; us_split.
    + destruct (caller_recv clr); simplify_eq. destruct main, rcv; us_split.
    + simplify_eq. destruct main, rcv; us_split.
  - (* UsCancel *)
    destruct (canceled actx); simplify_eq. destruct main, rcv; us_split.
Qed.

Lemma script_msgs_eof ms tail :
  script_msgs ((RecvMsg <$> ms) ++ RecvEOF :: tail) = ms
  ∧ script_eof ((RecvMsg <$> ms) ++ RecvEOF :: tail) = true.
Proof.
  induction ms as [|m ms [IH1 IH2]]; [done|].
  rewrite fmap_cons. simpl. split; [by f_equal|done].
Qed.

(** Every send on [outc] that completes uses up one of the receives of
    the caller. *)
Lemma us_credit_step takes l s s' :
  credit_left takes (length (us_out s)) (us_caller s) →
  UpStream l s = Some s' →
  credit_left takes (length (us_out s')) (us_caller s').
Proof.
  intros Hc Hstep.
  destruct s as [actx addr dial open st reqc rcl sent mcl dcl ecl fwd rcv main out ocl ccl clr].
  simpl in *.
  destruct l; simpl in Hstep; unfold up_stream, receive, forward in Hstep;
    simpl in Hstep; step_cases Hstep; simpl; try done.
  unfold credit_left in *. rewrite length_app. simpl.
  destruct takes, clr as [[|k]|]; simpl in *; simplify_eq; try done. lia.
Qed.

(** No deadlock of its own: while [UpStream] has not returned and its
    forwarding goroutine has not exited, some goroutine can move, unless the
    forwarding goroutine is at its send on [outc] and the caller has stopped
    receiving. *)
Lemma us_eof_progress recvs reqs sends s :
  script_eof recvs = true →
  us_inv recvs reqs s → us_eof_inv sends s → us_quiescent s →
  (∃ x, us_main s = SReturned x ∧ us_fwd s = FExit)
  ∨ (∃ x, us_fwd s = FEmit x ∧ us_caller s = Some 0).
Proof.
  intros Hscr [Hctx Hflow Heof Hdone Hmsgc Herrc Hmain Hrcv Hfwd Hconn Hsent Hnil]
    [Hdial Hopen Hcl Hr Hf Hleft Hclean Hlate] Hq.
  destruct s as [actx addr dial open st reqc rcl sent mcl dcl ecl fwd rcv main out ocl ccl clr].
  simpl in *. subst dial open rcl.
  pose proof (Hq UsMain ltac:(done)) as HM.
  pose proof (Hq UsMainSend ltac:(done)) as HMs.
  pose proof (Hq UsRecv ltac:(done)) as HR.
  pose proof (Hq UsFwd ltac:(done)) as HF.
  clear Hq. simpl in *. unfold up_stream, receive, forward in *. simpl in *.
  assert ((∃ y, fwd = FEmit y) ∨ ∀ y, fwd ≠ FEmit y) as [[y ->]|Hne]
    by (destruct fwd; eauto).
  { right. exists y. split; [done|]. by destruct clr as [[|n]|]. }
  left. destruct main; simpl in *; try done.
  - by destruct reqc.
  - by destruct (Send st) as [[e|] st'].
  - destruct dcl; [done|].
    destruct rcv; simpl in *; try done.
    + by destruct Hr.
    + specialize (Heof eq_refl). rewrite Hscr in Heof.
      unfold Recv in HR. rewrite Hctx in HR. simpl in HR.
      destruct (s_recv st) as [|[]]; simpl in *; done.
    + subst mcl. destruct fwd; simpl in *; try done; try (by edestruct Hne).
      * by specialize (Hf eq_refl).
      * by destruct (GetUpSummary m).
      * by destruct Hfwd.
  - by destruct mcl.
  - by destruct ecl.
  - destruct Hlate as [He _]. specialize (Herrc He). subst mcl.
    destruct fwd; simpl in *; try done; try (by edestruct Hne).
    + by specialize (Hf eq_refl).
    + by destruct rcv.
    + by eauto.
Qed.

(** When the dial and the call [rpc.UpStream] succeed, the server sends the
    messages [ms] and then ends the stream, and the caller closes [reqc]
    after its requests, an execution can get stuck before [UpStream] has
    returned and its forwarding goroutine has exited only with the
    forwarding goroutine at its send on [outc], once the caller has stopped
    receiving with summaries still to come: [outc] is then never closed.
    So with a caller that receives one value per summary of [ms] no
    execution gets stuck before that, and by then every summary of [ms] has
    been sent on [outc], in order, [outc] has been closed once and so has
    the connection.  [UpStream] returns nil or the error of a failed send;
    it returns nil, with every request written, when no send fails.  It can
    return before the last summaries have been sent. *)
Theorem UpStream_end_of_stream ctx addr ms tail sends reqs takes ls s :
  us_run ls (UpStream_init ctx addr None None
               ((RecvMsg <$> ms) ++ RecvEOF :: tail) sends reqs true takes) = Some s →
  (us_quiescent s →
     (∃ x, us_main s = SReturned x ∧ us_fwd s = FExit ∧ us_rcv s = RExit
           ∧ us_out s = omap GetUpSummary ms ∧ us_outc_closes s = 1)
     ∨ (∃ x, us_fwd s = FEmit x ∧ takes = Some (length (us_out s))
             ∧ length (us_out s) < length (omap GetUpSummary ms)
             ∧ us_outc_closes s = 0))
  ∧ (caller_takes takes (length (omap GetUpSummary ms)) → us_quiescent s →
       ∃ x, us_main s = SReturned x ∧ us_fwd s = FExit ∧ us_rcv s = RExit
            ∧ us_out s = omap GetUpSummary ms ∧ us_outc_closes s = 1)
  ∧ (∀ x, us_main s = SReturned x →
       (x = None ∨ ∃ e, x = Some (errorf "failed to send an up message: " e))
       ∧ (Forall (eq None) sends →
            x = None ∧ us_sent s = UpMessage_UpRequest <$> reqs)
       ∧ us_rcv s = RExit ∧ us_msgc_closed s = true
       ∧ us_errc_closed s = true ∧ us_conn_closes s = 1
       ∧ us_out s ++ fwd_pending (us_fwd s) = omap GetUpSummary ms).
Proof.
  intros Hrun.
  destruct (script_msgs_eof ms tail) as [Hms Heo].
  set (recvs := (RecvMsg <$> ms) ++ RecvEOF :: tail) in *.
  assert (us_inv recvs reqs s ∧ us_eof_inv sends s
          ∧ credit_left takes (length (us_out s)) (us_caller s)) as (Hi & He & Hcr).
  { apply (us_run_inv (λ s, us_inv recvs reqs s ∧ us_eof_inv sends s
                            ∧ credit_left takes (length (us_out s)) (us_caller s)))
      in Hrun; [done| |].
    - intros l s1 s2 (H1 & H2 & H3) Hs. split; [by eapply us_inv_step|].
      split; [by eapply us_eof_step|by eapply us_credit_step].
    - split; [apply us_inv_init|]. split; [apply us_eof_init|].
      simpl. destruct takes; simpl; [lia|done]. }
  assert (us_quiescent s →
     (∃ x, us_main s = SReturned x ∧ us_fwd s = FExit ∧ us_rcv s = RExit
           ∧ us_out s = omap GetUpSummary ms ∧ us_outc_closes s = 1)
     ∨ (∃ x, us_fwd s = FEmit x ∧ takes = Some (length (us_out s))
             ∧ length (us_out s) < length (omap GetUpSummary ms)
             ∧ us_outc_closes s = 0)) as Hprog.
  { intros Hq.
    destruct (us_eof_progress _ _ _ _ Heo Hi He Hq) as [(x & Hm & Hf)|(x & Hf & Hc)].
    - left.
      destruct Hi as [Hctx Hflow Heof Hdone Hmsgc Herrc Hmain Hrcv Hfwd Hconn Hsent Hnil].
      unfold us_rest in Hflow. rewrite Hf in Hfwd, Hflow. destruct Hfwd as [Hmc Hoc].
      destruct (Hdone (Hmsgc Hmc)) as [Hrx _]. rewrite Hrx in Hflow.
      simpl in Hflow. rewrite app_nil_r, Hms in Hflow. eauto 10.
    - right. exists x.
      destruct Hi as [Hctx Hflow Heof Hdone Hmsgc Herrc Hmain Hrcv Hfwd Hconn Hsent Hnil].
      rewrite Hf in Hfwd, Hflow. simpl in Hflow. rewrite Hms in Hflow.
      apply (f_equal length) in Hflow. rewrite length_app in Hflow. simpl in Hflow.
      rewrite Hc in Hcr. unfold credit_left in Hcr.
      destruct takes as [n|]; [|done]. simpl in Hcr.
      split; [done|]. split; [f_equal; lia|]. split; [lia|done]. }
  split; [done|]. split.
  - intros Htk Hq. destruct (Hprog Hq) as [?|(x & _ & Ht & Hlt & _)]; [done|].
    destruct (caller_takes_not_blocked _ _ _ Htk Ht Hlt).
  - intros x Hx.
    destruct Hi as [Hctx Hflow Heof Hdone Hmsgc Herrc Hmain Hrcv Hfwd Hconn Hsent Hnil].
    destruct He as [Hdial Hopen Hcl Hr Hf Hleft Hclean Hlate].
    unfold us_rest in Hflow.
    rewrite Hx in *. simpl in *. destruct Hlate as [Hec Hcc].
    pose proof (Herrc Hec) as Hmc. destruct (Hdone (Hmsgc Hmc)) as [Hrx _].
    rewrite Hrx in Hflow. simpl in Hflow. rewrite app_nil_r, Hms in Hflow.
    split_and!; try done.
    + by apply Hleft.
    + intros Hall. destruct (Hclean Hall) as [_ Hn].
      specialize (Hn _ eq_refl) as ->. auto.
Qed.

Example us_end_early_run : us_run us_end_early us_end_init = Some us_end_returned.
Proof. vm_compute. reflexivity. Qed.

Example us_end_run : us_run us_end_schedule us_end_init = Some us_end_final.
Proof. vm_compute. reflexivity. Qed.

(** [UpStream] has returned nil while the last summary is still to be
    sent and [outc] is still open. *)
Example us_end_returned_result :
  us_main us_end_returned = SReturned None
  ∧ us_out us_end_returned = [mkUpSummary "build" UpSummary_SUCCESS]
  ∧ us_fwd us_end_returned = FEmit (mkUpSummary "deploy" UpSummary_FAILURE)
  ∧ us_outc_closes us_end_returned = 0.
Proof. vm_compute. done. Qed.

Example us_end_quiescent : us_quiescent us_end_final.
Proof. intros l Hl. destruct l; try done; vm_compute; reflexivity. Qed.

Example us_end_result :
  us_main us_end_final = SReturned None
  ∧ us_out us_end_final
    = [mkUpSummary "build" UpSummary_SUCCESS;
       mkUpSummary "deploy" UpSummary_FAILURE]
  ∧ us_sent us_end_final = [UpMessage_UpRequest (mkUpRequest "app")]
  ∧ us_outc_closes us_end_final = 1.
Proof. vm_compute. done. Qed.

Lemma UpStream_never_panics_witness :
  us_main us_end_final ≠ SPanic ∧ us_rcv us_end_final ≠ RPanic
  ∧ us_outc_closes us_end_final ≤ 1 ∧ us_conn_closes us_end_final ≤ 1
  ∧ (us_msgc_closed us_end_final = true →
       us_done_closed us_end_final = true ∧ us_rcv us_end_final = RExit)
  ∧ (us_errc_closed us_end_final = true → us_msgc_closed us_end_final = true).
Proof.
  exact (UpStream_never_panics Background "localhost:44135" None None
           ((RecvMsg <$> us_end_msgs) ++ RecvEOF :: [RecvErr "late"]) []
           [mkUpRequest "app"] true None us_end_schedule us_end_final us_end_run).
Defined.

Lemma UpStream_forwards_in_order_witness :
  us_out us_end_returned
    `prefix_of` omap GetUpSummary
                  (script_msgs ((RecvMsg <$> us_end_msgs) ++ RecvEOF :: [RecvErr "late"]))
  ∧ us_sent us_end_returned `prefix_of` (UpMessage_UpRequest <$> [mkUpRequest "app"])
  ∧ (us_outc_closes us_end_returned = 1 →
       script_eof ((RecvMsg <$> us_end_msgs) ++ RecvEOF :: [RecvErr "late"]) = true
       ∧ us_out us_end_returned
         = omap GetUpSummary
             (script_msgs ((RecvMsg <$> us_end_msgs) ++ RecvEOF :: [RecvErr "late"])))
  ∧ (us_main us_end_returned = SReturned None →
       us_sent us_end_returned = UpMessage_UpRequest <$> [mkUpRequest "app"])
  ∧ length us_end_early
    ≤ 15 + 4 * length ((RecvMsg <$> us_end_msgs) ++ RecvEOF :: [RecvErr "late"])
      + 2 * length [mkUpRequest "app"].
Proof.
  exact (UpStream_forwards_in_order Background "localhost:44135" None None
           ((RecvMsg <$> us_end_msgs) ++ RecvEOF :: [RecvErr "late"]) []
           [mkUpRequest "app"] true None us_end_early us_end_returned
           us_end_early_run).
Defined.

Example us_stall_run : us_run us_end_early us_stall_init = Some us_stall_final.
Proof. vm_compute. reflexivity. Qed.

(** With a caller that has stopped receiving, [UpStream] returns nil but
    its forwarding goroutine stays for ever at its send on [outc], which is
    never closed: nothing but a cancellation, which changes nothing, can
    happen. *)
Example us_stall_blocked :
  us_quiescent us_stall_final
  ∧ us_main us_stall_final = SReturned None
  ∧ us_fwd us_stall_final = FEmit (mkUpSummary "deploy" UpSummary_FAILURE)
  ∧ us_out us_stall_final = [mkUpSummary "build" UpSummary_SUCCESS]
  ∧ us_outc_closes us_stall_final = 0.
Proof.
  split; [|by vm_compute].
  intros l Hl. destruct l; try done; vm_compute; reflexivity.
Qed.

Lemma UpStream_end_of_stream_witness :
  (us_quiescent us_end_final →
     (∃ x, us_main us_end_final = SReturned x ∧ us_fwd us_end_final = FExit
           ∧ us_rcv us_end_final = RExit
           ∧ us_out us_end_final = omap GetUpSummary us_end_msgs
           ∧ us_outc_closes us_end_final = 1)
     ∨ (∃ x, us_fwd us_end_final = FEmit x
             ∧ None = Some (length (us_out us_end_final))
             ∧ length (us_out us_end_final) < length (omap GetUpSummary us_end_msgs)
             ∧ us_outc_closes us_end_final = 0))
  ∧ (caller_takes None (length (omap GetUpSummary us_end_msgs)) →
     us_quiescent us_end_final →
       ∃ x, us_main us_end_final = SReturned x ∧ us_fwd us_end_final = FExit
            ∧ us_rcv us_end_final = RExit
            ∧ us_out us_end_final = omap GetUpSummary us_end_msgs
            ∧ us_outc_closes us_end_final = 1)
  ∧ (∀ x, us_main us_end_final = SReturned x →
       (x = None ∨ ∃ e, x = Some (errorf "failed to send an up message: " e))
       ∧ (Forall (eq None) ([] : list (option error)) →
            x = None
            ∧ us_sent us_end_final = UpMessage_UpRequest <$> [mkUpRequest "app"])
       ∧ us_rcv us_end_final = RExit ∧ us_msgc_closed us_end_final = true
       ∧ us_errc_closed us_end_final = true ∧ us_conn_closes us_end_final = 1
       ∧ us_out us_end_final ++ fwd_pending (us_fwd us_end_final)
         = omap GetUpSummary us_end_msgs).
Proof.
  exact (UpStream_end_of_stream Background "localhost:44135" us_end_msgs
           [RecvErr "late"] [] [mkUpRequest "app"] None us_end_schedule
           us_end_final us_end_run).
Defined.

End UpStreamRuns.

(** ** Display: why it stops *)

Section DisplayCause.
Import Cmdline.

Local Ltac step_cases H :=
  repeat match type of H with
         | context [match ?x with _ => _ end] => destruct x eqn:?; simpl in H
         end;
  simplify_eq.

Local Ltac d_cases H :=
  unfold Display, progress, progress_codes, progress_done, progress_close, watch in H;
  simpl in H; step_cases H.







End DisplayCause.
